(** * Regression split selection of mlpack: MSE and MAD gain

    A shallow embedding of
      - [src/mlpack/methods/decision_tree_regression/mse_gain.hpp]
      - [src/mlpack/methods/decision_tree_regression/mad_gain.hpp]
    together with the two split finders that the regression tests
    ([src/mlpack/tests/decision_tree_regression_test.cpp]) exercise.

    The C++ code computes on [double].  Every function below is written once,
    over an interface [Arith] of the arithmetic operations the code uses, and
    is then read at two instances:
      - [binary64]: Rocq's primitive IEEE-754 binary64 numbers, which is
        what the compiled program computes with, bit for bit;
      - [exactQ]: the rationals, the rounding-free reading of the same code,
        in which gains are the real numbers the documentation speaks of.
    Reads of a vector are bounds checked in the model: Armadillo's
    [operator[]] is unchecked, so an out-of-range read is undefined in C++
    and is [None] here. *)

From Stdlib Require Import List ZArith NArith QArith Qabs Floats Lia Lqa Bool.
From Stdlib Require Import Sorting.Permutation Sorting.Sorted Setoid Morphisms.
Import ListNotations.

Set Implicit Arguments.
Unset Strict Implicit.

(** ** [size_t]: 64-bit unsigned integers, with wrap-around *)

Module Size.

Definition modulus : N := 2 ^ 64.

(** [a - b] on [size_t]. *)
Definition sub (a b : N) : N := ((a + modulus - b mod modulus) mod modulus)%N.

(** [a + b] on [size_t]. *)
Definition add (a b : N) : N := ((a + b) mod modulus)%N.

(** [v.n_elem] *)
Definition n_elem {T : Type} (v : list T) : N := N.of_nat (length v).

(** The element count of [v] is a [size_t], as that of every Armadillo
    vector is. *)
Definition fits {T : Type} (v : list T) : Prop := (n_elem v < modulus)%N.

End Size.

(** ** The arithmetic of the code *)

Class Arith (T : Type) : Type := {
  zero : T;                       (* 0.0 *)
  one : T;                        (* 1.0 *)
  two : T;                        (* 2.0 *)
  add : T -> T -> T;
  sub : T -> T -> T;
  mul : T -> T -> T;
  div : T -> T -> T;
  opp : T -> T;                   (* unary minus *)
  fabs : T -> T;                  (* std::abs *)
  pow2 : T -> T;                  (* std::pow(x, 2) *)
  of_size : N -> T;               (* conversion of a size_t to double *)
  eqb : T -> T -> bool;           (* == *)
  ltb : T -> T -> bool;           (* < *)
  dbl_max : T                     (* DBL_MAX *)
}.

Declare Scope arith_scope.
Delimit Scope arith_scope with ar.
Infix "+" := add : arith_scope.
Infix "-" := sub : arith_scope.
Infix "*" := mul : arith_scope.
Infix "/" := div : arith_scope.
Notation "- x" := (opp x) : arith_scope.
Infix "==?" := eqb (at level 70, no associativity) : arith_scope.
Infix "<?" := ltb : arith_scope.

(** *** Exact rational arithmetic *)

Definition Q_dbl_max : Q := inject_Z ((2 ^ 53 - 1) * 2 ^ 971).

#[export] Instance exactQ : Arith Q := {|
  zero := 0%Q;
  one := 1%Q;
  two := 2%Q;
  add := Qplus;
  sub := Qminus;
  mul := Qmult;
  div := Qdiv;
  opp := Qopp;
  fabs := Qabs;
  pow2 := fun x => Qmult x x;
  of_size := fun n => inject_Z (Z.of_N n);
  eqb := Qeq_bool;
  ltb := fun x y => negb (Qle_bool y x);
  dbl_max := Q_dbl_max
|}.

(** *** IEEE-754 binary64 *)

(** Conversion of a [size_t] to [double], rounding to nearest.  Values below
    [2 ^ 63] convert directly; for the others the low bit is folded into the
    halved value as a sticky bit, and the result is doubled (the sequence
    compilers emit for an unsigned 64-bit conversion). *)
Definition f64_of_size (n : N) : float :=
  let z := Z.of_N (n mod Size.modulus) in
  if (z <? 2 ^ 63)%Z then PrimFloat.of_uint63 (Uint63.of_Z z)
  else
    let h := Z.lor (Z.shiftr z 1) (Z.land z 1) in
    PrimFloat.mul (PrimFloat.of_uint63 (Uint63.of_Z h)) 2%float.

#[export] Instance binary64 : Arith float := {|
  zero := 0%float;
  one := 1%float;
  two := 2%float;
  add := PrimFloat.add;
  sub := PrimFloat.sub;
  mul := PrimFloat.mul;
  div := PrimFloat.div;
  opp := PrimFloat.opp;
  fabs := PrimFloat.abs;
  pow2 := fun x => PrimFloat.mul x x;   (* the correctly rounded square *)
  of_size := f64_of_size;
  eqb := PrimFloat.eqb;
  ltb := PrimFloat.ltb;
  dbl_max := 0x1.fffffffffffffp+1023%float
|}.

(** The exact value of a finite binary64 number. *)
Definition Q_of_float (x : float) : option Q :=
  match Prim2SF x with
  | S754_zero _ => Some 0%Q
  | S754_finite s m e =>
      let v := if (0 <=? e)%Z then inject_Z (Z.pos m * 2 ^ e)
               else (Z.pos m # Z.to_pos (2 ^ (- e)))%Q in
      Some (if s then Qopp v else v)
  | S754_infinity _ | S754_nan => None
  end.


Definition withinb (tol expected x : Q) : bool := Qle_bool (Qabs (x - expected)) tol.

Definition f64_within (tol expected : Q) (r : option float) : bool :=
  match r with
  | Some x => match Q_of_float x with
              | Some q => withinb tol expected q
              | None => false
              end
  | None => false
  end.

(** ** Vectors and loops *)

Definition bind {A B : Type} (x : option A) (f : A -> option B) : option B :=
  match x with
  | Some a => f a
  | None => None
  end.

Notation "x <- e ;; k" := (bind e (fun x => k))
  (at level 61, e at next level, right associativity).
Notation "' p <- e ;; k" := (bind e (fun p => k))
  (at level 61, p pattern, e at next level, right associativity).

(** [v[i]] *)
Definition at_ {T : Type} (v : list T) (i : N) : option T := nth_error v (N.to_nat i).

(** The index sequence of [for (size_t i = start; i <= end; i++)], for
    [end < SIZE_MAX]: empty when [start > end]. *)
Definition indices (start end_ : N) : list N :=
  map N.of_nat (seq (N.to_nat start) (N.to_nat (N.succ end_ - start))).

(** Running a loop body over a list of indices, threading the loop's
    variables; an undefined read aborts the loop. *)
Fixpoint for_each {S : Type} (idx : list N) (body : N -> S -> option S) (s : S)
  : option S :=
  match idx with
  | [] => Some s
  | i :: idx' => s' <- body i s ;; for_each idx' body s'
  end.

Definition for_loop {S : Type} (start end_ : N) (body : N -> S -> option S) (s : S)
  : option S :=
  for_each (indices start end_) body s.

(** ** mse_gain.hpp *)

Module MSEGain.
Section WithArith.
Context {T : Type} {A : Arith T}.
Local Open Scope arith_scope.

Definition Evaluate (UseWeights : bool) (predictors weights : list T)
    (start end_ : N) : option T :=
  let mse := zero in
  if UseWeights then
    ' (accWeights, weightedMean) <-
      for_loop start end_
        (fun i '(accWeights, weightedMean) =>
           w <- at_ weights i ;;
           p <- at_ predictors i ;;
           Some (accWeights + w, weightedMean + p * w))
        (zero, zero) ;;
    if accWeights ==? zero then Some zero
    else
      let weightedMean := weightedMean / accWeights in
      mse <- for_loop start end_
        (fun i mse =>
           w <- at_ weights i ;;
           p <- at_ predictors i ;;
           let f := w * pow2 (p - weightedMean) in
           Some (mse + f / accWeights))
        mse ;;
      Some (- mse)
  else
    mean <- for_loop start end_
      (fun i mean => p <- at_ predictors i ;; Some (mean + p)) zero ;;
    let mean := mean / of_size (Size.add (Size.sub end_ start) 1) in
    mse <- for_loop start end_
      (fun i mse =>
         p <- at_ predictors i ;;
         let f := one * pow2 (p - mean) in
         Some (mse + f / of_size (Size.add (Size.sub end_ start) 1)))
      mse ;;
    Some (- mse).

(** The overload on the whole vector. *)
Definition EvaluateAll (UseWeights : bool) (predictors weights : list T) : option T :=
  if (Size.n_elem predictors =? 0)%N then Some zero
  else Evaluate UseWeights predictors weights 0 (Size.sub (Size.n_elem predictors) 1).

End WithArith.
End MSEGain.

(** ** mad_gain.hpp *)

Module MADGain.
Section WithArith.
Context {T : Type} {A : Arith T}.
Local Open Scope arith_scope.

Definition Evaluate (UseWeights : bool) (predictors weights : list T)
    (start end_ : N) : option T :=
  let mad := zero in
  if UseWeights then
    ' (accWeights, weightedMean) <-
      for_loop start end_
        (fun i '(accWeights, weightedMean) =>
           w <- at_ weights i ;;
           p <- at_ predictors i ;;
           Some (accWeights + w, weightedMean + p * w))
        (zero, zero) ;;
    if accWeights ==? zero then Some zero
    else
      let weightedMean := weightedMean / accWeights in
      mad <- for_loop start end_
        (fun i mad =>
           w <- at_ weights i ;;
           p <- at_ predictors i ;;
           let f := w * fabs (p - weightedMean) in
           Some (mad + f / accWeights))
        mad ;;
      Some (- mad)
  else
    mean <- for_loop start end_
      (fun i mean => p <- at_ predictors i ;; Some (mean + p)) zero ;;
    let mean := mean / of_size (Size.add (Size.sub end_ start) 1) in
    mad <- for_loop start end_
      (fun i mad =>
         p <- at_ predictors i ;;
         let f := fabs (p - mean) in
         Some (mad + f / of_size (Size.add (Size.sub end_ start) 1)))
      mad ;;
    Some (- mad).

(** The overload on the whole vector. *)
Definition EvaluateAll (UseWeights : bool) (predictors weights : list T) : option T :=
  if (Size.n_elem predictors =? 0)%N then Some zero
  else Evaluate UseWeights predictors weights 0 (Size.sub (Size.n_elem predictors) 1).

End WithArith.
End MADGain.

(** The elements of [v] at the positions [start .. end_]. *)
Definition slice {T : Type} (v : list T) (start end_ : N) : list T :=
  firstn (N.to_nat (N.succ end_ - start)) (skipn (N.to_nat start) v).

(** [xs] lists what the reads [v[i]], [i] in [idx], return. *)
Definition reads {T : Type} (v : list T) (idx : list N) (xs : list T) : Prop :=
  Forall2 (fun i x => at_ v i = Some x) idx xs.

(** ** The fitness function a split finder is instantiated with

    The finders take the gain as a template parameter [FitnessFunction] and
    call its two [Evaluate] overloads. *)

Class FitnessFunction (T : Type) : Type := {
  fitness_range : bool -> list T -> list T -> N -> N -> option T;
  fitness_all : bool -> list T -> list T -> option T
}.

Definition MSE {T : Type} {A : Arith T} : FitnessFunction T :=
  {| fitness_range := MSEGain.Evaluate; fitness_all := MSEGain.EvaluateAll |}.

Definition MAD {T : Type} {A : Arith T} : FitnessFunction T :=
  {| fitness_range := MADGain.Evaluate; fitness_all := MADGain.EvaluateAll |}.

(** [v[i]] for every [i] of [idx], in order. *)
Fixpoint gather {T : Type} (v : list T) (idx : list N) : option (list T) :=
  match idx with
  | [] => Some []
  | i :: idx' => x <- at_ v i ;; xs <- gather v idx' ;; Some (x :: xs)
  end.

(** The samples of a feature, each with its index. *)
Definition indexed {T : Type} (data : list T) : list (N * T) :=
  combine (map N.of_nat (seq 0 (length data))) data.

(** ** The numeric split finder *)

Module BestBinaryNumericSplit.
Section WithArith.
Context {T : Type} {A : Arith T} (F : FitnessFunction T).
Local Open Scope arith_scope.

(** Modelled from the spec: one insertion of the index sort of step 1 (the
    finder's source, best_binary_numeric_split.hpp, is not among the
    sources): an indexed sample goes before the first sample that is not
    smaller, so ties keep their input order. *)
Fixpoint insert (x : N * T) (l : list (N * T)) : list (N * T) :=
  match l with
  | [] => [x]
  | y :: l' => if snd y <? snd x then y :: insert x l' else x :: l
  end.

(** Modelled from the spec: the index sort of step 1 of the numeric finder,
    which is not among the sources: the sample indices by ascending feature
    value, each with its value, ties in input order. *)
Definition sort_index (data : list T) : list (N * T) :=
  fold_right insert [] (indexed data).

(** Modelled from the spec: step 3 of the numeric finder, which is not among
    the sources.  A split after the first [k] samples of the sorted order is
    a candidate when it lies between two distinct feature values and leaves
    at least [minimumLeafSize] samples on each side. *)
Definition is_candidate (sortedData : list T) (minimumLeafSize k : nat) : bool :=
  let n := length sortedData in
  (minimumLeafSize <=? k)%nat && (minimumLeafSize <=? n - k)%nat &&
  (1 <=? k)%nat && (k <? n)%nat &&
  match nth_error sortedData (k - 1), nth_error sortedData k with
  | Some a, Some b => negb (a ==? b)
  | _, _ => false
  end.

(** Modelled from the spec: step 4 of the numeric finder, which is not among
    the sources.  The gain of the split after the first [k] sorted samples:
    the gains of the two sides, each weighted by its share of the samples
    (of the weight, when weights are used). *)
Definition candidate_gain (UseWeights : bool) (sortedResponses sortedWeights : list T)
    (k : nat) : option T :=
  let n := length sortedResponses in
  leftGain <- fitness_range UseWeights sortedResponses sortedWeights
                0 (N.of_nat (k - 1)) ;;
  rightGain <- fitness_range UseWeights sortedResponses sortedWeights
                (N.of_nat k) (N.of_nat (n - 1)) ;;
  if UseWeights then
    let leftWeight := fold_left add (firstn k sortedWeights) zero in
    let rightWeight := fold_left add (skipn k sortedWeights) zero in
    let total := leftWeight + rightWeight in
    Some (leftWeight / total * leftGain + rightWeight / total * rightGain)
  else
    Some (of_size (N.of_nat k) / of_size (N.of_nat n) * leftGain
          + of_size (N.of_nat (n - k)) / of_size (N.of_nat n) * rightGain).

(** Modelled from the spec: the threshold of step 5 of the numeric finder,
    which is not among the sources: the midpoint of the two feature values
    that the split after the first [k] sorted samples separates. *)
Definition threshold (sortedData : list T) (k : nat) : T :=
  (nth (k - 1) sortedData zero + nth k sortedData zero) / two.

(** Modelled from the spec: one step of the sweep of steps 2 to 4 of the
    numeric finder, which is not among the sources: the best candidate so
    far, with its threshold; a later candidate replaces it only with a
    strictly greater gain. *)
Definition sweep_step (UseWeights : bool) (sortedData sortedResponses sortedWeights : list T)
    (minimumLeafSize : nat) (k : nat) (best : option (T * T)) : option (option (T * T)) :=
  if is_candidate sortedData minimumLeafSize k then
    gain <- candidate_gain UseWeights sortedResponses sortedWeights k ;;
    match best with
    | None => Some (Some (gain, threshold sortedData k))
    | Some (bestFoundGain, _) =>
        if bestFoundGain <? gain then Some (Some (gain, threshold sortedData k))
        else Some best
    end
  else Some best.

(** Modelled from the spec: the sweep of steps 2 to 4 of the numeric finder,
    which is not among the sources, over the split positions [ks]. *)
Fixpoint sweep (UseWeights : bool) (sortedData sortedResponses sortedWeights : list T)
    (minimumLeafSize : nat) (ks : list nat) (best : option (T * T))
  : option (option (T * T)) :=
  match ks with
  | [] => Some best
  | k :: ks' =>
      best' <- sweep_step UseWeights sortedData sortedResponses sortedWeights
                 minimumLeafSize k best ;;
      sweep UseWeights sortedData sortedResponses sortedWeights minimumLeafSize ks' best'
  end.

(** Modelled from the spec: [BestBinaryNumericSplit<FitnessFunction>::
    SplitIfBetter<UseWeights>] of best_binary_numeric_split.hpp, which is
    not among the sources (only its tests are).  The result pairs the
    returned gain with the contents of [outSplitInfo] after the call. *)
Definition SplitIfBetter (UseWeights : bool) (bestGain : T) (data responses weights : list T)
    (minimumLeafSize : N) (minimumGainSplit : T) (outSplitInfo : list T)
  : option (T * list T) :=
  if (Size.n_elem data <? 2 * minimumLeafSize)%N then Some (dbl_max, outSplitInfo)
  else
    let sorted := sort_index data in
    let sortedData := map snd sorted in
    sortedResponses <- gather responses (map fst sorted) ;;
    sortedWeights <- (if UseWeights then gather weights (map fst sorted) else Some []) ;;
    best <- sweep UseWeights sortedData sortedResponses sortedWeights
              (N.to_nat minimumLeafSize) (seq 1 (length data - 1)) None ;;
    match best with
    | Some (gain, splitPoint) =>
        if bestGain + minimumGainSplit <? gain then Some (gain, [splitPoint])
        else Some (dbl_max, outSplitInfo)
    | None => Some (dbl_max, outSplitInfo)
    end.

End WithArith.
End BestBinaryNumericSplit.

(** ** The categorical split finder *)

Module AllCategoricalSplit.
Section WithArith.
Context {T : Type} {A : Arith T} (F : FitnessFunction T).
Local Open Scope arith_scope.

(** Modelled from the spec: the bucket of a category in the categorical
    finder (all_categorical_split.hpp, which is not among the sources): the
    indices of the samples whose feature value is the category [c]. *)
Definition members (data : list N) (c : N) : list N :=
  map fst (filter (fun s => (snd s =? c)%N) (indexed data)).

(** Modelled from the spec: the impurity of one bucket of the categorical
    finder, which is not among the sources, with the bucket's share of the
    total: a sample count, or a weight sum when weights are used. *)
Definition bucket (UseWeights : bool) (responses weights : list T) (idx : list N)
  : option (T * T) :=
  childResponses <- gather responses idx ;;
  childWeights <- (if UseWeights then gather weights idx else Some []) ;;
  childGain <- fitness_all UseWeights childResponses childWeights ;;
  Some (childGain,
        if UseWeights then fold_left add childWeights zero
        else of_size (N.of_nat (length idx))).

(** Modelled from the spec: the combination of the buckets' gains in the
    categorical finder, which is not among the sources: the children's
    gains, each weighted by its share. *)
Fixpoint combined (UseWeights : bool) (responses weights : list T)
    (buckets : list (list N)) (total overall : T) : option T :=
  match buckets with
  | [] => Some overall
  | idx :: buckets' =>
      ' (childGain, share) <- bucket UseWeights responses weights idx ;;
      combined UseWeights responses weights buckets' total
        (overall + share / total * childGain)
  end.

(** Modelled from the spec: the combined gain of the split that gives every
    category its own child, in the categorical finder, which is not among
    the sources. *)
Definition combined_gain (UseWeights : bool) (data : list N) (numCategories : N)
    (responses weights : list T) : option T :=
  let buckets := map (members data) (map N.of_nat (seq 0 (N.to_nat numCategories))) in
  total <- (if UseWeights
            then ws <- gather weights (map fst (indexed data)) ;; Some (fold_left add ws zero)
            else Some (of_size (Size.n_elem data))) ;;
  combined UseWeights responses weights buckets total zero.

(** Modelled from the spec: [AllCategoricalSplit<FitnessFunction>::
    SplitIfBetter<UseWeights>] of all_categorical_split.hpp, which is not
    among the sources (only its tests are).  The result pairs the returned
    gain with the contents of [outSplitInfo] after the call. *)
Definition SplitIfBetter (UseWeights : bool) (bestGain : T) (data : list N)
    (numCategories : N) (responses weights : list T)
    (minimumLeafSize : N) (minimumGainSplit : T) (outSplitInfo : list T)
  : option (T * list T) :=
  let buckets := map (members data) (map N.of_nat (seq 0 (N.to_nat numCategories))) in
  if existsb (fun idx => (N.of_nat (length idx) <? minimumLeafSize)%N) buckets
     || (Size.n_elem data <? minimumLeafSize * numCategories)%N
  then Some (dbl_max, outSplitInfo)
  else
    overallGain <- combined_gain UseWeights data numCategories responses weights ;;
    if bestGain + minimumGainSplit <? overallGain
    then Some (overallGain, [of_size numCategories])
    else Some (dbl_max, outSplitInfo).

End WithArith.
End AllCategoricalSplit.

(** ** Reference quantities in exact arithmetic

    The mean and the mean deviation of a sample, and their weighted
    counterparts on a list of (response, weight) pairs.  The deviation
    function [d] is the square for MSE and the absolute value for MAD. *)

Fixpoint Qsum (l : list Q) : Q :=
  match l with
  | [] => 0
  | x :: l' => x + Qsum l'
  end.

Definition len {X : Type} (l : list X) : Q := inject_Z (Z.of_nat (length l)).

Definition mean (xs : list Q) : Q := Qsum xs / len xs.

Definition sq (x : Q) : Q := x * x.

Definition dev_u (d : Q -> Q) (xs : list Q) : Q :=
  Qsum (map (fun p => d (p - mean xs)) xs) / len xs.

Definition wsum (pws : list (Q * Q)) : Q := Qsum (map snd pws).

Definition wmean (pws : list (Q * Q)) : Q :=
  Qsum (map (fun pw => fst pw * snd pw) pws) / wsum pws.

Definition dev_w (d : Q -> Q) (pws : list (Q * Q)) : Q :=
  Qsum (map (fun pw => snd pw * d (fst pw - wmean pws)) pws) / wsum pws.

(** Every element of [xs] equals every other. *)
Definition all_same (xs : list Q) : Prop :=
  forall x y, In x xs -> In y xs -> x == y.

(** The sum of the weights over a range, accumulated as the weight loop of
    [Evaluate] does. *)
Definition weight_sum {T : Type} {A : Arith T} (weights : list T) (start end_ : N)
  : option T :=
  for_loop start end_ (fun i acc => w <- at_ weights i ;; Some (add acc w)) zero.

(** Every position of the range [start .. end_] is a position of [v]. *)
Definition in_bounds {T : Type} (v : list T) (start end_ : N) : Prop :=
  forall i, (start <= i <= end_)%N -> (i < Size.n_elem v)%N.

(** What the proofs need of a deviation function. *)
Record deviation (d : Q -> Q) : Prop := {
  dev_proper : forall x y, x == y -> d x == d y;
  dev_nonneg : forall x, 0 <= d x;
  dev_zero : d 0 == 0;
  dev_pos : forall x, ~ x == 0 -> 0 < d x
}.

(** The call [r] returns a gain, and the gain satisfies [P]. *)
Definition returns {T : Type} (r : option T) (P : T -> Prop) : Prop :=
  exists g, r = Some g /\ P g.

(** The (response, weight) pairs of a range. *)
Definition weighted_slice (predictors weights : list Q) (start end_ : N) : list (Q * Q) :=
  combine (slice predictors start end_) (slice weights start end_).

(** Two samples of positive weight have different responses. *)
Definition impure (pws : list (Q * Q)) : Prop :=
  exists p1 w1 p2 w2,
    In (p1, w1) pws /\ In (p2, w2) pws /\ 0 < w1 /\ 0 < w2 /\ ~ p1 == p2.

(** [Ev] computes, in exact arithmetic, the negated mean [d]-deviation. *)
Record is_gain (Ev : bool -> list Q -> list Q -> N -> N -> option Q) (d : Q -> Q)
  : Prop := {
  gain_deviation : deviation d;
  gain_unweighted : forall ps ws start end_,
    (start <= end_)%N -> (end_ < Size.n_elem ps)%N -> Size.fits ps ->
    returns (Ev false ps ws start end_)
            (fun g => g == - dev_u d (slice ps start end_));
  gain_weighted : forall ps ws start end_,
    (end_ < Size.n_elem ps)%N -> (end_ < Size.n_elem ws)%N ->
    returns (Ev true ps ws start end_)
            (fun g => (wsum (weighted_slice ps ws start end_) == 0 -> g == 0) /\
                      (~ wsum (weighted_slice ps ws start end_) == 0 ->
                       g == - dev_w d (weighted_slice ps ws start end_)))
}.

(** No weight of the list is negative. *)
Definition nonneg_weights (pws : list (Q * Q)) : Prop :=
  Forall (fun pw => 0 <= snd pw) pws.

(** ** Inputs of the test suite *)

(** [MSEGainWithWeight], [MADGainWithWeight]: five responses 0.0 of weight
    0.3 and five responses 1.0 of weight 0.7.  The weights are the doubles
    nearest to 0.3 and 0.7. *)
Definition responses10 {T : Type} {A : Arith T} : list T := repeat zero 5 ++ repeat one 5.

Definition weights10_f64 : list float :=
  repeat 0x1.3333333333333p-2%float 5 ++ repeat 0x1.6666666666666p-1%float 5.

Definition weights10_Q : list Q := repeat (3 # 10) 5 ++ repeat (7 # 10) 5.

(** [MSEGainEvenSplit], [MADGainEvenSplit]: [100 * c] responses alternating
    between [c] and [c + 2], with unit weights, for [c = 2, 4, .., 28]. *)
Definition even_split_responses {T : Type} {A : Arith T} (c : N) : list T :=
  flat_map (fun _ => [of_size c; add (of_size c) two]) (seq 0 (50 * N.to_nat c)).

Definition unit_weights {T : Type} {A : Arith T} (n : nat) : list T := repeat one n.

Definition even_split_sizes : list N := [2; 4; 6; 8; 10; 12; 14; 16; 18; 20; 22; 24; 26; 28]%N.

(** The tolerance of the test suite. *)
Definition tol : Q := 1 # 10000000.

(** The sizes of the two children of the partition of a feature by the
    threshold [t]: values at most [t] go left, the others right. *)
Definition count_le (t : Q) (data : list Q) : nat :=
  length (filter (fun x => Qle_bool x t) data).

Definition count_gt (t : Q) (data : list Q) : nat :=
  length (filter (fun x => negb (Qle_bool x t)) data).

(** [BestBinaryNumericSplitSimpleSplitTest], [BestBinaryNumericSplitMinSamplesTest]:
    eleven feature values 0.0, 0.1, .., 1.0 (the nearest doubles) with five
    responses 0 and six responses 1. *)
Definition values11_f64 : list float :=
  [0x0p+0; 0x1.999999999999ap-4; 0x1.999999999999ap-3; 0x1.3333333333333p-2;
   0x1.999999999999ap-2; 0x1p-1; 0x1.3333333333333p-1; 0x1.6666666666666p-1;
   0x1.999999999999ap-1; 0x1.ccccccccccccdp-1; 0x1p+0]%float.

Definition responses11 {T : Type} {A : Arith T} : list T := repeat zero 5 ++ repeat one 6.

(** [AllCategoricalSplitSimpleSplitTest]: four categories of three samples,
    each with a single response value. *)
Definition categories12 : list N := [0; 0; 0; 1; 1; 1; 2; 2; 2; 3; 3; 3]%N.

Definition responses12 {T : Type} {A : Arith T} : list T :=
  map of_size [10; 10; 10; 20; 20; 20; 10; 10; 10; 20; 20; 20]%N.

(** The [minimumGainSplit] of the tests, [1e-7] (the nearest double). *)
Definition min_gain_f64 : float := 0x1.ad7f29abcaf48p-24%float.

(** The order of the index sort: by feature value. *)
Definition by_value (a b : N * Q) : Prop := snd a <= snd b.

(** ** Relating two calls *)

(** Both calls return a gain, and the two gains are related by [R]. *)
Definition gain_rel (R : Q -> Q -> Prop) (r r' : option Q) : Prop :=
  exists g g', r = Some g /\ r' = Some g' /\ R g g'.

(** The responses moved by [c], scaled by [c], and the weights scaled by
    [c]. *)
Definition shifted (c : Q) (v : list Q) : list Q := map (Qplus c) v.

Definition scaled (c : Q) (v : list Q) : list Q := map (Qmult c) v.

(** The number of elements of the range [start .. end_], as a rational. *)
Definition range_len (start end_ : N) : Q := inject_Z (Z.of_N (N.succ end_ - start)).

(** The sum of the squared distances of the responses to [c], and its
    weighted counterpart. *)
Definition SS (c : Q) (xs : list Q) : Q := Qsum (map (fun x => sq (x - c)) xs).

Definition WSS (c : Q) (pws : list (Q * Q)) : Q :=
  Qsum (map (fun pw => snd pw * sq (fst pw - c)) pws).

(** The sample in which the response [p] of each pair [(p, k)] occurs [k]
    times, and the weights that stand for the counts. *)
Definition replicated (responses : list Q) (counts : list nat) : list Q :=
  concat (map (fun pk => repeat (fst pk) (snd pk)) (combine responses counts)).

Definition count_weights (counts : list nat) : list Q :=
  map (fun k => inject_Z (Z.of_nat k)) counts.

(** ** Signs in binary64 *)

(** The sign bit of [x] is clear, or [x] is not a number. *)
Definition sf_clear (x : spec_float) : bool :=
  match x with
  | S754_nan => true
  | S754_zero s | S754_infinity s | S754_finite s _ _ => negb s
  end.

Definition sign_clear (x : float) : bool := sf_clear (Prim2SF x).

(** ** core/tree/spill_tree/space_split_impl.hpp *)

(** The index sequence of [for (size_t i = first; i < n; i++)]. *)
Definition from_to (first n : N) : list N :=
  map N.of_nat (seq (N.to_nat first) (N.to_nat n - N.to_nat first)).

(** [x <= y] on doubles: less or equal, false when either is not a number. *)
Definition leb {T : Type} {A : Arith T} (x y : T) : bool := ltb x y || eqb x y.

(** A matrix, as the functions below use it: its row count and its
    columns. *)
Record Mat (Col : Type) : Type := { n_rows : N; cols : list Col }.

(** [data.col(j)] *)
Definition col {Col : Type} (data : Mat Col) (j : N) : option Col := at_ (cols data) j.

Module SpaceSplit.
Section WithArith.
Context {T : Type} {A : Arith T}.

(** [math::Range] (core/math/range.hpp), its [Width()] and [Mid()], the
    columns of the matrix and [MetricType::Evaluate] are declared outside
    the sources: they are parameters here.  So are the three vector
    operations of the last lines of the second [GetProjVector]:
    [direction a b] is [ProjVector(arma::normalise(a - b))], [midpoint a b]
    is [(a + b) / 2] and [Project] is [ProjVector::Project]. *)
Context {Range Col ProjVector : Type}.
Variables (Width Mid : Range -> T).
Variable metric : Col -> Col -> T.
Variable direction : Col -> Col -> ProjVector.
Variable midpoint : Col -> Col -> Col.
Variable Project : ProjVector -> Col -> T.
Local Open Scope arith_scope.

(** [GetProjVector] for an [HRectBound] and an [AxisParallelProjVector]: the
    outcome is [None] for [false] and the pair of the split dimension (the
    argument of [AxisParallelProjVector]) and [midValue] for [true]. *)
Definition GetProjVectorAxis (bound : list Range) (data : Mat Col) (points : list N)
  : option (option (N * T)) :=
  ' (maxWidth, splitDim) <-
    for_each (from_to 0 (n_rows data))
      (fun d '(maxWidth, splitDim) =>
         r <- at_ bound d ;;
         let width := Width r in
         if maxWidth <? width then Some (width, d) else Some (maxWidth, splitDim))
      (- one, n_rows data) ;;
  if leb maxWidth zero then Some None
  else
    r <- at_ bound splitDim ;;
    Some (Some (splitDim, Mid r)).

(** One of the two search loops of the second [GetProjVector]: the point
    farthest from [fst] among those at the positions [idx], if it beats
    [max]. *)
Definition farthest_from (data : Mat Col) (points : list N) (fst : N) (idx : list N)
    (state : T * N) : option (T * N) :=
  for_each idx
    (fun i '(max, snd) =>
       p <- at_ points i ;;
       a <- col data fst ;;
       b <- col data p ;;
       let dist := metric a b in
       if max <? dist then Some (dist, p) else Some (max, snd))
    state.

(** The estimate of the farthest pair of points that opens the second
    [GetProjVector], up to the test of [max]; [rnd] is what [rand()]
    returned.  The result is [(fst, snd, max)] after the second loop. *)
Definition farthest_pair (rnd : N) (data : Mat Col) (points : list N)
  : option (N * N * T) :=
  let size := Size.n_elem points in
  if (size =? 0)%N then None
  else
    fst <- at_ points (rnd mod size)%N ;;
    snd <- at_ points 0 ;;
    a <- col data fst ;;
    b <- col data snd ;;
    let max := metric a b in
    ' (max, snd) <- farthest_from data points fst (from_to 1 size) (max, snd) ;;
    let '(fst, snd) := (snd, fst) in
    ' (max, snd) <- farthest_from data points fst (from_to 0 size) (max, snd) ;;
    Some (fst, snd, max).

(** [GetProjVector] for any other bound and a [ProjVector]: the outcome is
    [None] for [false] and the pair of [projVector] and [midValue] for
    [true]. *)
Definition GetProjVector (rnd : N) (data : Mat Col) (points : list N)
  : option (option (ProjVector * T)) :=
  ' (fst, snd, max) <- farthest_pair rnd data points ;;
  if max ==? zero then Some None
  else
    a <- col data snd ;;
    b <- col data fst ;;
    let projVector := direction a b in
    Some (Some (projVector, Project projVector (midpoint a b))).

End WithArith.
End SpaceSplit.

Module MeanSpaceSplit.
Section WithArith.
Context {T : Type} {A : Arith T} {Col : Type}.
Local Open Scope arith_scope.

(** [MeanSpaceSplit::SplitSpace]: [GetProjVector] is the overload of
    [SpaceSplit::GetProjVector] that the hyperplane type selects and
    [Project] is the [Project] of its projection vector; the outcome is
    [None] for [false] and the arguments of
    [HyperplaneType(projVector, splitVal)] for [true]. *)
Definition SplitSpace {Bound PV : Type}
    (GetProjVector : Bound -> Mat Col -> list N -> option (option (PV * T)))
    (Project : PV -> Col -> T)
    (bound : Bound) (data : Mat Col) (points : list N)
  : option (option (PV * T)) :=
  r <- GetProjVector bound data points ;;
  match r with
  | None => Some None
  | Some (projVector, midValue) =>
      splitVal <-
        for_each (from_to 0 (Size.n_elem points))
          (fun i splitVal =>
             p <- at_ points i ;;
             c <- col data p ;;
             Some (splitVal + Project projVector c))
          zero ;;
      let splitVal := splitVal / of_size (Size.n_elem points) in
      Some (Some (projVector, splitVal))
  end.

End WithArith.
End MeanSpaceSplit.

Module MidpointSpaceSplit.
Section WithArith.
Context {T : Type} {A : Arith T} {Col : Type}.

(** [MidpointSpaceSplit::SplitSpace]: the hyperplane is built from what
    [GetProjVector] found. *)
Definition SplitSpace {Bound PV : Type}
    (GetProjVector : Bound -> Mat Col -> list N -> option (option (PV * T)))
    (bound : Bound) (data : Mat Col) (points : list N)
  : option (option (PV * T)) :=
  r <- GetProjVector bound data points ;;
  match r with
  | None => Some None
  | Some (projVector, midValue) => Some (Some (projVector, midValue))
  end.

End WithArith.
End MidpointSpaceSplit.


(** Points on a line, for the split functions: the distance, the normalised
    direction, the midpoint and the projection of one-dimensional columns. *)
Definition line_metric (a b : Q) : Q := Qabs (a - b).
Definition line_direction (a b : Q) : Q := (a - b) / Qabs (a - b).
Definition line_midpoint (a b : Q) : Q := (a + b) / 2.
Definition line_project (v c : Q) : Q := v * c.
Definition line_data : Mat Q := {| n_rows := 1; cols := [1; 5; 2; 9; 4] |}.
Definition line_points : list N := [0; 1; 2; 3; 4]%N.
Definition line_GetProjVector (bound : unit) (data : Mat Q) (points : list N)
  : option (option (Q * Q)) :=
  SpaceSplit.GetProjVector (A := exactQ) line_metric line_direction line_midpoint
    line_project 2 data points.

(** ** core/cereal/pointer_variant_wrapper.hpp *)

Module PointerVariant.
Section WithPointer.

(** What [CEREAL_POINTER] (pointer_wrapper.hpp) saves for a raw pointer and
    hands back on loading; the wrapper and the archive are declared outside
    the sources.  An archive is the sequence of the items passed to it: a
    save appends one, a load takes the first. *)
Variable Ptr : Type.

Inductive item : Type :=
  | IInt (z : Z)
  | IPointer (p : Ptr).

Definition archive : Type := list item.

(** One of the [VariantTypes]: a pointer type or a nested [boost::variant]. *)
#[warnings="-register-all"] Inductive alt : Type :=
  | PointerAlt
  | VariantAlt (alts : list alt).

(** A [boost::variant]: the index [which()] of the alternative it holds and
    the value of that alternative. *)
Inductive variant : Type :=
  | HoldsPointer (which : Z) (p : Ptr)
  | HoldsVariant (which : Z) (v : variant).

Inductive outcome : Type :=
  | Loaded (v : variant) (ar : archive)
  | Throws            (* std::runtime_error *)
  | Undefined         (* loadFuncArray indexed below 0 *)
  | ArchiveError.     (* the archive holds no such item next *)

(** [PointerVariantWrapper::save]: [which], then the visitor on the value
    held; [save_visitor] passes a pointer to [CEREAL_POINTER] and wraps a
    nested variant again. *)
Fixpoint save (pointerVariant : variant) (ar : archive) : archive :=
  match pointerVariant with
  | HoldsPointer which value =>
      let ar := ar ++ [IInt which] in
      ar ++ [IPointer value]
  | HoldsVariant which value =>
      let ar := ar ++ [IInt which] in
      save value ar
  end.

Definition load_int (ar : archive) : option (Z * archive) :=
  match ar with
  | IInt z :: ar' => Some (z, ar')
  | _ => None
  end.

Definition load_pointer (ar : archive) : option (Ptr * archive) :=
  match ar with
  | IPointer p :: ar' => Some (p, ar')
  | _ => None
  end.

(** The body of [PointerVariantWrapper::load] over its array of load
    functions.  A load function gets the index of its type among the
    [VariantTypes]: the assignment [variant = loadVariant] makes the variant
    hold that alternative. *)
Definition load_with (loadFuncArray : list (Z -> archive -> outcome)) (ar : archive)
  : outcome :=
  match load_int ar with
  | None => ArchiveError
  | Some (which, ar) =>
      if (Z.of_nat (length loadFuncArray) <=? which)%Z then Throws
      else if (which <? 0)%Z then Undefined
      else
        match nth_error loadFuncArray (Z.to_nat which) with
        | Some loadFunc => loadFunc which ar
        | None => Undefined
        end
  end.

(** [load_visitor<T>::load]: [load_impl] for a pointer type [T] and for a
    nested variant. *)
Fixpoint load_visitor (T : alt) (index : Z) (ar : archive) : outcome :=
  match T with
  | PointerAlt =>
      match load_pointer ar with
      | Some (loadVariant, ar) => Loaded (HoldsPointer index loadVariant) ar
      | None => ArchiveError
      end
  | VariantAlt alts =>
      match load_with (map load_visitor alts) ar with
      | Loaded loadVariant ar => Loaded (HoldsVariant index loadVariant) ar
      | failed => failed
      end
  end.

(** [PointerVariantWrapper<VariantTypes...>::load] *)
Definition load (VariantTypes : list alt) (ar : archive) : outcome :=
  load_with (map load_visitor VariantTypes) ar.

(** [pointerVariant] is a value of [boost::variant<VariantTypes...>]. *)
Fixpoint well_typed (pointerVariant : variant) (VariantTypes : list alt) : bool :=
  match pointerVariant with
  | HoldsPointer which _ =>
      (0 <=? which)%Z &&
      match nth_error VariantTypes (Z.to_nat which) with
      | Some PointerAlt => true
      | _ => false
      end
  | HoldsVariant which value =>
      (0 <=? which)%Z &&
      match nth_error VariantTypes (Z.to_nat which) with
      | Some (VariantAlt alts) => well_typed value alts
      | _ => false
      end
  end.

End WithPointer.
End PointerVariant.

(** ** The doubles that are integers

    What the proofs about binary64 need of the IEEE-754 specification: the
    number of binary digits of a mantissa, and the double that equals a
    given integer. *)

Definition dg (p : positive) : Z := Zpos (digits2_pos p).

Definition bounded64 : positive -> Z -> bool := bounded prec emax.

(** The mantissa of the double that equals the integer [p], [p < 2 ^ 53]. *)
Definition int_mantissa (p : positive) : positive :=
  Z.to_pos (Zpos p * 2 ^ (53 - dg p))%Z.

(** The double that equals the integer [a], [|a| < 2 ^ 53], as the
    specification writes it. *)
Definition SF_of_Z (a : Z) : spec_float :=
  match a with
  | Z0 => S754_zero false
  | Zpos p => S754_finite false (int_mantissa p) (dg p - 53)%Z
  | Zneg p => S754_finite true (int_mantissa p) (dg p - 53)%Z
  end.

(** The double that equals the integer [a]: [(double) a]. *)
Definition f64_of_Z (a : Z) : float :=
  if (a <? 0)%Z then PrimFloat.opp (PrimFloat.of_uint63 (Uint63.of_Z (- a)%Z))
  else PrimFloat.of_uint63 (Uint63.of_Z a).






(** ** Loops as folds *)

Section Loops.
Context {T : Type}.

Lemma for_each_ext {S : Type} (idx : list N) (b1 b2 : N -> S -> option S) (s : S) :
  (forall i s', b1 i s' = b2 i s') -> for_each idx b1 s = for_each idx b2 s.
Proof.
  intros Hb. revert s.
  induction idx as [|i idx IH]; intros s; simpl; [reflexivity|].
  rewrite Hb. destruct (b2 i s); simpl; auto.
Qed.

Lemma reads_seq (v : list T) (k s : nat) :
  (s + k <= length v)%nat ->
  reads v (map N.of_nat (seq s k)) (firstn k (skipn s v)).
Proof.
  revert s. induction k as [|k IH]; intros s Hle; simpl.
  - constructor.
  - destruct (nth_error v s) as [x|] eqn:Hx.
    2:{ apply nth_error_None in Hx. lia. }
    assert (Hsk : skipn s v = x :: skipn (S s) v).
    { clear -Hx. revert v Hx. induction s as [|s IHs]; intros [|y v] Hx;
        simpl in *; try discriminate.
      - now inversion Hx.
      - apply IHs in Hx. exact Hx. }
    rewrite Hsk. simpl. constructor.
    + unfold at_. now rewrite Nat2N.id.
    + apply IH. lia.
Qed.

Lemma reads_slice (v : list T) (start end_ : N) :
  (end_ < Size.n_elem v)%N -> reads v (indices start end_) (slice v start end_).
Proof.
  intros Hlt. unfold indices, slice.
  destruct (N.to_nat (N.succ end_ - start)) as [|k] eqn:Hk.
  - constructor.
  - apply reads_seq. unfold Size.n_elem in Hlt. lia.
Qed.

Lemma slice_length (v : list T) (start end_ : N) :
  (end_ < Size.n_elem v)%N ->
  length (slice v start end_) = N.to_nat (N.succ end_ - start).
Proof.
  intros Hlt. unfold slice. rewrite length_firstn, length_skipn.
  unfold Size.n_elem in Hlt. lia.
Qed.

Lemma slice_all (v : list T) :
  v <> [] -> slice v 0 (Size.n_elem v - 1) = v.
Proof.
  intros Hne. unfold slice, Size.n_elem. simpl skipn.
  destruct v as [|x v]; [congruence|].
  set (n := length (x :: v)).
  replace (N.to_nat (N.succ (N.of_nat n - 1) - 0)) with n.
  - apply firstn_all.
  - assert (0 < n)%nat by (subst n; simpl; lia). lia.
Qed.


(** A loop that reads one vector. *)
Lemma for_each_reads {S : Type} (v : list T) idx xs (f : S -> T -> S) (s : S) :
  reads v idx xs ->
  for_each idx (fun i s' => p <- at_ v i ;; Some (f s' p)) s = Some (fold_left f xs s).
Proof.
  intros H. revert s. induction H as [|i x idx xs Hx _ IH]; intros s; simpl.
  - reflexivity.
  - rewrite Hx. simpl. apply IH.
Qed.

(** A loop that reads the weights and then the predictors. *)
Lemma for_each_reads2 {S : Type} (ws ps : list T) idx wl pl (f : S -> T * T -> S) (s : S) :
  reads ws idx wl -> reads ps idx pl ->
  for_each idx (fun i s' => w <- at_ ws i ;; p <- at_ ps i ;; Some (f s' (p, w))) s
  = Some (fold_left f (combine pl wl) s).
Proof.
  intros Hw. revert pl s.
  induction Hw as [|i w idx wl Hw _ IH]; intros pl s Hp; inversion Hp; subst; simpl.
  - reflexivity.
  - rewrite Hw. simpl. match goal with H : at_ ps i = Some _ |- _ => rewrite H end.
    simpl. apply IH. assumption.
Qed.

End Loops.

(** On a range inside the vectors the loops of either gain are folds over
    the slice, in every arithmetic.  [term p mean] is the summand of the
    second loop. *)
Lemma unweighted_as_fold {T : Type} {A : Arith T} (term : T -> T -> T)
    (ps : list T) (start end_ : N) :
  (end_ < Size.n_elem ps)%N ->
  (mean <- for_loop start end_ (fun i mean => p <- at_ ps i ;; Some (add mean p)) zero ;;
   let mean := div mean (of_size (Size.add (Size.sub end_ start) 1)) in
   acc <- for_loop start end_
     (fun i acc => p <- at_ ps i ;;
        Some (add acc (div (term p mean) (of_size (Size.add (Size.sub end_ start) 1)))))
     zero ;;
   Some (opp acc))
  = (let n := of_size (Size.add (Size.sub end_ start) 1) in
     let mean := div (fold_left add (slice ps start end_) zero) n in
     Some (opp (fold_left (fun acc p => add acc (div (term p mean) n))
                  (slice ps start end_) zero))).
Proof.
  intros Hlt. unfold for_loop. pose proof (reads_slice start Hlt) as Hr.
  rewrite (for_each_reads add zero Hr). cbn [bind]. cbv zeta.
  set (n := of_size _). set (m := div _ n).
  rewrite (for_each_reads (fun acc p => add acc (div (term p m) n)) zero Hr).
  reflexivity.
Qed.

Lemma weighted_as_fold {T : Type} {A : Arith T} (term : T -> T -> T)
    (ps ws : list T) (start end_ : N) :
  (end_ < Size.n_elem ps)%N -> (end_ < Size.n_elem ws)%N ->
  (' (accWeights, weightedMean) <-
     for_loop start end_
       (fun i '(accWeights, weightedMean) =>
          w <- at_ ws i ;; p <- at_ ps i ;;
          Some (add accWeights w, add weightedMean (mul p w))) (zero, zero) ;;
   if eqb accWeights zero then Some zero
   else
     let weightedMean := div weightedMean accWeights in
     acc <- for_loop start end_
       (fun i acc => w <- at_ ws i ;; p <- at_ ps i ;;
          Some (add acc (div (mul w (term p weightedMean)) accWeights))) zero ;;
     Some (opp acc))
  = (let pws := combine (slice ps start end_) (slice ws start end_) in
     let '(accWeights, weightedMean) :=
       fold_left (fun (s : T * T) (pw : T * T) =>
                    let '(aw, wm) := s in (add aw (snd pw), add wm (mul (fst pw) (snd pw))))
                 pws (zero, zero) in
     if eqb accWeights zero then Some zero
     else
       let weightedMean := div weightedMean accWeights in
       Some (opp (fold_left
                    (fun acc (pw : T * T) =>
                       add acc (div (mul (snd pw) (term (fst pw) weightedMean)) accWeights))
                    pws zero))).
Proof.
  intros Hp Hw. unfold for_loop.
  pose proof (reads_slice start Hp) as Hrp. pose proof (reads_slice start Hw) as Hrw.
  set (f1 := fun (s : T * T) (pw : T * T) =>
               let '(aw, wm) := s in (add aw (snd pw), add wm (mul (fst pw) (snd pw)))).
  rewrite (for_each_ext (indices start end_)
             (b2 := fun i s' => w <- at_ ws i ;; p <- at_ ps i ;; Some (f1 s' (p, w)))).
  2:{ intros i [aw wm]. reflexivity. }
  rewrite (for_each_reads2 f1 (zero, zero) Hrw Hrp). cbn [bind]. cbv zeta.
  destruct (fold_left f1 _ (zero, zero)) as [W S].
  destruct (eqb W zero); [reflexivity|].
  set (f2 := fun acc (pw : T * T) =>
               add acc (div (mul (snd pw) (term (fst pw) (div S W))) W)).
  rewrite (for_each_ext (indices start end_)
             (b2 := fun i s' => w <- at_ ws i ;; p <- at_ ps i ;; Some (f2 s' (p, w)))).
  2:{ intros; reflexivity. }
  rewrite (for_each_reads2 f2 zero Hrw Hrp). reflexivity.
Qed.

(** The element count [end - start + 1] of a range inside a vector does not
    wrap around. *)
Lemma range_count {T : Type} (v : list T) (start end_ : N) :
  (start <= end_)%N -> (end_ < Size.n_elem v)%N -> Size.fits v ->
  Size.add (Size.sub end_ start) 1 = N.of_nat (length (slice v start end_)).
Proof.
  intros Hse Hlt Hfit. rewrite slice_length by assumption.
  unfold Size.fits in Hfit. unfold Size.add, Size.sub.
  assert (Hm : (0 < Size.modulus)%N) by (unfold Size.modulus; lia).
  rewrite (N.mod_small start) by lia.
  replace (end_ + Size.modulus - start)%N with (end_ - start + 1 * Size.modulus)%N by lia.
  rewrite N.Div0.mod_add. rewrite (N.mod_small (end_ - start)) by lia.
  rewrite N.mod_small by lia. lia.
Qed.

(** ** Sums of rationals *)

Lemma Qsum_map_ext {X : Type} (f g : X -> Q) (l : list X) :
  Forall (fun x => f x == g x) l -> Qsum (map f l) == Qsum (map g l).
Proof.
  induction 1 as [|x l Hx _ IH]; simpl; [reflexivity|].
  rewrite Hx, IH. reflexivity.
Qed.

Lemma Qsum_map_const {X : Type} (c : Q) (l : list X) :
  Qsum (map (fun _ => c) l) == len l * c.
Proof.
  unfold len. induction l as [|x l IH]; simpl length; simpl map; simpl Qsum.
  - ring.
  - rewrite IH, Nat2Z.inj_succ. unfold Z.succ. rewrite inject_Z_plus. ring.
Qed.

Lemma Qsum_map_mult_l {X : Type} (c : Q) (f : X -> Q) (l : list X) :
  Qsum (map (fun x => c * f x) l) == c * Qsum (map f l).
Proof.
  induction l as [|x l IH]; simpl; [ring|]. rewrite IH. ring.
Qed.

Lemma Qsum_map_nonneg {X : Type} (f : X -> Q) (l : list X) :
  Forall (fun x => 0 <= f x) l -> 0 <= Qsum (map f l).
Proof.
  induction 1 as [|x l Hx _ IH]; simpl; [apply Qle_refl|]. lra.
Qed.

Lemma Qsum_map_pos {X : Type} (f : X -> Q) (l : list X) (x : X) :
  Forall (fun x => 0 <= f x) l -> In x l -> 0 < f x -> 0 < Qsum (map f l).
Proof.
  intros Hall. induction Hall as [|y l Hy Hall IH]; simpl; intros Hin Hpos.
  - contradiction.
  - pose proof (Qsum_map_nonneg Hall) as Hs.
    destruct Hin as [->|Hin]; [lra|]. specialize (IH Hin Hpos). lra.
Qed.

Lemma Qsum_map_id (l : list Q) : Qsum (map (fun x => x) l) == Qsum l.
Proof. rewrite map_id. reflexivity. Qed.

Lemma Qsum_perm (l l' : list Q) : Permutation l l' -> Qsum l == Qsum l'.
Proof.
  induction 1; simpl; try reflexivity.
  - rewrite IHPermutation. reflexivity.
  - ring.
  - etransitivity; eauto.
Qed.

Lemma Qsum_app (l l' : list Q) : Qsum (l ++ l') == Qsum l + Qsum l'.
Proof. induction l as [|x l IH]; simpl; [ring|]. rewrite IH. ring. Qed.

Lemma Qsum_repeat (a : Q) (k : nat) : Qsum (repeat a k) == inject_Z (Z.of_nat k) * a.
Proof.
  induction k as [|k IH]; simpl repeat; simpl Qsum; [simpl; ring|].
  rewrite IH, Nat2Z.inj_succ. unfold Z.succ. rewrite inject_Z_plus. ring.
Qed.

Lemma fold_left_Qsum {X : Type} (f : X -> Q) (l : list X) (a : Q) :
  fold_left (fun s x => s + f x) l a == a + Qsum (map f l).
Proof.
  revert a. induction l as [|x l IH]; intros a; simpl; [ring|].
  rewrite IH. ring.
Qed.

Lemma fold_left_pair (l : list (Q * Q)) (a b : Q) :
  let r := fold_left (fun (s : Q * Q) (pw : Q * Q) =>
                        let '(aw, wm) := s in (aw + snd pw, wm + fst pw * snd pw)) l (a, b) in
  fst r == a + wsum l /\ snd r == b + Qsum (map (fun pw => fst pw * snd pw) l).
Proof.
  revert a b. unfold wsum.
  induction l as [|[p w] l IH]; intros a b; simpl.
  - split; ring.
  - destruct (IH (a + w) (b + p * w)) as [H1 H2]. simpl in H1, H2.
    rewrite H1, H2. split; ring.
Qed.

Lemma len_pos {X : Type} (l : list X) : l <> [] -> 0 < len l.
Proof.
  intros Hne. unfold len. destruct l as [|x l]; [congruence|].
  change 0 with (inject_Z 0). rewrite <- Zlt_Qlt. simpl length. lia.
Qed.


(** ** The deviation functions *)


Lemma sq_deviation : deviation sq.
Proof.
  unfold sq. split.
  - intros x y H. rewrite H. reflexivity.
  - intros x. nra.
  - ring.
  - intros x Hx. destruct (Qlt_le_dec x 0); [nra|].
    assert (0 < x) by (apply Qle_lteq in q; destruct q as [q|q]; [exact q|];
                       exfalso; apply Hx; symmetry; exact q).
    nra.
Qed.

Lemma Qabs_deviation : deviation Qabs.
Proof.
  split.
  - intros x y H. now rewrite H.
  - apply Qabs_nonneg.
  - reflexivity.
  - intros x Hx. pose proof (Qabs_nonneg x) as Hn.
    apply Qle_lteq in Hn. destruct Hn as [Hn|Hn]; [exact Hn|].
    exfalso. apply Hx. symmetry in Hn. pose proof (Qabs_Qle_condition x 0) as [Hc _].
    assert (Hle : Qabs x <= 0) by (rewrite Hn; apply Qle_refl).
    apply Hc in Hle. lra.
Qed.

(** ** The loops of [Evaluate], in exact arithmetic *)

Lemma dev_u_ext (d d' : Q -> Q) (xs : list Q) :
  (forall x, d x == d' x) -> dev_u d xs == dev_u d' xs.
Proof.
  intros H. unfold dev_u. apply Qdiv_comp; [|reflexivity].
  apply Qsum_map_ext. apply Forall_forall. intros x _. apply H.
Qed.

Lemma unweighted_fold (d : Q -> Q) (xs : list Q) :
  (forall x y, x == y -> d x == d y) ->
  let m := fold_left (fun s p => s + p) xs 0 / len xs in
  fold_left (fun s p => s + d (p - m) / len xs) xs 0 == dev_u d xs.
Proof.
  intros Hd m.
  rewrite (fold_left_Qsum (fun p => d (p - m) / len xs)).
  assert (Hm : m == mean xs).
  { unfold m, mean. rewrite (fold_left_Qsum (fun p => p)), Qsum_map_id.
    apply Qdiv_comp; [ring|reflexivity]. }
  unfold dev_u.
  transitivity (Qsum (map (fun p => / len xs * d (p - mean xs)) xs)).
  - rewrite Qplus_0_l. apply Qsum_map_ext, Forall_forall. intros x _.
    rewrite (Hd (x - m) (x - mean xs)) by (rewrite Hm; reflexivity).
    unfold Qdiv. ring.
  - rewrite Qsum_map_mult_l. unfold Qdiv. ring.
Qed.

Lemma weighted_fold (d : Q -> Q) (pws : list (Q * Q)) (W S : Q) :
  (forall x y, x == y -> d x == d y) ->
  W == wsum pws -> S == Qsum (map (fun pw => fst pw * snd pw) pws) ->
  fold_left (fun s (pw : Q * Q) => s + snd pw * d (fst pw - S / W) / W) pws 0
  == dev_w d pws.
Proof.
  intros Hd HW HS.
  rewrite (fold_left_Qsum (fun pw => snd pw * d (fst pw - S / W) / W)).
  assert (Hm : S / W == wmean pws) by (unfold wmean; now rewrite HW, HS).
  unfold dev_w.
  transitivity (Qsum (map (fun pw => / wsum pws * (snd pw * d (fst pw - wmean pws))) pws)).
  - rewrite Qplus_0_l. apply Qsum_map_ext, Forall_forall. intros [p w] _. simpl.
    rewrite (Hd (p - S / W) (p - wmean pws)) by (rewrite Hm; reflexivity).
    unfold Qdiv. rewrite HW. ring.
  - rewrite Qsum_map_mult_l. unfold Qdiv. ring.
Qed.

Lemma of_size_len {X : Type} (l : list X) :
  inject_Z (Z.of_N (N.of_nat (length l))) = len l.
Proof. unfold len. now rewrite nat_N_Z. Qed.

(** The unweighted branch of either gain, with summand [d (p - mean)]. *)
Lemma unweighted_loops (d : Q -> Q) (ps : list Q) (start end_ : N) :
  (forall x y, x == y -> d x == d y) ->
  (start <= end_)%N -> (end_ < Size.n_elem ps)%N -> Size.fits ps ->
  exists g,
    (mean <- for_loop start end_ (fun i mean => p <- at_ ps i ;; Some (mean + p)) 0 ;;
     let mean := mean / of_size (Size.add (Size.sub end_ start) 1) in
     acc <- for_loop start end_
       (fun i acc => p <- at_ ps i ;;
          Some (acc + d (p - mean) / of_size (Size.add (Size.sub end_ start) 1))) 0 ;;
     Some (- acc)) = Some g
    /\ g == - dev_u d (slice ps start end_).
Proof.
  intros Hd Hse Hlt Hfit. eexists. split.
  - exact (unweighted_as_fold (A := exactQ) (fun p m => d (p - m)) start Hlt).
  - cbn [add div opp zero of_size exactQ].
    rewrite (range_count Hse Hlt Hfit), of_size_len.
    rewrite (unweighted_fold (d := d)) by assumption. reflexivity.
Qed.

(** The weighted branch of either gain, with summand [w * d (p - mean)]. *)
Lemma weighted_loops (d : Q -> Q) (ps ws : list Q) (start end_ : N) :
  (forall x y, x == y -> d x == d y) ->
  (end_ < Size.n_elem ps)%N -> (end_ < Size.n_elem ws)%N ->
  let pws := combine (slice ps start end_) (slice ws start end_) in
  exists g,
    (' (accWeights, weightedMean) <-
       for_loop start end_
         (fun i '(accWeights, weightedMean) =>
            w <- at_ ws i ;; p <- at_ ps i ;;
            Some (accWeights + w, weightedMean + p * w)) (0, 0) ;;
     if Qeq_bool accWeights 0 then Some 0
     else
       let weightedMean := weightedMean / accWeights in
       acc <- for_loop start end_
         (fun i acc => w <- at_ ws i ;; p <- at_ ps i ;;
            Some (acc + w * d (p - weightedMean) / accWeights)) 0 ;;
       Some (- acc)) = Some g
    /\ (wsum pws == 0 -> g == 0)
    /\ (~ wsum pws == 0 -> g == - dev_w d pws).
Proof.
  intros Hd Hp Hw pws.
  pose proof (weighted_as_fold (A := exactQ) (fun p m => d (p - m)) start Hp Hw) as E.
  cbn [add mul div opp zero eqb exactQ] in E. cbv zeta in E. fold pws in E.
  destruct (fold_left_pair pws 0 0) as [HW HS]. cbv zeta in HW, HS.
  destruct (fold_left _ pws (0, 0)) as [W S]. simpl in HW, HS.
  rewrite Qplus_0_l in HW, HS.
  destruct (Qeq_bool W 0) eqn:HW0.
  - exists 0. split; [exact E|]. split.
    + reflexivity.
    + intros Hne. exfalso. apply Hne. apply Qeq_bool_iff in HW0. now rewrite <- HW.
  - eexists. split; [exact E|]. split.
    + intros H0. apply Qeq_bool_neq in HW0. exfalso. apply HW0. now rewrite HW.
    + intros _. rewrite (weighted_fold (d := d)) by assumption. reflexivity.
Qed.

(** ** Both gains are negated mean deviations *)

Lemma MSE_is_gain : is_gain MSEGain.Evaluate sq.
Proof.
  split.
  - exact sq_deviation.
  - intros ps ws start end_ Hse Hlt Hfit.
    destruct (unweighted_loops (d := fun x => 1 * (x * x)) (ps := ps)
                (start := start) (end_ := end_)) as [g [Hg Hv]]; try assumption.
    { intros x y H. now rewrite H. }
    exists g. split; [exact Hg|]. rewrite Hv.
    rewrite (dev_u_ext (d' := sq)); [reflexivity|]. intros x. unfold sq. ring.
  - intros ps ws start end_ Hp Hw.
    exact (weighted_loops (d := sq) start (dev_proper sq_deviation) Hp Hw).
Qed.

Lemma MAD_is_gain : is_gain MADGain.Evaluate Qabs.
Proof.
  split.
  - exact Qabs_deviation.
  - intros ps ws start end_ Hse Hlt Hfit.
    exact (unweighted_loops (dev_proper Qabs_deviation) Hse Hlt Hfit).
  - intros ps ws start end_ Hp Hw.
    exact (weighted_loops (d := Qabs) start (dev_proper Qabs_deviation) Hp Hw).
Qed.

(** ** The sign of the mean deviation *)

Section Deviation.
Variable d : Q -> Q.
Hypothesis Hd : deviation d.

Lemma len_nonzero {X : Type} (l : list X) : l <> [] -> ~ len l == 0.
Proof. intros H. pose proof (len_pos H). lra. Qed.

Lemma dev_u_nonneg (xs : list Q) : xs <> [] -> 0 <= dev_u d xs.
Proof.
  intros Hne. unfold dev_u. pose proof (len_pos Hne) as Hl.
  apply Qle_shift_div_l; [exact Hl|]. rewrite Qmult_0_l.
  apply Qsum_map_nonneg, Forall_forall. intros x _. apply (dev_nonneg Hd).
Qed.

Lemma mean_all_same (xs : list Q) (x : Q) :
  In x xs -> all_same xs -> mean xs == x.
Proof.
  intros Hin Hall. unfold mean.
  assert (Hne : xs <> []) by (intros ->; contradiction).
  pose proof (len_nonzero Hne) as Hl.
  rewrite <- (Qsum_map_id xs).
  rewrite (Qsum_map_ext (g := fun _ => x)).
  - rewrite Qsum_map_const. field. exact Hl.
  - apply Forall_forall. intros y Hy. apply Hall; assumption.
Qed.

Lemma dev_u_all_same (xs : list Q) : xs <> [] -> all_same xs -> dev_u d xs == 0.
Proof.
  intros Hne Hall. unfold dev_u. pose proof (len_nonzero Hne) as Hl.
  rewrite (Qsum_map_ext (g := fun _ => 0)).
  - rewrite Qsum_map_const. field. exact Hl.
  - apply Forall_forall. intros x Hx.
    rewrite (dev_proper Hd (x := x - mean xs) (y := 0)); [apply (dev_zero Hd)|].
    rewrite (mean_all_same Hx Hall). ring.
Qed.

Lemma not_all_same_witness (xs : list Q) :
  ~ all_same xs -> exists x y, In x xs /\ In y xs /\ ~ x == y.
Proof.
  intros Hn.
  assert (Hdec : forall x, {Forall (fun y => x == y) xs} + {~ Forall (fun y => x == y) xs}).
  { intros x. apply Forall_dec. intros y. apply Qeq_dec. }
  destruct (Forall_dec _ Hdec xs) as [Hall|Hnall].
  - exfalso. apply Hn. intros x y Hx Hy.
    rewrite Forall_forall in Hall. specialize (Hall x Hx).
    rewrite Forall_forall in Hall. apply Hall. exact Hy.
  - apply neg_Forall_Exists_neg in Hnall; [|exact Hdec].
    apply Exists_exists in Hnall. destruct Hnall as [x [Hx Hnx]].
    apply neg_Forall_Exists_neg in Hnx; [|intros y; apply Qeq_dec].
    apply Exists_exists in Hnx. destruct Hnx as [y [Hy Hxy]].
    exists x, y. auto.
Qed.

Lemma dev_u_pos (xs : list Q) : ~ all_same xs -> 0 < dev_u d xs.
Proof.
  intros Hn. destruct (not_all_same_witness Hn) as [x [y [Hx [Hy Hxy]]]].
  assert (Hne : xs <> []) by (intros ->; contradiction).
  pose proof (len_pos Hne) as Hl.
  assert (Hz : exists z, In z xs /\ ~ z - mean xs == 0).
  { destruct (Qeq_dec x (mean xs)) as [Hxm|Hxm].
    - exists y. split; [exact Hy|]. intros Hc. apply Hxy. rewrite Hxm. lra.
    - exists x. split; [exact Hx|]. intros Hc. apply Hxm. lra. }
  destruct Hz as [z [Hz Hzm]].
  unfold dev_u. apply Qlt_shift_div_l; [exact Hl|]. rewrite Qmult_0_l.
  apply (Qsum_map_pos (f := fun p => d (p - mean xs)) (x := z)).
  - apply Forall_forall. intros p _. apply (dev_nonneg Hd).
  - exact Hz.
  - apply (dev_pos Hd). exact Hzm.
Qed.

(** *** Weighted *)

Lemma wsum_nonneg (pws : list (Q * Q)) : nonneg_weights pws -> 0 <= wsum pws.
Proof. intros H. unfold wsum. apply Qsum_map_nonneg. exact H. Qed.

Lemma dev_w_nonneg (pws : list (Q * Q)) :
  nonneg_weights pws -> ~ wsum pws == 0 -> 0 <= dev_w d pws.
Proof.
  intros Hw Hne. pose proof (wsum_nonneg Hw) as HW.
  assert (HWpos : 0 < wsum pws) by lra.
  unfold dev_w. apply Qle_shift_div_l; [exact HWpos|]. rewrite Qmult_0_l.
  apply Qsum_map_nonneg. unfold nonneg_weights in Hw.
  rewrite Forall_forall in *. intros pw Hin.
  apply Qmult_le_0_compat; [apply Hw; exact Hin|apply (dev_nonneg Hd)].
Qed.

Lemma wmean_all_same (pws : list (Q * Q)) (x : Q) :
  In x (map fst pws) -> all_same (map fst pws) -> ~ wsum pws == 0 -> wmean pws == x.
Proof.
  intros Hin Hall Hne. unfold wmean.
  rewrite (Qsum_map_ext (g := fun pw => x * snd pw)).
  - rewrite Qsum_map_mult_l. fold (wsum pws). field. exact Hne.
  - apply Forall_forall. intros [p w] Hpw. simpl.
    rewrite (Hall p x); [reflexivity| |exact Hin].
    apply in_map_iff. exists (p, w). auto.
Qed.

Lemma dev_w_all_same (pws : list (Q * Q)) :
  all_same (map fst pws) -> ~ wsum pws == 0 -> dev_w d pws == 0.
Proof.
  intros Hall Hne. unfold dev_w.
  rewrite (Qsum_map_ext (g := fun _ => 0)).
  - rewrite Qsum_map_const. field. exact Hne.
  - apply Forall_forall. intros [p w] Hpw. simpl.
    assert (Hp : In p (map fst pws)) by (apply in_map_iff; exists (p, w); auto).
    rewrite (dev_proper Hd (x := p - wmean pws) (y := 0)).
    + rewrite (dev_zero Hd). ring.
    + rewrite (wmean_all_same Hp Hall Hne). ring.
Qed.

Lemma wsum_pos (pws : list (Q * Q)) (p w : Q) :
  nonneg_weights pws -> In (p, w) pws -> 0 < w -> 0 < wsum pws.
Proof.
  intros Hw Hin Hpos. unfold wsum.
  apply (Qsum_map_pos (f := snd) (x := (p, w))); assumption.
Qed.

Lemma dev_w_pos (pws : list (Q * Q)) :
  nonneg_weights pws -> impure pws -> 0 < wsum pws /\ 0 < dev_w d pws.
Proof.
  intros Hw [p1 [w1 [p2 [w2 [H1 [H2 [Hw1 [Hw2 Hne]]]]]]]].
  pose proof (wsum_pos Hw H1 Hw1) as HW. split; [exact HW|].
  assert (Hz : exists p w, In (p, w) pws /\ 0 < w /\ ~ p - wmean pws == 0).
  { destruct (Qeq_dec p1 (wmean pws)) as [Hm|Hm].
    - exists p2, w2. repeat split; try assumption.
      intros Hc. apply Hne. rewrite Hm. lra.
    - exists p1, w1. repeat split; try assumption.
      intros Hc. apply Hm. lra. }
  destruct Hz as [p [w [Hin [Hwp Hpm]]]].
  unfold dev_w. apply Qlt_shift_div_l; [exact HW|]. rewrite Qmult_0_l.
  apply (Qsum_map_pos (f := fun pw => snd pw * d (fst pw - wmean pws)) (x := (p, w))).
  - unfold nonneg_weights in Hw. rewrite Forall_forall in *. intros pw Hpw.
    apply Qmult_le_0_compat; [apply Hw; exact Hpw|apply (dev_nonneg Hd)].
  - exact Hin.
  - simpl. pose proof (dev_pos Hd Hpm). nra.
Qed.

(** *** Constant weights *)

Lemma constant_weights (pws : list (Q * Q)) (c : Q) :
  pws <> [] -> ~ c == 0 -> Forall (fun pw => snd pw == c) pws ->
  ~ wsum pws == 0 /\ dev_w d pws == dev_u d (map fst pws).
Proof.
  intros Hne Hc Hall. pose proof (len_nonzero Hne) as Hl.
  assert (HW : wsum pws == len pws * c).
  { unfold wsum. rewrite (Qsum_map_ext (g := fun _ => c)) by exact Hall.
    apply Qsum_map_const. }
  assert (HW0 : ~ wsum pws == 0).
  { rewrite HW. intros H0. apply Qmult_integral in H0. tauto. }
  split; [exact HW0|].
  assert (Hlen : len (map fst pws) = len pws) by (unfold len; now rewrite length_map).
  assert (Hm : wmean pws == mean (map fst pws)).
  { unfold wmean, mean. rewrite Hlen, HW.
    rewrite (Qsum_map_ext (g := fun pw => c * fst pw)).
    - rewrite Qsum_map_mult_l. field. tauto.
    - eapply Forall_impl; [|exact Hall]. intros [p w] Hw. simpl in *. rewrite Hw. ring. }
  unfold dev_w, dev_u. rewrite Hlen, HW, map_map.
  rewrite (Qsum_map_ext (g := fun pw => c * d (fst pw - mean (map fst pws)))).
  - rewrite Qsum_map_mult_l. field. tauto.
  - eapply Forall_impl; [|exact Hall]. intros [p w] Hw. simpl in *.
    rewrite Hw. rewrite (dev_proper Hd (x := p - wmean pws) (y := p - mean (map fst pws))).
    + reflexivity.
    + rewrite Hm. reflexivity.
Qed.

(** *** A sample split evenly between two values two apart *)


End Deviation.

(** ** The overload on the whole vector *)

Lemma whole_range {T : Type} (v : list T) :
  v <> [] -> Size.fits v ->
  (Size.n_elem v =? 0)%N = false /\
  Size.sub (Size.n_elem v) 1 = (Size.n_elem v - 1)%N /\
  (0 <= Size.n_elem v - 1)%N /\ (Size.n_elem v - 1 < Size.n_elem v)%N.
Proof.
  intros Hne Hfit. unfold Size.fits in Hfit.
  assert (Hpos : (0 < Size.n_elem v)%N).
  { unfold Size.n_elem. destruct v; [congruence|]. simpl length. lia. }
  assert (Hm : (1 < Size.modulus)%N) by (unfold Size.modulus; reflexivity).
  repeat split; try lia.
  - apply N.eqb_neq. lia.
  - unfold Size.sub. rewrite (N.mod_small 1) by exact Hm.
    replace (Size.n_elem v + Size.modulus - 1)%N
      with (Size.n_elem v - 1 + 1 * Size.modulus)%N by lia.
    rewrite N.Div0.mod_add. apply N.mod_small. lia.
Qed.

Lemma MSE_EvaluateAll_nonempty {T : Type} {A : Arith T} (b : bool) (ps ws : list T) :
  ps <> [] -> Size.fits ps ->
  MSEGain.EvaluateAll b ps ws = MSEGain.Evaluate b ps ws 0 (Size.n_elem ps - 1).
Proof.
  intros Hne Hfit. destruct (whole_range Hne Hfit) as [H0 [Hs _]].
  unfold MSEGain.EvaluateAll. now rewrite H0, Hs.
Qed.

Lemma MAD_EvaluateAll_nonempty {T : Type} {A : Arith T} (b : bool) (ps ws : list T) :
  ps <> [] -> Size.fits ps ->
  MADGain.EvaluateAll b ps ws = MADGain.Evaluate b ps ws 0 (Size.n_elem ps - 1).
Proof.
  intros Hne Hfit. destruct (whole_range Hne Hfit) as [H0 [Hs _]].
  unfold MADGain.EvaluateAll. now rewrite H0, Hs.
Qed.

Lemma weighted_slice_all (ps ws : list Q) :
  ps <> [] -> length ws = length ps ->
  weighted_slice ps ws 0 (Size.n_elem ps - 1) = combine ps ws.
Proof.
  intros Hne Hlen. unfold weighted_slice.
  assert (Hn : Size.n_elem ps = Size.n_elem ws) by (unfold Size.n_elem; now rewrite Hlen).
  rewrite (slice_all Hne). rewrite Hn, slice_all; [reflexivity|].
  intros ->. destruct ps; [congruence|discriminate].
Qed.

Lemma map_fst_combine {X Y : Type} (l : list X) (l' : list Y) :
  length l' = length l -> map fst (combine l l') = l.
Proof.
  revert l'. induction l as [|x l IH]; intros [|y l'] H; simpl in *;
    try reflexivity; try discriminate.
  f_equal. apply IH. lia.
Qed.

Lemma combine_snd_Forall {X Y : Type} (P : Y -> Prop) (l : list X) (l' : list Y) :
  Forall P l' -> Forall (fun xy => P (snd xy)) (combine l l').
Proof.
  intros H. revert l. induction H as [|y l' Hy _ IH]; intros [|x l]; simpl;
    constructor; auto.
Qed.

(** The weighted and the unweighted gain of a whole vector under a constant
    non-zero weight, for any gain of the family. *)
Lemma constant_weights_whole Ev d (ps ws : list Q) (c : Q) :
  is_gain Ev d ->
  ps <> [] -> Size.fits ps -> length ws = length ps ->
  ~ c == 0 -> Forall (fun w => w == c) ws ->
  exists gw gu,
    Ev true ps ws 0%N (Size.n_elem ps - 1)%N = Some gw /\
    Ev false ps ws 0%N (Size.n_elem ps - 1)%N = Some gu /\
    gw == gu /\ gu == - dev_u d ps.
Proof.
  intros HG Hne Hfit Hlen Hc Hall.
  destruct (whole_range Hne Hfit) as [_ [_ [Hle Hlt]]].
  assert (Hlt' : (Size.n_elem ps - 1 < Size.n_elem ws)%N).
  { unfold Size.n_elem in *. rewrite Hlen. exact Hlt. }
  destruct (gain_unweighted HG ws Hle Hlt Hfit) as [gu [Hgu Hu]].
  destruct (gain_weighted HG 0%N Hlt Hlt') as [gw [Hgw [_ Hw]]].
  rewrite (weighted_slice_all Hne Hlen) in Hw.
  rewrite (slice_all Hne) in Hu.
  assert (Hpne : combine ps ws <> []).
  { destruct ps; [congruence|]. destruct ws; [discriminate|]. discriminate. }
  destruct (constant_weights (gain_deviation HG) Hpne Hc
              (combine_snd_Forall (P := fun w => w == c) ps Hall)) as [HW0 Heq].
  rewrite (map_fst_combine Hlen) in Heq.
  exists gw, gu. repeat split; try assumption.
  rewrite (Hw HW0), Heq, Hu. reflexivity.
Qed.


(** ** The claims about the gains *)

(** C2.  On the ten responses of [MSEGainWithWeight] (five 0.0 of weight 0.3,
    five 1.0 of weight 0.7) the weighted MSE gain is within [1e-7] of
    [-0.21] and the weighted MAD gain is within [1e-7] of [-0.42]: so the
    binary64 computation, and in exact arithmetic the two gains are exactly
    [-21/100] and [-42/100]. *)
Theorem gain_with_weight :
  f64_within tol (- (21 # 100))
    (MSEGain.EvaluateAll (A := binary64) true responses10 weights10_f64) = true /\
  f64_within tol (- (42 # 100))
    (MADGain.EvaluateAll (A := binary64) true responses10 weights10_f64) = true /\
  returns (MSEGain.EvaluateAll (A := exactQ) true responses10 weights10_Q)
          (fun g => g == - (21 # 100)) /\
  returns (MADGain.EvaluateAll (A := exactQ) true responses10 weights10_Q)
          (fun g => g == - (42 # 100)).
Proof.
  split; [vm_compute; reflexivity|].
  split; [vm_compute; reflexivity|].
  split; (eexists; split; [vm_compute; reflexivity|vm_compute; reflexivity]).
Qed.

(** C5.  On an empty response vector the whole-vector overload of either
    gain returns 0, weighted or not, whatever the weights argument holds;
    this is so in every arithmetic, binary64 included. *)
Theorem empty_gain (T : Type) (A : Arith T) (UseWeights : bool) (weights : list T) :
  MSEGain.EvaluateAll UseWeights [] weights = Some zero /\
  MADGain.EvaluateAll UseWeights [] weights = Some zero.
Proof.
  unfold MSEGain.EvaluateAll, MADGain.EvaluateAll, Size.n_elem.
  simpl length. change (N.of_nat 0 =? 0)%N with true. cbv iota.
  split; reflexivity.
Qed.

Lemma indices_range (start end_ i : N) :
  In i (indices start end_) -> (start <= i <= end_)%N.
Proof.
  unfold indices. intros Hin. apply in_map_iff in Hin.
  destruct Hin as [j [<- Hj]]. apply in_seq in Hj. lia.
Qed.

Lemma at_in_bounds {T : Type} (v : list T) (i : N) :
  (i < Size.n_elem v)%N -> exists x, at_ v i = Some x.
Proof.
  unfold Size.n_elem, at_. intros Hlt.
  destruct (nth_error v (N.to_nat i)) as [x|] eqn:Hx; [eauto|].
  apply nth_error_None in Hx. lia.
Qed.

(** The weight loop of [Evaluate] accumulates the weights as [weight_sum]
    does, whatever it accumulates beside them. *)
Lemma weight_loop_sum {T : Type} {A : Arith T} (ps ws : list T) (idx : list N) (a b s : T) :
  (forall i, In i idx -> exists p, at_ ps i = Some p) ->
  for_each idx (fun i acc => w <- at_ ws i ;; Some (add acc w)) a = Some s ->
  exists m,
    for_each idx
      (fun i '(accWeights, weightedMean) =>
         w <- at_ ws i ;; p <- at_ ps i ;;
         Some (add accWeights w, add weightedMean (mul p w))) (a, b)
    = Some (s, m).
Proof.
  revert a b. induction idx as [|i idx IH]; intros a b Hps Hsum; simpl in *.
  - inversion Hsum; subst. eauto.
  - destruct (at_ ws i) as [w|]; simpl in *; [|discriminate].
    destruct (Hps i (or_introl eq_refl)) as [p Hp]. rewrite Hp. simpl.
    apply IH; [|exact Hsum]. intros j Hj. apply Hps. now right.
Qed.

(** C6.  In the weighted variant, when the weights of the range sum to
    exactly zero (the sum taken in the order of the code, compared with
    [== 0.0]), either gain returns 0; this is so in every arithmetic,
    binary64 included, for every range whose reads of the responses are
    defined. *)
Theorem zero_weight_gain (T : Type) (A : Arith T) (predictors weights : list T)
    (start end_ : N) (s : T) :
  in_bounds predictors start end_ ->
  weight_sum weights start end_ = Some s -> eqb s zero = true ->
  MSEGain.Evaluate true predictors weights start end_ = Some zero /\
  MADGain.Evaluate true predictors weights start end_ = Some zero.
Proof.
  intros Hb Hsum Hz. unfold weight_sum, for_loop in Hsum.
  assert (Hps : forall i, In i (indices start end_) -> exists p, at_ predictors i = Some p).
  { intros i Hi. apply at_in_bounds, Hb, indices_range, Hi. }
  destruct (weight_loop_sum zero Hps Hsum) as [m Hm].
  unfold MSEGain.Evaluate, MADGain.Evaluate, for_loop.
  rewrite Hm. cbn [bind]. rewrite Hz. split; reflexivity.
Qed.

Lemma zero_weight_gain_witness :
  MSEGain.Evaluate (A := binary64) true [3; 5; 8]%float [0; 0; 7]%float 0 1
    = Some 0%float /\
  MADGain.Evaluate (A := binary64) true [3; 5; 8]%float [0; 0; 7]%float 0 1
    = Some 0%float.
Proof.
  apply (@zero_weight_gain float binary64 [3; 5; 8]%float [0; 0; 7]%float
           0%N 1%N 0%float).
  - intros i Hi. unfold Size.n_elem. simpl. lia.
  - vm_compute. reflexivity.
  - vm_compute. reflexivity.
Defined.

(** C10.  In the unweighted variant neither gain depends on the weights
    argument: two calls that differ only in the weights return the same
    result, on every range and in every arithmetic, whatever the two weight
    vectors hold and however long they are. *)
Theorem unweighted_ignores_weights (T : Type) (A : Arith T) (predictors w1 w2 : list T)
    (start end_ : N) :
  MSEGain.Evaluate false predictors w1 start end_
    = MSEGain.Evaluate false predictors w2 start end_ /\
  MADGain.Evaluate false predictors w1 start end_
    = MADGain.Evaluate false predictors w2 start end_ /\
  MSEGain.EvaluateAll false predictors w1 = MSEGain.EvaluateAll false predictors w2 /\
  MADGain.EvaluateAll false predictors w1 = MADGain.EvaluateAll false predictors w2.
Proof.
  unfold MSEGain.EvaluateAll, MADGain.EvaluateAll.
  destruct (Size.n_elem predictors =? 0)%N; repeat split; reflexivity.
Qed.

(** The sign of a gain of the family on a range. *)
Lemma gain_sign_of Ev d (ps ws : list Q) (start end_ : N) :
  is_gain Ev d ->
  (start <= end_)%N -> (end_ < Size.n_elem ps)%N -> Size.fits ps ->
  returns (Ev false ps ws start end_)
    (fun g => g <= 0 /\
              (all_same (slice ps start end_) -> g == 0) /\
              (~ all_same (slice ps start end_) -> g < 0)) /\
  ((end_ < Size.n_elem ws)%N ->
   returns (Ev true ps ws start end_)
     (fun g => (all_same (slice ps start end_) -> g == 0) /\
               (nonneg_weights (weighted_slice ps ws start end_) ->
                g <= 0 /\ (impure (weighted_slice ps ws start end_) -> g < 0)))).
Proof.
  intros HG Hse Hlt Hfit. pose proof (gain_deviation HG) as Hd.
  assert (Hne : slice ps start end_ <> []).
  { intros Hnil. apply (f_equal (@length Q)) in Hnil.
    rewrite (slice_length start Hlt) in Hnil. simpl in Hnil. lia. }
  split.
  - destruct (gain_unweighted HG ws Hse Hlt Hfit) as [g [Hg Hv]].
    exists g. split; [exact Hg|]. repeat split.
    + pose proof (dev_u_nonneg Hd Hne). lra.
    + intros Hall. rewrite Hv, (dev_u_all_same Hd Hne Hall). reflexivity.
    + intros Hn. pose proof (dev_u_pos Hd Hn). lra.
  - intros Hltw.
    destruct (gain_weighted HG start Hlt Hltw) as [g [Hg [Hz Hnz]]].
    exists g. split; [exact Hg|].
    set (pws := weighted_slice ps ws start end_) in *.
    assert (Hfst : map fst pws = slice ps start end_).
    { apply map_fst_combine.
      now rewrite (slice_length start Hlt), (slice_length start Hltw). }
    destruct (Qeq_dec (wsum pws) 0) as [HW|HW].
    + specialize (Hz HW). split; [intros _; exact Hz|].
      intros Hnn. split; [lra|].
      intros Himp. destruct (dev_w_pos Hd Hnn Himp) as [Hpos _]. lra.
    + specialize (Hnz HW). split.
      * intros Hall. rewrite <- Hfst in Hall.
        rewrite Hnz, (dev_w_all_same Hd Hall HW). reflexivity.
      * intros Hnn. pose proof (dev_w_nonneg Hd Hnn HW). split; [lra|].
        intros Himp. destruct (dev_w_pos Hd Hnn Himp) as [_ Hpos]. lra.
Qed.

(** ** The claims about the split finders *)

(** C9.  Whatever its inputs, the categorical finder either rejects (it
    returns the sentinel [DBL_MAX] and leaves [outSplitInfo] as it was) or
    accepts: then [outSplitInfo] holds exactly one element, [numCategories],
    and the gain returned is the combined gain of the per-category children,
    which exceeds [bestGain + minimumGainSplit].  On the four categories of
    [AllCategoricalSplitSimpleSplitTest], each with a single response value,
    with [minimumLeafSize = 3] and unit weights, the binary64 computation
    accepts, with a gain within [1e-7] of 0 and exactly 4 children, weighted
    or not. *)
Theorem categorical_split_accepts :
  (forall (T : Type) (A : Arith T) (F : FitnessFunction T) (UseWeights : bool)
          (bestGain : T) (data : list N) (numCategories : N) (responses weights : list T)
          (minimumLeafSize : N) (minimumGainSplit : T) (outSplitInfo : list T)
          (gain : T) (out : list T),
      AllCategoricalSplit.SplitIfBetter F UseWeights bestGain data numCategories
        responses weights minimumLeafSize minimumGainSplit outSplitInfo = Some (gain, out) ->
      (gain = dbl_max /\ out = outSplitInfo) \/
      (out = [of_size numCategories] /\
       AllCategoricalSplit.combined_gain F UseWeights data numCategories responses weights
         = Some gain /\
       ltb (add bestGain minimumGainSplit) gain = true)) /\
  (forall UseWeights : bool,
      exists bestGain gain,
        MSEGain.EvaluateAll (A := binary64) false responses12 (unit_weights 12)
          = Some bestGain /\
        AllCategoricalSplit.SplitIfBetter (A := binary64) MSE UseWeights bestGain
          categories12 4 responses12 (unit_weights 12) 3 min_gain_f64 []
          = Some (gain, [4%float]) /\
        PrimFloat.ltb bestGain gain = true /\
        f64_within tol 0 (Some gain) = true).
Proof.
  split.
  - intros T A F UseWeights bestGain data numCategories responses weights
           minimumLeafSize minimumGainSplit outSplitInfo gain out.
    unfold AllCategoricalSplit.SplitIfBetter.
    destruct (existsb _ _ || _)%bool.
    + intros H. inversion H; subst. left. split; reflexivity.
    + destruct (AllCategoricalSplit.combined_gain F UseWeights data numCategories
                  responses weights) as [overallGain|]; cbn [bind]; [|discriminate].
      destruct (ltb (add bestGain minimumGainSplit) overallGain) eqn:Hlt;
        intros H; inversion H; subst.
      * right. repeat split. exact Hlt.
      * left. split; reflexivity.
  - intros [|]; do 2 eexists;
      (split; [vm_compute; reflexivity|]);
      (split; [vm_compute; reflexivity|]);
      split; vm_compute; reflexivity.
Qed.

Lemma categorical_split_accepts_witness :
  (0%float = dbl_max /\ [2%float] = @nil float) \/
  ([2%float] = [of_size 2] /\
   AllCategoricalSplit.combined_gain (A := binary64) MAD false [0; 1; 1; 0]%N 2
     [1; 5; 5; 1]%float [] = Some 0%float /\
   ltb (add (-2)%float min_gain_f64) 0%float = true).
Proof.
  apply (proj1 categorical_split_accepts float binary64 MAD false (-2)%float
           [0; 1; 1; 0]%N 2%N [1; 5; 5; 1]%float [] 2%N min_gain_f64 [] 0%float
           [2%float]).
  vm_compute. reflexivity.
Defined.

(** *** The index sort *)

Lemma insert_perm {T : Type} {A : Arith T} (x : N * T) (l : list (N * T)) :
  Permutation (BestBinaryNumericSplit.insert x l) (x :: l).
Proof.
  induction l as [|y l IH]; simpl; [apply Permutation_refl|].
  destruct (ltb (snd y) (snd x)); [|apply Permutation_refl].
  apply perm_trans with (l' := y :: x :: l); [apply perm_skip, IH|apply perm_swap].
Qed.

Lemma sort_index_perm {T : Type} {A : Arith T} (data : list T) :
  Permutation (BestBinaryNumericSplit.sort_index data) (indexed data).
Proof.
  unfold BestBinaryNumericSplit.sort_index.
  induction (indexed data) as [|x l IH]; simpl; [constructor|].
  apply perm_trans with (l' := x :: fold_right BestBinaryNumericSplit.insert [] l).
  - apply insert_perm.
  - apply perm_skip, IH.
Qed.

Lemma indexed_fst {T : Type} (data : list T) :
  map fst (indexed data) = map N.of_nat (seq 0 (length data)).
Proof.
  unfold indexed. apply map_fst_combine. now rewrite length_map, length_seq.
Qed.

Lemma map_snd_combine {X Y : Type} (l : list X) (l' : list Y) :
  length l = length l' -> map snd (combine l l') = l'.
Proof.
  revert l'. induction l as [|x l IH]; intros [|y l'] H; simpl in *;
    try reflexivity; try discriminate.
  f_equal. apply IH. lia.
Qed.

Lemma indexed_snd {T : Type} (data : list T) : map snd (indexed data) = data.
Proof.
  unfold indexed. apply map_snd_combine. now rewrite length_map, length_seq.
Qed.


Lemma gather_defined {T : Type} (v : list T) (idx : list N) :
  Forall (fun i => (i < Size.n_elem v)%N) idx -> exists xs, gather v idx = Some xs.
Proof.
  induction 1 as [|i idx Hi _ [xs IH]]; simpl; [eauto|].
  destruct (at_in_bounds Hi) as [x Hx]. rewrite Hx, IH. simpl. eauto.
Qed.

(** The sorted indices are the sample indices, so every read through them is
    defined on a vector as long as the feature. *)
Lemma gather_sorted {T : Type} {A : Arith T} (data v : list T) :
  length v = length data ->
  exists xs, gather v (map fst (BestBinaryNumericSplit.sort_index data)) = Some xs.
Proof.
  intros Hlen. apply gather_defined.
  apply (Permutation_Forall (x := map fst (indexed data))).
  - apply Permutation_map, Permutation_sym, sort_index_perm.
  - rewrite indexed_fst. apply Forall_forall. intros i Hi.
    apply in_map_iff in Hi. destruct Hi as [j [<- Hj]]. apply in_seq in Hj.
    unfold Size.n_elem. lia.
Qed.

Lemma Q_ltb_false (x y : Q) : ltb x y = false -> y <= x.
Proof.
  cbn [ltb exactQ]. intros H. apply negb_false_iff in H. now apply Qle_bool_iff.
Qed.

Lemma Q_ltb_true (x y : Q) : ltb x y = true -> x < y.
Proof.
  cbn [ltb exactQ]. intros H. apply negb_true_iff in H.
  apply Qnot_le_lt. intros Hle. apply Qle_bool_iff in Hle. congruence.
Qed.

Lemma insert_sorted (x : N * Q) (l : list (N * Q)) :
  StronglySorted by_value l -> StronglySorted by_value (BestBinaryNumericSplit.insert x l).
Proof.
  induction 1 as [|y l Hs IH Hall]; cbn [BestBinaryNumericSplit.insert].
  - constructor; constructor.
  - destruct (ltb (snd y) (snd x)) eqn:Hyx.
    + constructor; [exact IH|].
      apply (Permutation_Forall (x := x :: l)).
      * apply Permutation_sym, insert_perm.
      * constructor; [|exact Hall]. unfold by_value.
        apply Qlt_le_weak, Q_ltb_true, Hyx.
    + apply Q_ltb_false in Hyx. constructor; [constructor; assumption|].
      constructor; [exact Hyx|].
      eapply Forall_impl; [|exact Hall]. unfold by_value. intros z Hz.
      eapply Qle_trans; eauto.
Qed.

Lemma sort_index_sorted (data : list Q) :
  StronglySorted Qle (map snd (BestBinaryNumericSplit.sort_index data)).
Proof.
  assert (H : StronglySorted by_value (BestBinaryNumericSplit.sort_index data)).
  { unfold BestBinaryNumericSplit.sort_index.
    induction (indexed data) as [|x l IH]; simpl; [constructor|].
    apply insert_sorted, IH. }
  induction H as [|y l Hs IH Hall]; simpl; constructor; [exact IH|].
  apply Forall_map. exact Hall.
Qed.

Lemma sort_index_values (data : list Q) :
  Permutation (map snd (BestBinaryNumericSplit.sort_index data)) data.
Proof.
  rewrite <- (indexed_snd data) at 2. apply Permutation_map, sort_index_perm.
Qed.

(** *** Candidates are threshold partitions *)

Lemma sorted_around (l1 l2 : list Q) (x : Q) :
  StronglySorted Qle (l1 ++ x :: l2) -> Forall (fun a => a <= x) l1 /\ Forall (Qle x) l2.
Proof.
  induction l1 as [|a l1 IH]; simpl; intros H; inversion H as [|? ? Hs Hall]; subst.
  - split; [constructor|exact Hall].
  - destruct (IH Hs) as [H1 H2]. split; [|exact H2].
    constructor; [|exact H1].
    rewrite Forall_forall in Hall. apply Hall. apply in_or_app. right. now left.
Qed.

Lemma filter_all {X : Type} (f : X -> bool) (l : list X) :
  Forall (fun x => f x = true) l -> filter f l = l.
Proof.
  induction 1 as [|x l Hx _ IH]; simpl; [reflexivity|]. now rewrite Hx, IH.
Qed.


Lemma count_split (t : Q) (l : list Q) : (count_le t l + count_gt t l)%nat = length l.
Proof.
  unfold count_le, count_gt. induction l as [|x l IH]; simpl; [reflexivity|].
  destruct (Qle_bool x t); simpl; lia.
Qed.

Lemma filter_perm_length {X : Type} (f : X -> bool) (l l' : list X) :
  Permutation l l' -> length (filter f l) = length (filter f l').
Proof.
  induction 1 as [|x l l' _ IH|x y l|l l' l'' _ IH1 _ IH2]; simpl.
  - reflexivity.
  - destruct (f x); simpl; lia.
  - destruct (f x), (f y); simpl; lia.
  - lia.
Qed.

Lemma candidate_partition (sd : list Q) (m k : nat) :
  StronglySorted Qle sd ->
  BestBinaryNumericSplit.is_candidate sd m k = true ->
  exists t, (m <= count_le t sd)%nat /\ (m <= count_gt t sd)%nat.
Proof.
  intros Hs Hc. unfold BestBinaryNumericSplit.is_candidate in Hc.
  repeat (apply andb_prop in Hc; destruct Hc as [Hc ?]).
  destruct (nth_error sd (k - 1)) as [a|] eqn:Ha; [|discriminate].
  destruct (nth_error sd k) as [b|] eqn:Hb; [|discriminate].
  apply Nat.leb_le in Hc. repeat match goal with
    | H : (_ <=? _)%nat = true |- _ => apply Nat.leb_le in H
    | H : (_ <? _)%nat = true |- _ => apply Nat.ltb_lt in H
    end.
  apply nth_error_split in Ha. destruct Ha as [l1 [l2 [Hsd Hl1]]].
  assert (Hl2 : exists l3, l2 = b :: l3).
  { rewrite Hsd in Hb. rewrite nth_error_app2 in Hb by lia.
    replace (k - length l1)%nat with 1%nat in Hb by lia. simpl in Hb.
    destruct l2 as [|b' l3]; [discriminate|]. inversion Hb; subst. eauto. }
  destruct Hl2 as [l3 ->].
  rewrite Hsd in Hs. destruct (sorted_around Hs) as [Hle Hge].
  assert (Hab : a < b).
  { inversion Hge as [|? ? Hab _]; subst.
    apply Qle_lteq in Hab. destruct Hab as [Hab|Hab]; [exact Hab|].
    exfalso. apply negb_true_iff in H. cbn [eqb exactQ] in H.
    apply Qeq_bool_iff in Hab. congruence. }
  assert (Hgt : Forall (fun x => negb (Qle_bool x a) = true) (b :: l3)).
  { assert (Hb3 : Forall (Qle b) l3).
    { apply (sorted_around (l1 := l1 ++ [a]) (x := b) (l2 := l3)).
      rewrite <- app_assoc. exact Hs. }
    assert (Hlt : forall x, b <= x -> negb (Qle_bool x a) = true).
    { intros x Hx. apply negb_true_iff. destruct (Qle_bool x a) eqn:Hxa; [|reflexivity].
      apply Qle_bool_iff in Hxa. lra. }
    constructor; [apply Hlt, Qle_refl|].
    eapply Forall_impl; [|exact Hb3]. exact Hlt. }
  assert (Haa : Qle_bool a a = true) by (apply Qle_bool_iff, Qle_refl).
  exists a. unfold count_le, count_gt. rewrite Hsd, !filter_app, !length_app.
  assert (Hlen : length sd = (length l1 + S (S (length l3)))%nat).
  { rewrite Hsd, length_app. reflexivity. }
  split.
  - rewrite (filter_all (l := l1)).
    2:{ eapply Forall_impl; [|exact Hle]. intros x Hx. now apply Qle_bool_iff. }
    simpl filter. rewrite Haa. simpl length. lia.
  - change (a :: b :: l3) with ([a] ++ b :: l3).
    rewrite filter_app, length_app, (filter_all Hgt). simpl length. lia.
Qed.

Lemma sweep_no_candidate {T : Type} {A : Arith T} (F : FitnessFunction T)
    (UseWeights : bool) (sd sr sw : list T) (m : nat) (ks : list nat)
    (best : option (T * T)) :
  (forall k, In k ks -> BestBinaryNumericSplit.is_candidate sd m k = false) ->
  BestBinaryNumericSplit.sweep F UseWeights sd sr sw m ks best = Some best.
Proof.
  revert best. induction ks as [|k ks IH]; intros best Hno; simpl; [reflexivity|].
  unfold BestBinaryNumericSplit.sweep_step.
  rewrite (Hno k (or_introl eq_refl)). cbn [bind].
  apply IH. intros j Hj. apply Hno. now right.
Qed.

Lemma few_samples_no_partition (data : list Q) (m : nat) :
  (length data < 2 * m)%nat ->
  forall t, (count_le t data < m)%nat \/ (count_gt t data < m)%nat.
Proof. intros Hlt t. pose proof (count_split t data). lia. Qed.

(** C8.  The numeric finder returns the sentinel [DBL_MAX] and leaves
    [outSplitInfo] as it was (empty, when it was passed in empty):
    in every arithmetic, binary64 included, whenever there are fewer than
    [2 * minimumLeafSize] samples; and in exact arithmetic, on well-formed
    inputs, whenever no threshold splits the feature values into two
    children of at least [minimumLeafSize] samples each. *)
Theorem numeric_split_needs_two_leaves :
  (forall (T : Type) (A : Arith T) (F : FitnessFunction T) (UseWeights : bool)
          (bestGain : T) (data responses weights : list T)
          (minimumLeafSize : N) (minimumGainSplit : T) (outSplitInfo : list T),
      (Size.n_elem data < 2 * minimumLeafSize)%N ->
      BestBinaryNumericSplit.SplitIfBetter F UseWeights bestGain data responses weights
        minimumLeafSize minimumGainSplit outSplitInfo = Some (dbl_max, outSplitInfo)) /\
  (forall (F : FitnessFunction Q) (UseWeights : bool)
          (bestGain : Q) (data responses weights : list Q)
          (minimumLeafSize : N) (minimumGainSplit : Q) (outSplitInfo : list Q),
      length responses = length data ->
      (UseWeights = true -> length weights = length data) ->
      (forall t, (count_le t data < N.to_nat minimumLeafSize)%nat \/
                 (count_gt t data < N.to_nat minimumLeafSize)%nat) ->
      BestBinaryNumericSplit.SplitIfBetter F UseWeights bestGain data responses weights
        minimumLeafSize minimumGainSplit outSplitInfo = Some (dbl_max, outSplitInfo)).
Proof.
  split.
  - intros T A F UseWeights bestGain data responses weights m g out Hlt.
    unfold BestBinaryNumericSplit.SplitIfBetter.
    apply N.ltb_lt in Hlt. now rewrite Hlt.
  - intros F UseWeights bestGain data responses weights m g out Hr Hw Hno.
    unfold BestBinaryNumericSplit.SplitIfBetter.
    destruct (Size.n_elem data <? 2 * m)%N; [reflexivity|].
    destruct (gather_sorted (data := data) Hr) as [sr Hsr]. rewrite Hsr. cbn [bind].
    assert (Hsw : exists sw,
               (if UseWeights
                then gather weights (map fst (BestBinaryNumericSplit.sort_index data))
                else Some []) = Some sw).
    { destruct UseWeights; [|eauto]. apply gather_sorted. now apply Hw. }
    destruct Hsw as [sw Hsw]. rewrite Hsw. cbn [bind].
    rewrite sweep_no_candidate; [reflexivity|].
    intros k _.
    destruct (BestBinaryNumericSplit.is_candidate
                (map snd (BestBinaryNumericSplit.sort_index data)) (N.to_nat m) k)
      eqn:Hc; [|reflexivity].
    exfalso.
    destruct (candidate_partition (sort_index_sorted data) Hc) as [t [Hle Hgt]].
    pose proof (sort_index_values data) as Hperm.
    unfold count_le, count_gt in Hle, Hgt.
    rewrite (filter_perm_length _ Hperm) in Hle.
    rewrite (filter_perm_length _ Hperm) in Hgt.
    destruct (Hno t) as [H|H]; unfold count_le, count_gt in H; lia.
Qed.

Lemma numeric_split_needs_two_leaves_witness :
  BestBinaryNumericSplit.SplitIfBetter (A := exactQ) MSE true (- (4 # 25))
    [1; 1; 2; 1; 1] [0; 0; 1; 0; 0] [1; 1; 1; 1; 1] 2 (1 # 10000000) []
  = Some (dbl_max, []).
Proof.
  apply (proj2 numeric_split_needs_two_leaves MSE true (- (4 # 25))
           [1; 1; 2; 1; 1] [0; 0; 1; 0; 0] [1; 1; 1; 1; 1] 2%N (1 # 10000000) []).
  - reflexivity.
  - reflexivity.
  - intros t. unfold count_le, count_gt. simpl.
    destruct (Qle_bool 1 t), (Qle_bool 2 t); simpl; lia.
Defined.

(** ** The test suite, computed in binary64

    The assertions of [decision_tree_regression_test.cpp], evaluated on the
    embedding at the binary64 instance. *)

(** [MSEGainPerfectTest], [MSEGainEmptyTest], [MADGainPerfectTest],
    [MADGainEmptyTest]. *)
Example test_perfect_and_empty :
  f64_within (1 # 100000) 0
    (MSEGain.EvaluateAll (A := binary64) false (repeat 1%float 10) (unit_weights 10)) = true /\
  MSEGain.EvaluateAll (A := binary64) false [] (unit_weights 10) = Some 0%float /\
  MSEGain.EvaluateAll (A := binary64) true [] (unit_weights 10) = Some 0%float /\
  MADGain.EvaluateAll (A := binary64) false [] (unit_weights 10) = Some 0%float /\
  MADGain.EvaluateAll (A := binary64) true [] (unit_weights 10) = Some 0%float.
Proof. repeat split; vm_compute; reflexivity. Qed.

Lemma MSE_whole_unweighted {T : Type} {A : Arith T} (ps ws : list T) :
  ps <> [] -> Size.fits ps ->
  MSEGain.EvaluateAll false ps ws
  = (let n := of_size (Size.add (Size.sub (Size.n_elem ps - 1) 0) 1) in
     let mean := div (fold_left add (slice ps 0 (Size.n_elem ps - 1)) zero) n in
     Some (opp (fold_left (fun acc p => add acc (div (mul one (pow2 (sub p mean))) n))
                  (slice ps 0 (Size.n_elem ps - 1)) zero))).
Proof.
  intros Hne Hfit. rewrite (MSE_EvaluateAll_nonempty false ws Hne Hfit).
  destruct (whole_range Hne Hfit) as [_ [_ [_ Hlt]]].
  exact (unweighted_as_fold (fun p mean => mul one (pow2 (sub p mean))) 0 Hlt).
Qed.

Lemma MAD_whole_unweighted {T : Type} {A : Arith T} (ps ws : list T) :
  ps <> [] -> Size.fits ps ->
  MADGain.EvaluateAll false ps ws
  = (let n := of_size (Size.add (Size.sub (Size.n_elem ps - 1) 0) 1) in
     let mean := div (fold_left add (slice ps 0 (Size.n_elem ps - 1)) zero) n in
     Some (opp (fold_left (fun acc p => add acc (div (fabs (sub p mean)) n))
                  (slice ps 0 (Size.n_elem ps - 1)) zero))).
Proof.
  intros Hne Hfit. rewrite (MAD_EvaluateAll_nonempty false ws Hne Hfit).
  destruct (whole_range Hne Hfit) as [_ [_ [_ Hlt]]].
  exact (unweighted_as_fold (fun p mean => fabs (sub p mean)) 0 Hlt).
Qed.

Lemma MSE_whole_weighted {T : Type} {A : Arith T} (ps ws : list T) :
  ps <> [] -> Size.fits ps -> (Size.n_elem ps <= Size.n_elem ws)%N ->
  MSEGain.EvaluateAll true ps ws
  = (let pws := combine (slice ps 0 (Size.n_elem ps - 1)) (slice ws 0 (Size.n_elem ps - 1)) in
     let '(accWeights, weightedMean) :=
       fold_left (fun (s : T * T) (pw : T * T) =>
                    let '(aw, wm) := s in (add aw (snd pw), add wm (mul (fst pw) (snd pw))))
                 pws (zero, zero) in
     if eqb accWeights zero then Some zero
     else
       let weightedMean := div weightedMean accWeights in
       Some (opp (fold_left
                    (fun acc (pw : T * T) =>
                       add acc (div (mul (snd pw) (pow2 (sub (fst pw) weightedMean)))
                                    accWeights))
                    pws zero))).
Proof.
  intros Hne Hfit Hlen. rewrite (MSE_EvaluateAll_nonempty true ws Hne Hfit).
  destruct (whole_range Hne Hfit) as [_ [_ [_ Hlt]]].
  apply (weighted_as_fold (fun p mean => pow2 (sub p mean)) 0 Hlt). lia.
Qed.

Lemma MAD_whole_weighted {T : Type} {A : Arith T} (ps ws : list T) :
  ps <> [] -> Size.fits ps -> (Size.n_elem ps <= Size.n_elem ws)%N ->
  MADGain.EvaluateAll true ps ws
  = (let pws := combine (slice ps 0 (Size.n_elem ps - 1)) (slice ws 0 (Size.n_elem ps - 1)) in
     let '(accWeights, weightedMean) :=
       fold_left (fun (s : T * T) (pw : T * T) =>
                    let '(aw, wm) := s in (add aw (snd pw), add wm (mul (fst pw) (snd pw))))
                 pws (zero, zero) in
     if eqb accWeights zero then Some zero
     else
       let weightedMean := div weightedMean accWeights in
       Some (opp (fold_left
                    (fun acc (pw : T * T) =>
                       add acc (div (mul (snd pw) (fabs (sub (fst pw) weightedMean)))
                                    accWeights))
                    pws zero))).
Proof.
  intros Hne Hfit Hlen. rewrite (MAD_EvaluateAll_nonempty true ws Hne Hfit).
  destruct (whole_range Hne Hfit) as [_ [_ [_ Hlt]]].
  apply (weighted_as_fold (fun p mean => fabs (sub p mean)) 0 Hlt). lia.
Qed.

Lemma f64_within_eq (t e : Q) (r r' : option float) :
  r = r' -> f64_within t e r' = true -> f64_within t e r = true.
Proof. intros ->. exact (fun H => H). Qed.

(** The gains of the whole vector [ps] with weights [ws] are within [tol] of
    [-1]; the computation goes through the folds above. *)
Ltac even_split_case ps ws :=
  let Hne := fresh "Hne" in
  let Hfit := fresh "Hfit" in
  let Hlen := fresh "Hlen" in
  assert (Hne : ps <> []) by (vm_compute; discriminate);
  assert (Hfit : Size.fits ps) by (vm_compute; reflexivity);
  assert (Hlen : (Size.n_elem ps <= Size.n_elem ws)%N) by (vm_compute; discriminate);
  split; [apply (f64_within_eq (MSE_whole_unweighted ws Hne Hfit)); vm_compute; reflexivity|];
  split; [apply (f64_within_eq (MSE_whole_weighted Hne Hfit Hlen)); vm_compute; reflexivity|];
  split; [apply (f64_within_eq (MAD_whole_unweighted ws Hne Hfit)); vm_compute; reflexivity|];
  apply (f64_within_eq (MAD_whole_weighted Hne Hfit Hlen)); vm_compute; reflexivity.

(** [MSEGainEvenSplit], [MADGainEvenSplit]: for every size of the tests both
    gains are within [1e-7] of [-1], weighted and unweighted. *)
Example test_even_split :
  Forall (fun c =>
    f64_within tol (-1)
      (MSEGain.EvaluateAll false (even_split_responses (A := binary64) c)
         (unit_weights (100 * N.to_nat c))) = true /\
    f64_within tol (-1)
      (MSEGain.EvaluateAll true (even_split_responses (A := binary64) c)
         (unit_weights (100 * N.to_nat c))) = true /\
    f64_within tol (-1)
      (MADGain.EvaluateAll false (even_split_responses (A := binary64) c)
         (unit_weights (100 * N.to_nat c))) = true /\
    f64_within tol (-1)
      (MADGain.EvaluateAll true (even_split_responses (A := binary64) c)
         (unit_weights (100 * N.to_nat c))) = true)
    even_split_sizes.
Proof.
  unfold even_split_sizes.
  repeat (apply Forall_cons;
          [match goal with
           | |- context [MSEGain.EvaluateAll false ?ps ?ws] => even_split_case ps ws
           end|]).
  apply Forall_nil.
Qed.

(** [BestBinaryNumericSplitSimpleSplitTest]: a split is made, with a gain
    within [1e-7] of 0, the same with and without weights, and a threshold
    strictly between 0.4 and 0.5. *)
Example test_numeric_simple_split :
  exists bestGain gain splitPoint,
    MADGain.EvaluateAll (A := binary64) false responses11 (unit_weights 11) = Some bestGain /\
    BestBinaryNumericSplit.SplitIfBetter (A := binary64) MAD false bestGain
      values11_f64 responses11 (unit_weights 11) 3 min_gain_f64 []
      = Some (gain, [splitPoint]) /\
    BestBinaryNumericSplit.SplitIfBetter (A := binary64) MAD true bestGain
      values11_f64 responses11 (unit_weights 11) 3 min_gain_f64 []
      = Some (gain, [splitPoint]) /\
    PrimFloat.ltb bestGain gain = true /\
    f64_within tol 0 (Some gain) = true /\
    PrimFloat.ltb 0x1.999999999999ap-2 splitPoint = true /\
    PrimFloat.ltb splitPoint 0x1p-1 = true.
Proof. do 3 eexists. repeat split; vm_compute; reflexivity. Qed.

(** [BestBinaryNumericSplitMinSamplesTest]: with [minimumLeafSize = 8] on
    eleven points no split is made. *)
Example test_numeric_min_samples :
  exists bestGain,
    MSEGain.EvaluateAll (A := binary64) false responses11 (repeat 0%float 11) = Some bestGain /\
    BestBinaryNumericSplit.SplitIfBetter (A := binary64) MSE false bestGain
      values11_f64 responses11 (repeat 0%float 11) 8 min_gain_f64 []
      = Some (dbl_max, []) /\
    BestBinaryNumericSplit.SplitIfBetter (A := binary64) MSE true bestGain
      values11_f64 responses11 (repeat 0%float 11) 8 min_gain_f64 []
      = Some (dbl_max, []).
Proof. eexists. repeat split; vm_compute; reflexivity. Qed.

(** [AllCategoricalSplitMinSamplesTest]: with [minimumLeafSize = 4] on four
    categories of three samples no split is made. *)
Example test_categorical_min_samples :
  exists bestGain,
    MADGain.EvaluateAll (A := binary64) false
      (map of_size [10; 10; 10; 20; 20; 20; 30; 30; 30; 40; 40; 40]%N) (unit_weights 12)
      = Some bestGain /\
    AllCategoricalSplit.SplitIfBetter (A := binary64) MAD false bestGain categories12 4
      (map of_size [10; 10; 10; 20; 20; 20; 30; 30; 30; 40; 40; 40]%N) (unit_weights 12)
      4 min_gain_f64 []
      = Some (dbl_max, []).
Proof. eexists. split; vm_compute; reflexivity. Qed.

(** Constant weights in binary64.  With unit weights the weighted and the
    unweighted computation perform the same operations and agree bit for
    bit, here on the responses of the split tests and of the smallest
    even-split test.  With another constant they round differently and
    agree up to rounding only: on the responses 1, 2, 4 with weights 3 the
    two MSE gains differ in the last place, both within [1e-15] of
    [-14/9]. *)
Example test_constant_weights_binary64 :
  MSEGain.EvaluateAll (A := binary64) true responses11 (unit_weights 11)
    = MSEGain.EvaluateAll false responses11 (unit_weights 11) /\
  MADGain.EvaluateAll (A := binary64) true responses11 (unit_weights 11)
    = MADGain.EvaluateAll false responses11 (unit_weights 11) /\
  MSEGain.EvaluateAll (A := binary64) true (even_split_responses 2) (unit_weights 200)
    = MSEGain.EvaluateAll false (even_split_responses 2) (unit_weights 200) /\
  MADGain.EvaluateAll (A := binary64) true (even_split_responses 2) (unit_weights 200)
    = MADGain.EvaluateAll false (even_split_responses 2) (unit_weights 200) /\
  MSEGain.EvaluateAll (A := binary64) true [1; 2; 4]%float [3; 3; 3]%float
    = Some (-0x1.8e38e38e38e39p+0)%float /\
  MSEGain.EvaluateAll (A := binary64) false [1; 2; 4]%float [3; 3; 3]%float
    = Some (-0x1.8e38e38e38e38p+0)%float /\
  f64_within (1 # 10 ^ 15) (- (14 # 9)) (Some (-0x1.8e38e38e38e39p+0)%float) = true /\
  f64_within (1 # 10 ^ 15) (- (14 # 9)) (Some (-0x1.8e38e38e38e38p+0)%float) = true.
Proof. repeat split; vm_compute; reflexivity. Qed.

(** ** How the gains transform *)

Lemma slice_map {X Y : Type} (f : X -> Y) (v : list X) (start end_ : N) :
  slice (map f v) start end_ = map f (slice v start end_).
Proof. unfold slice. now rewrite skipn_map, firstn_map. Qed.

Lemma n_elem_map {X Y : Type} (f : X -> Y) (v : list X) :
  Size.n_elem (map f v) = Size.n_elem v.
Proof. unfold Size.n_elem. now rewrite length_map. Qed.

Lemma combine_map_l {X Y Z : Type} (f : X -> Y) (l : list X) (l' : list Z) :
  combine (map f l) l' = map (fun xz => (f (fst xz), snd xz)) (combine l l').
Proof.
  revert l'. induction l as [|x l IH]; intros [|z l']; simpl; try reflexivity.
  now rewrite IH.
Qed.

Lemma combine_map_r {X Y Z : Type} (f : Y -> Z) (l : list X) (l' : list Y) :
  combine l (map f l') = map (fun xy => (fst xy, f (snd xy))) (combine l l').
Proof.
  revert l'. induction l as [|x l IH]; intros [|y l']; simpl; try reflexivity.
  now rewrite IH.
Qed.

Lemma len_map {X Y : Type} (f : X -> Y) (l : list X) : len (map f l) = len l.
Proof. unfold len. now rewrite length_map. Qed.

Lemma slice_nonempty {X : Type} (v : list X) (start end_ : N) :
  (start <= end_)%N -> (end_ < Size.n_elem v)%N -> slice v start end_ <> [].
Proof.
  intros Hse Hlt Hnil. apply (f_equal (@length X)) in Hnil.
  rewrite (slice_length start Hlt) in Hnil. simpl in Hnil. lia.
Qed.

Lemma Qsum_map_plus {X : Type} (f g : X -> Q) (l : list X) :
  Qsum (map (fun x => f x + g x) l) == Qsum (map f l) + Qsum (map g l).
Proof. induction l as [|x l IH]; simpl; [ring|]. rewrite IH. ring. Qed.

(** Two unweighted calls whose mean deviations are in the ratio [k]. *)
Lemma unweighted_rel Ev d (k : Q) (ps ps' ws ws' : list Q) (start end_ : N) :
  is_gain Ev d ->
  (start <= end_)%N ->
  (end_ < Size.n_elem ps)%N -> Size.fits ps ->
  (end_ < Size.n_elem ps')%N -> Size.fits ps' ->
  dev_u d (slice ps' start end_) == k * dev_u d (slice ps start end_) ->
  gain_rel (fun g g' => g' == k * g)
    (Ev false ps ws start end_) (Ev false ps' ws' start end_).
Proof.
  intros HG Hse Hlt Hfit Hlt' Hfit' Hdev.
  destruct (gain_unweighted HG ws Hse Hlt Hfit) as [g [Hg Hv]].
  destruct (gain_unweighted HG ws' Hse Hlt' Hfit') as [g' [Hg' Hv']].
  exists g, g'. repeat split; try assumption. rewrite Hv', Hv, Hdev. ring.
Qed.

(** Two weighted calls whose weight sums vanish together and whose mean
    deviations are in the ratio [k]. *)
Lemma weighted_rel Ev d (k : Q) (ps ps' ws ws' : list Q) (start end_ : N) :
  is_gain Ev d ->
  (end_ < Size.n_elem ps)%N -> (end_ < Size.n_elem ws)%N ->
  (end_ < Size.n_elem ps')%N -> (end_ < Size.n_elem ws')%N ->
  (wsum (weighted_slice ps' ws' start end_) == 0 <->
   wsum (weighted_slice ps ws start end_) == 0) ->
  (~ wsum (weighted_slice ps ws start end_) == 0 ->
   dev_w d (weighted_slice ps' ws' start end_)
   == k * dev_w d (weighted_slice ps ws start end_)) ->
  gain_rel (fun g g' => g' == k * g)
    (Ev true ps ws start end_) (Ev true ps' ws' start end_).
Proof.
  intros HG Hp Hw Hp' Hw' Hzero Hdev.
  destruct (gain_weighted HG start Hp Hw) as [g [Hg [Hz Hnz]]].
  destruct (gain_weighted HG start Hp' Hw') as [g' [Hg' [Hz' Hnz']]].
  exists g, g'. repeat split; try assumption.
  destruct (Qeq_dec (wsum (weighted_slice ps ws start end_)) 0) as [H0|H0].
  - rewrite (Hz H0), (Hz' (proj2 Hzero H0)). ring.
  - assert (H0' : ~ wsum (weighted_slice ps' ws' start end_) == 0)
      by (intros H; apply H0, Hzero, H).
    rewrite (Hnz' H0'), (Hnz H0), (Hdev H0). ring.
Qed.

Section Transform.
Variable d : Q -> Q.
Hypothesis Hd : deviation d.

Lemma mean_shifted (c : Q) (xs : list Q) :
  xs <> [] -> mean (shifted c xs) == c + mean xs.
Proof.
  intros Hne. unfold mean, shifted. rewrite len_map.
  rewrite <- (Qsum_map_id (map (Qplus c) xs)), map_map.
  rewrite (Qsum_map_plus (fun _ => c) (fun x => x)), Qsum_map_const, Qsum_map_id.
  field. now apply len_nonzero.
Qed.

Lemma dev_u_shifted (c : Q) (xs : list Q) :
  xs <> [] -> dev_u d (shifted c xs) == dev_u d xs.
Proof.
  intros Hne. pose proof (mean_shifted c Hne) as Hm. unfold dev_u.
  unfold shifted in *. rewrite len_map, map_map.
  apply Qdiv_comp; [|reflexivity].
  apply Qsum_map_ext, Forall_forall. intros x _.
  apply (dev_proper Hd). rewrite Hm. ring.
Qed.

Lemma mean_scaled (c : Q) (xs : list Q) : mean (scaled c xs) == c * mean xs.
Proof.
  unfold mean, scaled. rewrite len_map.
  rewrite <- (Qsum_map_id (map (Qmult c) xs)), map_map.
  rewrite (Qsum_map_mult_l c (fun x => x)), Qsum_map_id.
  unfold Qdiv. ring.
Qed.

Lemma dev_u_scaled (h : Q -> Q) (c : Q) (xs : list Q) :
  (forall x, d (c * x) == h c * d x) ->
  dev_u d (scaled c xs) == h c * dev_u d xs.
Proof.
  intros Hh. pose proof (mean_scaled c xs) as Hm. unfold dev_u.
  unfold scaled in *. rewrite len_map, map_map.
  rewrite (Qsum_map_ext (g := fun x => h c * d (x - mean xs))).
  - rewrite Qsum_map_mult_l. unfold Qdiv. ring.
  - apply Forall_forall. intros x _.
    rewrite <- Hh. apply (dev_proper Hd). rewrite Hm. ring.
Qed.

(** *** Weighted *)

Lemma wsum_map_fst (f : Q -> Q) (pws : list (Q * Q)) :
  wsum (map (fun pw => (f (fst pw), snd pw)) pws) == wsum pws.
Proof. unfold wsum. rewrite map_map. reflexivity. Qed.

Lemma wmean_shifted (c : Q) (pws : list (Q * Q)) :
  ~ wsum pws == 0 ->
  wmean (map (fun pw => (c + fst pw, snd pw)) pws) == c + wmean pws.
Proof.
  intros HW. unfold wmean. rewrite (wsum_map_fst (Qplus c)). rewrite map_map.
  cbn [fst snd].
  rewrite (Qsum_map_ext (g := fun pw => c * snd pw + fst pw * snd pw)).
  - rewrite (Qsum_map_plus (fun pw => c * snd pw) (fun pw => fst pw * snd pw)).
    rewrite (Qsum_map_mult_l c snd). fold (wsum pws). field. exact HW.
  - apply Forall_forall. intros pw _. ring.
Qed.

Lemma dev_w_shifted (c : Q) (pws : list (Q * Q)) :
  ~ wsum pws == 0 ->
  dev_w d (map (fun pw => (c + fst pw, snd pw)) pws) == dev_w d pws.
Proof.
  intros HW. pose proof (wmean_shifted c HW) as Hm. unfold dev_w.
  rewrite (wsum_map_fst (Qplus c)), map_map. cbn [fst snd].
  apply Qdiv_comp; [|reflexivity].
  apply Qsum_map_ext, Forall_forall. intros pw _.
  rewrite (dev_proper Hd (x := c + fst pw - _) (y := fst pw - wmean pws));
    [reflexivity|rewrite Hm; ring].
Qed.

Lemma wmean_scaled (c : Q) (pws : list (Q * Q)) :
  wmean (map (fun pw => (c * fst pw, snd pw)) pws) == c * wmean pws.
Proof.
  unfold wmean. rewrite (wsum_map_fst (Qmult c)). rewrite map_map. cbn [fst snd].
  rewrite (Qsum_map_ext (g := fun pw => c * (fst pw * snd pw))).
  - rewrite Qsum_map_mult_l. unfold Qdiv. ring.
  - apply Forall_forall. intros pw _. ring.
Qed.

Lemma dev_w_scaled (h : Q -> Q) (c : Q) (pws : list (Q * Q)) :
  (forall x, d (c * x) == h c * d x) ->
  dev_w d (map (fun pw => (c * fst pw, snd pw)) pws) == h c * dev_w d pws.
Proof.
  intros Hh. pose proof (wmean_scaled c pws) as Hm. unfold dev_w.
  rewrite (wsum_map_fst (Qmult c)), map_map. cbn [fst snd].
  rewrite (Qsum_map_ext (g := fun pw => h c * (snd pw * d (fst pw - wmean pws)))).
  - rewrite Qsum_map_mult_l. unfold Qdiv. ring.
  - apply Forall_forall. intros pw _.
    rewrite (dev_proper Hd (x := c * fst pw - _)
               (y := c * (fst pw - wmean pws))) by (rewrite Hm; ring).
    rewrite Hh. ring.
Qed.

Lemma wsum_scaled_weights (c : Q) (pws : list (Q * Q)) :
  wsum (map (fun pw => (fst pw, c * snd pw)) pws) == c * wsum pws.
Proof.
  unfold wsum. rewrite map_map. cbn [snd]. apply (Qsum_map_mult_l c snd).
Qed.

Lemma wmean_scaled_weights (c : Q) (pws : list (Q * Q)) :
  ~ c == 0 -> ~ wsum pws == 0 ->
  wmean (map (fun pw => (fst pw, c * snd pw)) pws) == wmean pws.
Proof.
  intros Hc HW. unfold wmean. rewrite wsum_scaled_weights, map_map. cbn [fst snd].
  rewrite (Qsum_map_ext (g := fun pw => c * (fst pw * snd pw))).
  - rewrite Qsum_map_mult_l. field. split; assumption.
  - apply Forall_forall. intros pw _. ring.
Qed.

Lemma dev_w_scaled_weights (c : Q) (pws : list (Q * Q)) :
  ~ c == 0 -> ~ wsum pws == 0 ->
  dev_w d (map (fun pw => (fst pw, c * snd pw)) pws) == dev_w d pws.
Proof.
  intros Hc HW. pose proof (wmean_scaled_weights Hc HW) as Hm. unfold dev_w.
  rewrite wsum_scaled_weights, map_map. cbn [fst snd].
  rewrite (Qsum_map_ext (g := fun pw => c * (snd pw * d (fst pw - wmean pws)))).
  - rewrite Qsum_map_mult_l. field. split; assumption.
  - apply Forall_forall. intros pw _.
    rewrite (dev_proper Hd (x := fst pw - _) (y := fst pw - wmean pws))
      by (rewrite Hm; reflexivity).
    ring.
Qed.

End Transform.

Lemma gain_rel_impl (R R' : Q -> Q -> Prop) (r r' : option Q) :
  (forall g g', R g g' -> R' g g') -> gain_rel R r r' -> gain_rel R' r r'.
Proof. intros H [g [g' [Hg [Hg' HR]]]]. exists g, g'. auto. Qed.

Lemma fits_map {X Y : Type} (f : X -> Y) (v : list X) : Size.fits v -> Size.fits (map f v).
Proof. unfold Size.fits. now rewrite n_elem_map. Qed.

Lemma weighted_slice_map_l (f : Q -> Q) (ps ws : list Q) (start end_ : N) :
  weighted_slice (map f ps) ws start end_
  = map (fun pw => (f (fst pw), snd pw)) (weighted_slice ps ws start end_).
Proof. unfold weighted_slice. now rewrite slice_map, combine_map_l. Qed.

Lemma weighted_slice_map_r (f : Q -> Q) (ps ws : list Q) (start end_ : N) :
  weighted_slice ps (map f ws) start end_
  = map (fun pw => (fst pw, f (snd pw))) (weighted_slice ps ws start end_).
Proof. unfold weighted_slice. now rewrite slice_map, combine_map_r. Qed.

(** A gain of the family under a map of the responses that multiplies the
    mean deviation by [k]. *)
Lemma response_map_rel Ev d (f : Q -> Q) (k : Q) (ps ws : list Q) (start end_ : N) :
  is_gain Ev d ->
  (forall xs, xs <> [] -> dev_u d (map f xs) == k * dev_u d xs) ->
  (forall pws, ~ wsum pws == 0 ->
               dev_w d (map (fun pw => (f (fst pw), snd pw)) pws) == k * dev_w d pws) ->
  (start <= end_)%N -> (end_ < Size.n_elem ps)%N -> Size.fits ps ->
  gain_rel (fun g g' => g' == k * g)
    (Ev false ps ws start end_) (Ev false (map f ps) ws start end_) /\
  ((end_ < Size.n_elem ws)%N ->
   gain_rel (fun g g' => g' == k * g)
     (Ev true ps ws start end_) (Ev true (map f ps) ws start end_)).
Proof.
  intros HG Hu Hw Hse Hlt Hfit.
  assert (Hlt' : (end_ < Size.n_elem (map f ps))%N) by now rewrite n_elem_map.
  split.
  - apply (unweighted_rel ws ws HG Hse Hlt Hfit Hlt' (fits_map f Hfit)).
    rewrite slice_map. apply Hu. now apply slice_nonempty.
  - intros Hltw.
    apply (weighted_rel HG Hlt Hltw Hlt' Hltw).
    + rewrite weighted_slice_map_l, (wsum_map_fst f). reflexivity.
    + intros HW. rewrite weighted_slice_map_l. apply Hw, HW.
Qed.

(** X1.  Moving every response by the same constant changes neither gain. *)
Theorem gain_translation_invariant (c : Q) (predictors weights : list Q) (start end_ : N) :
  (start <= end_)%N -> (end_ < Size.n_elem predictors)%N -> Size.fits predictors ->
  (gain_rel Qeq (MSEGain.Evaluate false predictors weights start end_)
                (MSEGain.Evaluate false (shifted c predictors) weights start end_) /\
   gain_rel Qeq (MADGain.Evaluate false predictors weights start end_)
                (MADGain.Evaluate false (shifted c predictors) weights start end_)) /\
  ((end_ < Size.n_elem weights)%N ->
   gain_rel Qeq (MSEGain.Evaluate true predictors weights start end_)
                (MSEGain.Evaluate true (shifted c predictors) weights start end_) /\
   gain_rel Qeq (MADGain.Evaluate true predictors weights start end_)
                (MADGain.Evaluate true (shifted c predictors) weights start end_)).
Proof.
  intros Hse Hlt Hfit.
  assert (H1 : forall g g' : Q, g' == 1 * g -> g == g')
    by (intros g g' H; rewrite H; ring).
  assert (HG : forall Ev d, is_gain Ev d ->
             gain_rel Qeq (Ev false predictors weights start end_)
                          (Ev false (shifted c predictors) weights start end_) /\
             ((end_ < Size.n_elem weights)%N ->
              gain_rel Qeq (Ev true predictors weights start end_)
                           (Ev true (shifted c predictors) weights start end_))).
  { intros Ev d HG.
    assert (Hdu : forall xs, xs <> [] -> dev_u d (map (Qplus c) xs) == 1 * dev_u d xs).
    { intros xs Hne. rewrite (dev_u_shifted (gain_deviation HG) c Hne). ring. }
    assert (Hdw : forall pws, ~ wsum pws == 0 ->
              dev_w d (map (fun pw => (c + fst pw, snd pw)) pws) == 1 * dev_w d pws).
    { intros pws HW. rewrite (dev_w_shifted (gain_deviation HG) c HW). ring. }
    destruct (@response_map_rel Ev d (Qplus c) 1 predictors weights start end_
                HG Hdu Hdw Hse Hlt Hfit) as [Hu Hw].
    split; [exact (gain_rel_impl H1 Hu)|].
    intros Hltw. exact (gain_rel_impl H1 (Hw Hltw)). }
  destruct (HG _ _ MSE_is_gain) as [Hu1 Hw1].
  destruct (HG _ _ MAD_is_gain) as [Hu2 Hw2].
  split; [split; assumption|]. intros Hltw. split; auto.
Qed.

Lemma gain_translation_invariant_witness :
  gain_rel Qeq (MSEGain.Evaluate false [1; 5; 2; 8] [1; 0; 2; 3] 1 3)
               (MSEGain.Evaluate false (shifted 10 [1; 5; 2; 8]) [1; 0; 2; 3] 1 3) /\
  gain_rel Qeq (MADGain.Evaluate true [1; 5; 2; 8] [1; 0; 2; 3] 1 3)
               (MADGain.Evaluate true (shifted 10 [1; 5; 2; 8]) [1; 0; 2; 3] 1 3).
Proof.
  destruct (@gain_translation_invariant 10 [1; 5; 2; 8] [1; 0; 2; 3] 1%N 3%N)
    as [[Hu _] Hw]; try reflexivity.
  - discriminate.
  - split; [exact Hu|]. apply Hw. reflexivity.
Defined.

(** X2.  Scaling every response by [c] scales the MSE gain by [c * c] and the
    MAD gain by [|c|]. *)
Theorem gain_scaling (c : Q) (predictors weights : list Q) (start end_ : N) :
  (start <= end_)%N -> (end_ < Size.n_elem predictors)%N -> Size.fits predictors ->
  (gain_rel (fun g g' => g' == c * c * g)
     (MSEGain.Evaluate false predictors weights start end_)
     (MSEGain.Evaluate false (scaled c predictors) weights start end_) /\
   gain_rel (fun g g' => g' == Qabs c * g)
     (MADGain.Evaluate false predictors weights start end_)
     (MADGain.Evaluate false (scaled c predictors) weights start end_)) /\
  ((end_ < Size.n_elem weights)%N ->
   gain_rel (fun g g' => g' == c * c * g)
     (MSEGain.Evaluate true predictors weights start end_)
     (MSEGain.Evaluate true (scaled c predictors) weights start end_) /\
   gain_rel (fun g g' => g' == Qabs c * g)
     (MADGain.Evaluate true predictors weights start end_)
     (MADGain.Evaluate true (scaled c predictors) weights start end_)).
Proof.
  intros Hse Hlt Hfit.
  assert (Hsq : forall x, sq (c * x) == c * c * sq x) by (intros x; unfold sq; ring).
  assert (Habs : forall x, Qabs (c * x) == Qabs c * Qabs x) by (intros x; apply Qabs_Qmult).
  destruct (@response_map_rel MSEGain.Evaluate sq (Qmult c) (c * c) predictors weights
              start end_ MSE_is_gain
              (fun xs _ => @dev_u_scaled sq sq_deviation (fun c => c * c) c xs Hsq)
              (fun pws _ => @dev_w_scaled sq sq_deviation (fun c => c * c) c pws Hsq)
              Hse Hlt Hfit) as [Hu1 Hw1].
  destruct (@response_map_rel MADGain.Evaluate Qabs (Qmult c) (Qabs c) predictors weights
              start end_ MAD_is_gain
              (fun xs _ => @dev_u_scaled Qabs Qabs_deviation Qabs c xs Habs)
              (fun pws _ => @dev_w_scaled Qabs Qabs_deviation Qabs c pws Habs)
              Hse Hlt Hfit) as [Hu2 Hw2].
  split; [split; assumption|]. intros Hltw. split; auto.
Qed.

Lemma gain_scaling_witness :
  gain_rel (fun g g' => g' == (-3) * (-3) * g)
     (MSEGain.Evaluate true [1; 5; 2; 8] [1; 0; 2; 3] 1 3)
     (MSEGain.Evaluate true (scaled (-3) [1; 5; 2; 8]) [1; 0; 2; 3] 1 3) /\
  gain_rel (fun g g' => g' == Qabs (-3) * g)
     (MADGain.Evaluate false [1; 5; 2; 8] [1; 0; 2; 3] 1 3)
     (MADGain.Evaluate false (scaled (-3) [1; 5; 2; 8]) [1; 0; 2; 3] 1 3).
Proof.
  destruct (@gain_scaling (-3) [1; 5; 2; 8] [1; 0; 2; 3] 1%N 3%N)
    as [[_ Hu] Hw]; try reflexivity.
  - discriminate.
  - split; [|exact Hu]. apply Hw. reflexivity.
Defined.

(** X3.  Scaling every weight by the same non-zero constant changes neither
    weighted gain. *)
Theorem gain_weight_scale_invariant (c : Q) (predictors weights : list Q) (start end_ : N) :
  ~ c == 0 ->
  (end_ < Size.n_elem predictors)%N -> (end_ < Size.n_elem weights)%N ->
  gain_rel Qeq (MSEGain.Evaluate true predictors weights start end_)
               (MSEGain.Evaluate true predictors (scaled c weights) start end_) /\
  gain_rel Qeq (MADGain.Evaluate true predictors weights start end_)
               (MADGain.Evaluate true predictors (scaled c weights) start end_).
Proof.
  intros Hc Hp Hw.
  assert (H1 : forall g g' : Q, g' == 1 * g -> g == g')
    by (intros g g' H; rewrite H; ring).
  assert (Hw' : (end_ < Size.n_elem (scaled c weights))%N)
    by (unfold scaled; now rewrite n_elem_map).
  assert (HG : forall Ev d, is_gain Ev d ->
             gain_rel Qeq (Ev true predictors weights start end_)
                          (Ev true predictors (scaled c weights) start end_)).
  { intros Ev d HG. apply (gain_rel_impl H1).
    apply (weighted_rel HG Hp Hw Hp Hw'); unfold scaled;
      rewrite weighted_slice_map_r.
    - rewrite wsum_scaled_weights. split; intros H0.
      + apply Qmult_integral in H0. tauto.
      + rewrite H0. ring.
    - intros HW. rewrite (dev_w_scaled_weights (gain_deviation HG) Hc HW). ring. }
  split; [exact (HG _ _ MSE_is_gain)|exact (HG _ _ MAD_is_gain)].
Qed.

Lemma gain_weight_scale_invariant_witness :
  gain_rel Qeq (MSEGain.Evaluate true [1; 5; 2; 8] [1; 0; 2; 3] 0 3)
               (MSEGain.Evaluate true [1; 5; 2; 8] (scaled (7 # 2) [1; 0; 2; 3]) 0 3) /\
  gain_rel Qeq (MADGain.Evaluate true [1; 5; 2; 8] [1; 0; 2; 3] 0 3)
               (MADGain.Evaluate true [1; 5; 2; 8] (scaled (7 # 2) [1; 0; 2; 3]) 0 3).
Proof.
  apply (@gain_weight_scale_invariant (7 # 2) [1; 5; 2; 8] [1; 0; 2; 3] 0%N 3%N).
  - intros H. discriminate H.
  - reflexivity.
  - reflexivity.
Defined.

(** ** Reordering the samples *)

Lemma mean_perm (xs ys : list Q) : Permutation xs ys -> mean xs == mean ys.
Proof.
  intros H. unfold mean, len. rewrite (Qsum_perm H), (Permutation_length H). reflexivity.
Qed.

Lemma Qsum_map_perm {X : Type} (f : X -> Q) (l l' : list X) :
  Permutation l l' -> Qsum (map f l) == Qsum (map f l').
Proof. intros H. apply Qsum_perm, Permutation_map, H. Qed.

Lemma dev_u_perm (d : Q -> Q) (xs ys : list Q) :
  deviation d -> Permutation xs ys -> dev_u d xs == dev_u d ys.
Proof.
  intros Hd H. pose proof (mean_perm H) as Hm. unfold dev_u, len.
  rewrite (Permutation_length H).
  rewrite (Qsum_map_perm (fun p => d (p - mean xs)) H).
  apply Qdiv_comp; [|reflexivity].
  apply Qsum_map_ext, Forall_forall. intros y _.
  apply (dev_proper Hd). rewrite Hm. reflexivity.
Qed.

Lemma wsum_perm (l l' : list (Q * Q)) : Permutation l l' -> wsum l == wsum l'.
Proof. intros H. unfold wsum. apply Qsum_map_perm, H. Qed.

Lemma wmean_perm (l l' : list (Q * Q)) : Permutation l l' -> wmean l == wmean l'.
Proof.
  intros H. unfold wmean.
  rewrite (wsum_perm H), (Qsum_map_perm (fun pw => fst pw * snd pw) H). reflexivity.
Qed.

Lemma dev_w_perm (d : Q -> Q) (l l' : list (Q * Q)) :
  deviation d -> Permutation l l' -> dev_w d l == dev_w d l'.
Proof.
  intros Hd H. pose proof (wmean_perm H) as Hm. unfold dev_w.
  rewrite (wsum_perm H).
  rewrite (Qsum_map_perm (fun pw => snd pw * d (fst pw - wmean l)) H).
  apply Qdiv_comp; [|reflexivity].
  apply Qsum_map_ext, Forall_forall. intros pw _.
  rewrite (dev_proper Hd (x := fst pw - wmean l) (y := fst pw - wmean l'));
    [reflexivity|rewrite Hm; reflexivity].
Qed.

Lemma permuted_whole Ev d (ps ps' ws ws' : list Q) :
  is_gain Ev d ->
  ps <> [] -> Size.fits ps ->
  length ws = length ps -> length ws' = length ps' ->
  Permutation (combine ps ws) (combine ps' ws') ->
  gain_rel Qeq (Ev false ps ws 0%N (Size.n_elem ps - 1)%N)
               (Ev false ps' ws' 0%N (Size.n_elem ps' - 1)%N) /\
  gain_rel Qeq (Ev true ps ws 0%N (Size.n_elem ps - 1)%N)
               (Ev true ps' ws' 0%N (Size.n_elem ps' - 1)%N).
Proof.
  intros HG Hne Hfit Hlen Hlen' Hperm.
  assert (Hpp : Permutation ps ps').
  { rewrite <- (map_fst_combine Hlen), <- (map_fst_combine Hlen').
    apply Permutation_map, Hperm. }
  pose proof (Permutation_length Hpp) as Hl.
  assert (Hn : Size.n_elem ps' = Size.n_elem ps) by (unfold Size.n_elem; now rewrite Hl).
  assert (Hne' : ps' <> []).
  { intros ->. apply Permutation_sym, Permutation_nil in Hpp. contradiction. }
  assert (Hfit' : Size.fits ps') by (unfold Size.fits; now rewrite Hn).
  destruct (whole_range Hne Hfit) as [_ [_ [Hle Hlt]]].
  assert (H1 : forall g g' : Q, g' == 1 * g -> g == g')
    by (intros g g' H; rewrite H; ring).
  assert (Hlt' : (Size.n_elem ps - 1 < Size.n_elem ps')%N) by (rewrite Hn; exact Hlt).
  assert (Hw : (Size.n_elem ps - 1 < Size.n_elem ws)%N)
    by (unfold Size.n_elem in *; rewrite Hlen; exact Hlt).
  assert (Hw' : (Size.n_elem ps - 1 < Size.n_elem ws')%N)
    by (unfold Size.n_elem in *; rewrite Hlen'; exact Hlt').
  pose proof (slice_all Hne') as Es'. rewrite Hn in Es'.
  pose proof (weighted_slice_all Hne' Hlen') as E'. rewrite Hn in E'.
  rewrite Hn. split; apply (gain_rel_impl H1).
  - apply (unweighted_rel ws ws' HG Hle Hlt Hfit Hlt' Hfit').
    rewrite Es', (slice_all Hne).
    rewrite (dev_u_perm (gain_deviation HG) Hpp). ring.
  - pose proof (weighted_slice_all Hne Hlen) as E.
    apply (weighted_rel HG Hlt Hw Hlt' Hw'); rewrite E, E'.
    + rewrite (wsum_perm Hperm). reflexivity.
    + intros _. rewrite (dev_w_perm (gain_deviation HG) Hperm). ring.
Qed.

(** X4.  Reordering the samples, each response together with its weight,
    changes neither gain of the whole vector, weighted or not. *)
Theorem gain_permutation_invariant (predictors predictors' weights weights' : list Q) :
  Size.fits predictors ->
  length weights = length predictors -> length weights' = length predictors' ->
  Permutation (combine predictors weights) (combine predictors' weights') ->
  (gain_rel Qeq (MSEGain.EvaluateAll false predictors weights)
                (MSEGain.EvaluateAll false predictors' weights') /\
   gain_rel Qeq (MSEGain.EvaluateAll true predictors weights)
                (MSEGain.EvaluateAll true predictors' weights')) /\
  (gain_rel Qeq (MADGain.EvaluateAll false predictors weights)
                (MADGain.EvaluateAll false predictors' weights') /\
   gain_rel Qeq (MADGain.EvaluateAll true predictors weights)
                (MADGain.EvaluateAll true predictors' weights')).
Proof.
  intros Hfit Hlen Hlen' Hperm.
  assert (Hpp : Permutation predictors predictors').
  { rewrite <- (map_fst_combine Hlen), <- (map_fst_combine Hlen').
    apply Permutation_map, Hperm. }
  destruct predictors as [|p ps].
  - apply Permutation_nil in Hpp. subst predictors'.
    repeat split; exists 0, 0; repeat split; reflexivity.
  - assert (Hne : p :: ps <> []) by discriminate.
    assert (Hne' : predictors' <> []).
    { intros ->. apply Permutation_sym, Permutation_nil in Hpp. discriminate. }
    assert (Hfit' : Size.fits predictors').
    { unfold Size.fits, Size.n_elem in *. now rewrite <- (Permutation_length Hpp). }
    rewrite !(MSE_EvaluateAll_nonempty _ _ Hne Hfit), !(MSE_EvaluateAll_nonempty _ _ Hne' Hfit').
    rewrite !(MAD_EvaluateAll_nonempty _ _ Hne Hfit), !(MAD_EvaluateAll_nonempty _ _ Hne' Hfit').
    split.
    + exact (permuted_whole MSE_is_gain Hne Hfit Hlen Hlen' Hperm).
    + exact (permuted_whole MAD_is_gain Hne Hfit Hlen Hlen' Hperm).
Qed.

Lemma gain_permutation_invariant_witness :
  (gain_rel Qeq (MSEGain.EvaluateAll false [1; 5; 2] [3; 0; 4])
                (MSEGain.EvaluateAll false [5; 1; 2] [0; 3; 4]) /\
   gain_rel Qeq (MSEGain.EvaluateAll true [1; 5; 2] [3; 0; 4])
                (MSEGain.EvaluateAll true [5; 1; 2] [0; 3; 4])) /\
  (gain_rel Qeq (MADGain.EvaluateAll false [1; 5; 2] [3; 0; 4])
                (MADGain.EvaluateAll false [5; 1; 2] [0; 3; 4]) /\
   gain_rel Qeq (MADGain.EvaluateAll true [1; 5; 2] [3; 0; 4])
                (MADGain.EvaluateAll true [5; 1; 2] [0; 3; 4])).
Proof.
  apply (@gain_permutation_invariant [1; 5; 2] [5; 1; 2] [3; 0; 4] [0; 3; 4]).
  - reflexivity.
  - reflexivity.
  - reflexivity.
  - simpl. apply perm_swap.
Defined.

(** ** Splitting a range *)

Lemma firstn_plus {X : Type} (a b : nat) (l : list X) :
  firstn (a + b) l = firstn a l ++ firstn b (skipn a l).
Proof.
  revert l. induction a as [|a IH]; intros [|x l]; simpl; try reflexivity.
  - now rewrite firstn_nil.
  - now rewrite IH.
Qed.

Lemma slice_split {X : Type} (v : list X) (start mid end_ : N) :
  (start <= mid)%N -> (mid < end_)%N ->
  slice v start end_ = slice v start mid ++ slice v (mid + 1) end_.
Proof.
  intros Hsm Hme. unfold slice.
  replace (N.to_nat (N.succ end_ - start))
    with (N.to_nat (N.succ mid - start) + N.to_nat (N.succ end_ - (mid + 1)))%nat by lia.
  rewrite firstn_plus, skipn_skipn.
  replace (N.to_nat (N.succ mid - start) + N.to_nat start)%nat
    with (N.to_nat (mid + 1)) by lia.
  reflexivity.
Qed.

Lemma SS_app (c : Q) (l r : list Q) : SS c (l ++ r) == SS c l + SS c r.
Proof. unfold SS. rewrite map_app. apply Qsum_app. Qed.

Lemma Qsum_centered (xs : list Q) :
  xs <> [] -> Qsum (map (fun x => x - mean xs) xs) == 0.
Proof.
  intros Hne. pose proof (len_nonzero Hne) as Hl.
  rewrite (Qsum_map_ext (g := fun x => x + - mean xs))
    by (apply Forall_forall; intros x _; ring).
  rewrite (Qsum_map_plus (fun x => x) (fun _ => - mean xs)).
  rewrite Qsum_map_id, Qsum_map_const. unfold mean. field. exact Hl.
Qed.

(** The mean is the centre of least squared distance. *)
Lemma SS_decomposition (c : Q) (xs : list Q) :
  xs <> [] -> SS c xs == SS (mean xs) xs + len xs * sq (mean xs - c).
Proof.
  intros Hne. unfold SS.
  rewrite (Qsum_map_ext
             (g := fun x => sq (x - mean xs)
                            + (2 * (mean xs - c) * (x - mean xs) + sq (mean xs - c)))).
  2:{ apply Forall_forall. intros x _. unfold sq. ring. }
  rewrite (Qsum_map_plus (fun x => sq (x - mean xs))).
  rewrite (Qsum_map_plus (fun x => 2 * (mean xs - c) * (x - mean xs))).
  rewrite (Qsum_map_mult_l (2 * (mean xs - c)) (fun x => x - mean xs)).
  rewrite (Qsum_centered Hne), Qsum_map_const. ring.
Qed.

Lemma SS_mean_least (c : Q) (xs : list Q) : SS (mean xs) xs <= SS c xs.
Proof.
  destruct xs as [|x xs]; [apply Qle_refl|].
  assert (Hne : x :: xs <> []) by discriminate.
  rewrite (SS_decomposition c Hne).
  pose proof (len_pos Hne) as Hl.
  assert (0 <= sq (mean (x :: xs) - c)) by apply (dev_nonneg sq_deviation).
  nra.
Qed.

Lemma dev_u_SS (xs : list Q) : dev_u sq xs == SS (mean xs) xs / len xs.
Proof. reflexivity. Qed.

Lemma range_len_slice {X : Type} (v : list X) (start end_ : N) :
  (end_ < Size.n_elem v)%N -> range_len start end_ = len (slice v start end_).
Proof.
  intros Hlt. unfold range_len, len. rewrite (slice_length start Hlt).
  now rewrite <- nat_N_Z, N2Nat.id.
Qed.

(** X5.  Splitting a range never lowers the MSE gain: the gains of the two
    parts, each weighted by its share of the samples, sum to at least the
    gain of the whole range. *)
Theorem MSE_split_never_hurts (predictors weights : list Q) (start mid end_ : N) :
  (start <= mid)%N -> (mid < end_)%N ->
  (end_ < Size.n_elem predictors)%N -> Size.fits predictors ->
  exists leftGain rightGain gain,
    MSEGain.Evaluate false predictors weights start mid = Some leftGain /\
    MSEGain.Evaluate false predictors weights (mid + 1) end_ = Some rightGain /\
    MSEGain.Evaluate false predictors weights start end_ = Some gain /\
    gain <= range_len start mid / range_len start end_ * leftGain
            + range_len (mid + 1) end_ / range_len start end_ * rightGain.
Proof.
  intros Hsm Hme Hlt Hfit.
  assert (Hltm : (mid < Size.n_elem predictors)%N) by lia.
  destruct (gain_unweighted MSE_is_gain weights Hsm Hltm Hfit) as [gl [Hgl Hvl]].
  destruct (gain_unweighted MSE_is_gain weights (start := (mid + 1)%N) (end_ := end_)
              ltac:(lia) Hlt Hfit) as [gr [Hgr Hvr]].
  destruct (gain_unweighted MSE_is_gain weights (start := start) (end_ := end_)
              ltac:(lia) Hlt Hfit) as [g [Hg Hv]].
  exists gl, gr, g. repeat split; try assumption.
  rewrite (range_len_slice start Hltm), (range_len_slice (mid + 1) Hlt),
    (range_len_slice start Hlt).
  set (l := slice predictors start mid) in *.
  set (r := slice predictors (mid + 1) end_) in *.
  assert (Hall : slice predictors start end_ = l ++ r) by now apply slice_split.
  rewrite Hall in *.
  assert (Hl : l <> []) by (apply slice_nonempty; assumption).
  assert (Hr : r <> []) by (apply slice_nonempty; [lia|assumption]).
  pose proof (len_pos Hl) as Hlp. pose proof (len_pos Hr) as Hrp.
  assert (Hn : len (l ++ r) == len l + len r).
  { unfold len. rewrite length_app, Nat2Z.inj_add, inject_Z_plus. reflexivity. }
  rewrite Hv, Hvl, Hvr, !dev_u_SS, Hn.
  pose proof (@SS_mean_least (mean (l ++ r)) l) as H1.
  pose proof (@SS_mean_least (mean (l ++ r)) r) as H2.
  pose proof (@SS_app (mean (l ++ r)) l r) as H3.
  setoid_replace (len l / (len l + len r) * - (SS (mean l) l / len l)
                  + len r / (len l + len r) * - (SS (mean r) r / len r))
    with (- ((SS (mean l) l + SS (mean r) r) / (len l + len r)))
    by (field; lra).
  apply Qopp_le_compat.
  apply Qle_shift_div_l; [lra|].
  setoid_replace ((SS (mean l) l + SS (mean r) r) / (len l + len r) * (len l + len r))
    with (SS (mean l) l + SS (mean r) r) by (field; lra).
  lra.
Qed.

Lemma MSE_split_never_hurts_witness :
  exists leftGain rightGain gain,
    MSEGain.Evaluate false [1; 2; 9; 8; 7] [] 0 1 = Some leftGain /\
    MSEGain.Evaluate false [1; 2; 9; 8; 7] [] (1 + 1) 4 = Some rightGain /\
    MSEGain.Evaluate false [1; 2; 9; 8; 7] [] 0 4 = Some gain /\
    gain <= range_len 0 1 / range_len 0 4 * leftGain
            + range_len (1 + 1) 4 / range_len 0 4 * rightGain.
Proof.
  apply (@MSE_split_never_hurts [1; 2; 9; 8; 7] [] 0%N 1%N 4%N); try reflexivity.
  discriminate.
Defined.

(** ** The two gains compared *)

Lemma Qabs_square (x : Q) : Qabs x * Qabs x == x * x.
Proof.
  rewrite <- Qabs_Qmult. apply Qabs_pos.
  destruct (Qlt_le_dec x 0); nra.
Qed.

Lemma mean_abs_le_rms (xs : list Q) :
  xs <> [] -> dev_u Qabs xs * dev_u Qabs xs <= dev_u sq xs.
Proof.
  intros Hne. pose proof (len_pos Hne) as Hl.
  set (A := dev_u Qabs xs). set (m := mean xs).
  assert (H0 : 0 <= Qsum (map (fun x => sq (Qabs (x - m) - A)) xs)).
  { apply Qsum_map_nonneg, Forall_forall. intros x _. apply (dev_nonneg sq_deviation). }
  rewrite (Qsum_map_ext
             (g := fun x => sq (x - m) + ((- (2 * A)) * Qabs (x - m) + A * A))) in H0.
  2:{ apply Forall_forall. intros x _. unfold sq.
      setoid_replace ((Qabs (x - m) - A) * (Qabs (x - m) - A))
        with (Qabs (x - m) * Qabs (x - m) + (- (2 * A) * Qabs (x - m) + A * A)) by ring.
      rewrite Qabs_square. reflexivity. }
  rewrite (Qsum_map_plus (fun x => sq (x - m))) in H0.
  rewrite (Qsum_map_plus (fun x => - (2 * A) * Qabs (x - m))) in H0.
  rewrite (Qsum_map_mult_l (- (2 * A)) (fun x => Qabs (x - m))) in H0.
  rewrite Qsum_map_const in H0.
  assert (HA : Qsum (map (fun x => Qabs (x - m)) xs) == len xs * A).
  { unfold A, dev_u. fold m. field. lra. }
  assert (HS : Qsum (map (fun x => sq (x - m)) xs) == len xs * dev_u sq xs).
  { unfold dev_u. fold m. field. lra. }
  rewrite HA, HS in H0. nra.
Qed.

Lemma weighted_mean_abs_le_rms (pws : list (Q * Q)) :
  nonneg_weights pws -> ~ wsum pws == 0 ->
  dev_w Qabs pws * dev_w Qabs pws <= dev_w sq pws.
Proof.
  intros Hnn HW. pose proof (wsum_nonneg Hnn) as HW0.
  assert (HWp : 0 < wsum pws) by lra.
  set (A := dev_w Qabs pws). set (m := wmean pws).
  assert (H0 : 0 <= Qsum (map (fun pw => snd pw * sq (Qabs (fst pw - m) - A)) pws)).
  { apply Qsum_map_nonneg. unfold nonneg_weights in Hnn.
    rewrite Forall_forall in *. intros pw Hpw.
    apply Qmult_le_0_compat; [apply Hnn, Hpw|apply (dev_nonneg sq_deviation)]. }
  rewrite (Qsum_map_ext
             (g := fun pw => snd pw * sq (fst pw - m)
                             + ((- (2 * A)) * (snd pw * Qabs (fst pw - m))
                                + (A * A) * snd pw))) in H0.
  2:{ apply Forall_forall. intros pw _. unfold sq.
      setoid_replace (snd pw * ((Qabs (fst pw - m) - A) * (Qabs (fst pw - m) - A)))
        with (snd pw * (Qabs (fst pw - m) * Qabs (fst pw - m))
              + (- (2 * A) * (snd pw * Qabs (fst pw - m)) + A * A * snd pw)) by ring.
      rewrite Qabs_square. reflexivity. }
  rewrite (Qsum_map_plus (fun pw => snd pw * sq (fst pw - m))) in H0.
  rewrite (Qsum_map_plus (fun pw => - (2 * A) * (snd pw * Qabs (fst pw - m)))) in H0.
  rewrite (Qsum_map_mult_l (- (2 * A)) (fun pw => snd pw * Qabs (fst pw - m))) in H0.
  rewrite (Qsum_map_mult_l (A * A) snd) in H0. fold (wsum pws) in H0.
  assert (HA : Qsum (map (fun pw => snd pw * Qabs (fst pw - m)) pws) == wsum pws * A).
  { unfold A, dev_w. fold m. field. exact HW. }
  assert (HS : Qsum (map (fun pw => snd pw * sq (fst pw - m)) pws)
               == wsum pws * dev_w sq pws).
  { unfold dev_w. fold m. field. exact HW. }
  rewrite HA, HS in H0. nra.
Qed.

(** X6.  On the same range the square of the MAD gain is at most the negated
    MSE gain: the mean absolute deviation never exceeds the root of the mean
    squared deviation. *)
Theorem MAD_squared_at_most_MSE (predictors weights : list Q) (start end_ : N) :
  (start <= end_)%N -> (end_ < Size.n_elem predictors)%N -> Size.fits predictors ->
  (exists mse mad,
      MSEGain.Evaluate false predictors weights start end_ = Some mse /\
      MADGain.Evaluate false predictors weights start end_ = Some mad /\
      mad * mad <= - mse) /\
  ((end_ < Size.n_elem weights)%N ->
   nonneg_weights (weighted_slice predictors weights start end_) ->
   exists mse mad,
     MSEGain.Evaluate true predictors weights start end_ = Some mse /\
     MADGain.Evaluate true predictors weights start end_ = Some mad /\
     mad * mad <= - mse).
Proof.
  intros Hse Hlt Hfit. split.
  - destruct (gain_unweighted MSE_is_gain weights Hse Hlt Hfit) as [g1 [Hg1 Hv1]].
    destruct (gain_unweighted MAD_is_gain weights Hse Hlt Hfit) as [g2 [Hg2 Hv2]].
    exists g1, g2. repeat split; try assumption.
    pose proof (mean_abs_le_rms (slice_nonempty Hse Hlt)) as H.
    rewrite Hv1, Hv2. nra.
  - intros Hltw Hnn.
    destruct (gain_weighted MSE_is_gain start Hlt Hltw) as [g1 [Hg1 [Hz1 Hn1]]].
    destruct (gain_weighted MAD_is_gain start Hlt Hltw) as [g2 [Hg2 [Hz2 Hn2]]].
    exists g1, g2. repeat split; try assumption.
    destruct (Qeq_dec (wsum (weighted_slice predictors weights start end_)) 0) as [HW|HW].
    + rewrite (Hz1 HW), (Hz2 HW). lra.
    + pose proof (weighted_mean_abs_le_rms Hnn HW) as H.
      rewrite (Hn1 HW), (Hn2 HW). nra.
Qed.

Lemma MAD_squared_at_most_MSE_witness :
  (exists mse mad,
      MSEGain.Evaluate false [1; 5; 2; 8] [1; 0; 2; 3] 0 3 = Some mse /\
      MADGain.Evaluate false [1; 5; 2; 8] [1; 0; 2; 3] 0 3 = Some mad /\
      mad * mad <= - mse) /\
  (exists mse mad,
      MSEGain.Evaluate true [1; 5; 2; 8] [1; 0; 2; 3] 0 3 = Some mse /\
      MADGain.Evaluate true [1; 5; 2; 8] [1; 0; 2; 3] 0 3 = Some mad /\
      mad * mad <= - mse).
Proof.
  destruct (@MAD_squared_at_most_MSE [1; 5; 2; 8] [1; 0; 2; 3] 0%N 3%N) as [Hu Hw];
    try reflexivity.
  - discriminate.
  - split; [exact Hu|]. apply Hw; [reflexivity|].
    unfold nonneg_weights. simpl. repeat constructor; simpl; discriminate.
Defined.

(** *** Weighted *)

Lemma combine_app_eq {X Y : Type} (l1 l2 : list X) (r1 r2 : list Y) :
  length l1 = length r1 ->
  combine (l1 ++ l2) (r1 ++ r2) = combine l1 r1 ++ combine l2 r2.
Proof.
  revert r1. induction l1 as [|x l1 IH]; intros [|y r1] H; simpl in *;
    try reflexivity; try discriminate.
  f_equal. apply IH. lia.
Qed.

Lemma weighted_slice_split (ps ws : list Q) (start mid end_ : N) :
  (start <= mid)%N -> (mid < end_)%N ->
  (end_ < Size.n_elem ps)%N -> (end_ < Size.n_elem ws)%N ->
  weighted_slice ps ws start end_
  = weighted_slice ps ws start mid ++ weighted_slice ps ws (mid + 1) end_.
Proof.
  intros Hsm Hme Hp Hw. unfold weighted_slice.
  rewrite (slice_split ps Hsm Hme), (slice_split ws Hsm Hme).
  apply combine_app_eq.
  rewrite !slice_length by lia. reflexivity.
Qed.

Lemma WSS_app (c : Q) (l r : list (Q * Q)) : WSS c (l ++ r) == WSS c l + WSS c r.
Proof. unfold WSS. rewrite map_app. apply Qsum_app. Qed.

Lemma wsum_app (l r : list (Q * Q)) : wsum (l ++ r) == wsum l + wsum r.
Proof. unfold wsum. rewrite map_app. apply Qsum_app. Qed.

Lemma WSS_nonneg (c : Q) (pws : list (Q * Q)) : nonneg_weights pws -> 0 <= WSS c pws.
Proof.
  intros Hnn. unfold WSS. apply Qsum_map_nonneg. unfold nonneg_weights in Hnn.
  rewrite Forall_forall in *. intros pw Hpw.
  apply Qmult_le_0_compat; [apply Hnn, Hpw|apply (dev_nonneg sq_deviation)].
Qed.

Lemma WSS_decomposition (c : Q) (pws : list (Q * Q)) :
  ~ wsum pws == 0 ->
  WSS c pws == WSS (wmean pws) pws + wsum pws * sq (wmean pws - c).
Proof.
  intros HW. unfold WSS. set (m := wmean pws).
  rewrite (Qsum_map_ext
             (g := fun pw => snd pw * sq (fst pw - m)
                             + (2 * (m - c) * (fst pw * snd pw + (- m) * snd pw)
                                + sq (m - c) * snd pw))).
  2:{ apply Forall_forall. intros pw _. unfold sq. ring. }
  rewrite (Qsum_map_plus (fun pw => snd pw * sq (fst pw - m))).
  rewrite (Qsum_map_plus (fun pw => 2 * (m - c) * (fst pw * snd pw + - m * snd pw))).
  rewrite (Qsum_map_mult_l (2 * (m - c)) (fun pw => fst pw * snd pw + - m * snd pw)).
  rewrite (Qsum_map_plus (fun pw => fst pw * snd pw) (fun pw => - m * snd pw)).
  rewrite (Qsum_map_mult_l (- m) snd), (Qsum_map_mult_l (sq (m - c)) snd).
  fold (wsum pws).
  assert (Hm : Qsum (map (fun pw => fst pw * snd pw) pws) == m * wsum pws).
  { unfold m, wmean. field. exact HW. }
  rewrite Hm. ring.
Qed.

(** What the weighted MSE gain [g] of the samples [pws] amounts to: the
    weight sum times [- g] is the weighted sum of squares about the
    weighted mean, which no other centre undercuts. *)
Lemma weighted_gain_least (g c : Q) (pws : list (Q * Q)) :
  nonneg_weights pws ->
  (wsum pws == 0 -> g == 0) -> (~ wsum pws == 0 -> g == - dev_w sq pws) ->
  wsum pws * - g <= WSS c pws.
Proof.
  intros Hnn Hz Hnz. pose proof (wsum_nonneg Hnn) as HW0.
  destruct (Qeq_dec (wsum pws) 0) as [HW|HW].
  - rewrite (Hz HW), HW. pose proof (@WSS_nonneg c pws Hnn). lra.
  - rewrite (Hnz HW), (@WSS_decomposition c pws HW).
    assert (E : wsum pws * - - dev_w sq pws == WSS (wmean pws) pws).
    { unfold dev_w, WSS. field. exact HW. }
    rewrite E.
    assert (0 <= sq (wmean pws - c)) by apply (dev_nonneg sq_deviation).
    nra.
Qed.

(** X7.  Splitting a range never lowers the weighted MSE gain either, when no
    weight is negative: the gains of the two parts, each weighted by its
    share of the weight, sum to at least the gain of the whole range. *)
Theorem weighted_split_never_hurts (predictors weights : list Q) (start mid end_ : N) :
  (start <= mid)%N -> (mid < end_)%N ->
  (end_ < Size.n_elem predictors)%N -> (end_ < Size.n_elem weights)%N ->
  nonneg_weights (weighted_slice predictors weights start end_) ->
  exists leftGain rightGain gain,
    MSEGain.Evaluate true predictors weights start mid = Some leftGain /\
    MSEGain.Evaluate true predictors weights (mid + 1) end_ = Some rightGain /\
    MSEGain.Evaluate true predictors weights start end_ = Some gain /\
    gain <= wsum (weighted_slice predictors weights start mid)
              / wsum (weighted_slice predictors weights start end_) * leftGain
            + wsum (weighted_slice predictors weights (mid + 1) end_)
              / wsum (weighted_slice predictors weights start end_) * rightGain.
Proof.
  intros Hsm Hme Hp Hw Hnn.
  destruct (gain_weighted MSE_is_gain start (end_ := mid) (ps := predictors) (ws := weights)
              ltac:(lia) ltac:(lia)) as [gl [Hgl [Hzl Hnl]]].
  destruct (gain_weighted MSE_is_gain (mid + 1)%N Hp Hw) as [gr [Hgr [Hzr Hnr]]].
  destruct (gain_weighted MSE_is_gain start Hp Hw) as [g [Hg [Hz Hn]]].
  exists gl, gr, g. repeat split; try assumption.
  rewrite (weighted_slice_split Hsm Hme Hp Hw) in *.
  set (l := weighted_slice predictors weights start mid) in *.
  set (r := weighted_slice predictors weights (mid + 1) end_) in *.
  unfold nonneg_weights in Hnn. apply Forall_app in Hnn. destruct Hnn as [Hnl' Hnr'].
  pose proof (wsum_nonneg Hnl') as Hl0. pose proof (wsum_nonneg Hnr') as Hr0.
  pose proof (wsum_app l r) as HW.
  destruct (Qeq_dec (wsum (l ++ r)) 0) as [H0|H0].
  - assert (Hl : wsum l == 0) by lra. assert (Hr : wsum r == 0) by lra.
    rewrite (Hz H0), (Hzl Hl), (Hzr Hr). rewrite H0. unfold Qdiv. lra.
  - assert (HWp : 0 < wsum (l ++ r)) by lra.
    pose proof (@weighted_gain_least gl (wmean (l ++ r)) l Hnl' Hzl Hnl) as H1.
    pose proof (@weighted_gain_least gr (wmean (l ++ r)) r Hnr' Hzr Hnr) as H2.
    pose proof (@WSS_app (wmean (l ++ r)) l r) as H3.
    assert (E : wsum (l ++ r) * - g == WSS (wmean (l ++ r)) (l ++ r)).
    { rewrite (Hn H0). unfold dev_w, WSS. field. exact H0. }
    apply Qmult_le_l with (z := wsum (l ++ r)); [exact HWp|].
    setoid_replace (wsum (l ++ r) * (wsum l / wsum (l ++ r) * gl
                                     + wsum r / wsum (l ++ r) * gr))
      with (wsum l * gl + wsum r * gr) by (field; exact H0).
    lra.
Qed.

Lemma weighted_split_never_hurts_witness :
  exists leftGain rightGain gain,
    MSEGain.Evaluate true [1; 2; 9; 8; 7] [2; 0; 1; 3; 1] 0 1 = Some leftGain /\
    MSEGain.Evaluate true [1; 2; 9; 8; 7] [2; 0; 1; 3; 1] (1 + 1) 4 = Some rightGain /\
    MSEGain.Evaluate true [1; 2; 9; 8; 7] [2; 0; 1; 3; 1] 0 4 = Some gain /\
    gain <= wsum (weighted_slice [1; 2; 9; 8; 7] [2; 0; 1; 3; 1] 0 1)
              / wsum (weighted_slice [1; 2; 9; 8; 7] [2; 0; 1; 3; 1] 0 4) * leftGain
            + wsum (weighted_slice [1; 2; 9; 8; 7] [2; 0; 1; 3; 1] (1 + 1) 4)
              / wsum (weighted_slice [1; 2; 9; 8; 7] [2; 0; 1; 3; 1] 0 4) * rightGain.
Proof.
  apply (@weighted_split_never_hurts [1; 2; 9; 8; 7] [2; 0; 1; 3; 1] 0%N 1%N 4%N);
    try reflexivity.
  - discriminate.
  - unfold nonneg_weights. simpl. repeat constructor; simpl; discriminate.
Defined.

(** ** Weights as multiplicities *)

Lemma Qsum_replicated (h : Q -> Q) (ps : list Q) (ks : list nat) :
  Qsum (map h (replicated ps ks))
  == Qsum (map (fun pw => snd pw * h (fst pw)) (combine ps (count_weights ks))).
Proof.
  unfold replicated, count_weights. revert ks.
  induction ps as [|p ps IH]; intros [|k ks]; simpl; try reflexivity.
  rewrite map_app, Qsum_app, map_repeat, Qsum_repeat, IH. reflexivity.
Qed.

Lemma len_replicated (ps : list Q) (ks : list nat) :
  len (replicated ps ks) == wsum (combine ps (count_weights ks)).
Proof.
  pose proof (Qsum_map_const 1 (replicated ps ks)) as H.
  rewrite Qmult_1_r in H. rewrite <- H.
  rewrite (Qsum_replicated (fun _ => 1)). unfold wsum.
  rewrite <- (Qsum_map_ext (f := snd) (g := fun pw : Q * Q => snd pw * 1)
               (l := combine ps (count_weights ks))); [reflexivity|].
  apply Forall_forall. intros x _. ring.
Qed.

Lemma mean_replicated (ps : list Q) (ks : list nat) :
  mean (replicated ps ks) == wmean (combine ps (count_weights ks)).
Proof.
  unfold mean, wmean. rewrite len_replicated.
  rewrite <- (Qsum_map_id (replicated ps ks)), (Qsum_replicated (fun x => x)).
  rewrite (Qsum_map_ext (f := fun pw : Q * Q => snd pw * fst pw)
             (g := fun pw : Q * Q => fst pw * snd pw)); [reflexivity|].
  apply Forall_forall. intros x _. ring.
Qed.

Lemma dev_replicated (d : Q -> Q) (ps : list Q) (ks : list nat) :
  deviation d ->
  dev_u d (replicated ps ks) == dev_w d (combine ps (count_weights ks)).
Proof.
  intros Hd. unfold dev_u, dev_w. rewrite len_replicated.
  rewrite (Qsum_replicated (fun p => d (p - mean (replicated ps ks)))).
  pose proof (mean_replicated ps ks) as Hm.
  rewrite (Qsum_map_ext
             (f := fun pw : Q * Q => snd pw * d (fst pw - mean (replicated ps ks)))
             (g := fun pw : Q * Q =>
                     snd pw * d (fst pw - wmean (combine ps (count_weights ks)))));
    [reflexivity|].
  apply Forall_forall. intros x _.
  rewrite (dev_proper Hd (x := fst x - mean (replicated ps ks))
             (y := fst x - wmean (combine ps (count_weights ks)))); [reflexivity|].
  rewrite Hm. reflexivity.
Qed.

Lemma replicated_whole Ev d (ps ws' : list Q) (ks : list nat) :
  is_gain Ev d ->
  Size.fits ps -> Size.fits (replicated ps ks) ->
  length ks = length ps -> replicated ps ks <> [] ->
  gain_rel Qeq (Ev true ps (count_weights ks) 0%N (Size.n_elem ps - 1)%N)
               (Ev false (replicated ps ks) ws' 0%N
                  (Size.n_elem (replicated ps ks) - 1)%N).
Proof.
  intros HG Hfit Hfit' Hlen Hne'.
  assert (Hne : ps <> []) by (intros ->; apply Hne'; reflexivity).
  assert (Hlenw : length (count_weights ks) = length ps)
    by (unfold count_weights; now rewrite length_map).
  destruct (whole_range Hne Hfit) as [_ [_ [Hle Hlt]]].
  destruct (whole_range Hne' Hfit') as [_ [_ [Hle' Hlt']]].
  assert (Hltw : (Size.n_elem ps - 1 < Size.n_elem (count_weights ks))%N).
  { unfold Size.n_elem in *. now rewrite Hlenw. }
  destruct (gain_weighted HG 0%N Hlt Hltw) as [g [Hg [_ Hnz]]].
  destruct (gain_unweighted HG ws' Hle' Hlt' Hfit') as [g' [Hg' Hv']].
  exists g, g'. split; [exact Hg|]. split; [exact Hg'|].
  rewrite (weighted_slice_all Hne Hlenw) in Hnz.
  rewrite (slice_all Hne') in Hv'.
  rewrite Hv', Hnz.
  - rewrite (dev_replicated ps ks (gain_deviation HG)). reflexivity.
  - rewrite <- len_replicated. apply len_nonzero, Hne'.
Qed.

(** X8.  An integer weight is a multiplicity: the weighted gain of a sample
    whose weights are the counts [k] equals the unweighted gain of the sample
    in which each response is repeated [k] times, for MSE and for MAD. *)
Theorem weights_as_multiplicities (predictors weights' : list Q) (counts : list nat) :
  Size.fits predictors -> Size.fits (replicated predictors counts) ->
  length counts = length predictors ->
  replicated predictors counts <> [] ->
  gain_rel Qeq (MSEGain.EvaluateAll true predictors (count_weights counts))
               (MSEGain.EvaluateAll false (replicated predictors counts) weights') /\
  gain_rel Qeq (MADGain.EvaluateAll true predictors (count_weights counts))
               (MADGain.EvaluateAll false (replicated predictors counts) weights').
Proof.
  intros Hfit Hfit' Hlen Hne'.
  assert (Hne : predictors <> []) by (intros ->; apply Hne'; reflexivity).
  rewrite (MSE_EvaluateAll_nonempty _ _ Hne Hfit), (MSE_EvaluateAll_nonempty _ _ Hne' Hfit').
  rewrite (MAD_EvaluateAll_nonempty _ _ Hne Hfit), (MAD_EvaluateAll_nonempty _ _ Hne' Hfit').
  split.
  - exact (replicated_whole weights' MSE_is_gain Hfit Hfit' Hlen Hne').
  - exact (replicated_whole weights' MAD_is_gain Hfit Hfit' Hlen Hne').
Qed.

Lemma weights_as_multiplicities_witness :
  gain_rel Qeq (MSEGain.EvaluateAll true [1; 5; 2] (count_weights [2; 0; 3]%nat))
               (MSEGain.EvaluateAll false (replicated [1; 5; 2] [2; 0; 3]%nat) []) /\
  gain_rel Qeq (MADGain.EvaluateAll true [1; 5; 2] (count_weights [2; 0; 3]%nat))
               (MADGain.EvaluateAll false (replicated [1; 5; 2] [2; 0; 3]%nat) []).
Proof.
  apply (@weights_as_multiplicities [1; 5; 2] [] [2; 0; 3]%nat).
  - reflexivity.
  - reflexivity.
  - reflexivity.
  - discriminate.
Defined.

(** ** A range with [start > end] *)

Lemma indices_inverted (start end_ : N) : (end_ < start)%N -> indices start end_ = [].
Proof.
  intros H. unfold indices.
  replace (N.to_nat (N.succ end_ - start)) with 0%nat by lia. reflexivity.
Qed.

(** X9.  On a range with [start > end] the loops of [Evaluate] run no
    iteration and read nothing, whatever the vectors hold: the unweighted
    variants return [-0.0] and the weighted ones return [0.0] through the
    zero-weight guard. *)
Theorem inverted_range (T : Type) (A : Arith T) (predictors weights : list T)
    (start end_ : N) :
  (end_ < start)%N -> eqb zero zero = true ->
  (MSEGain.Evaluate false predictors weights start end_ = Some (opp zero) /\
   MADGain.Evaluate false predictors weights start end_ = Some (opp zero)) /\
  (MSEGain.Evaluate true predictors weights start end_ = Some zero /\
   MADGain.Evaluate true predictors weights start end_ = Some zero).
Proof.
  intros Hlt Hz. unfold MSEGain.Evaluate, MADGain.Evaluate, for_loop.
  rewrite (indices_inverted Hlt). cbn [for_each bind]. rewrite Hz.
  repeat split; reflexivity.
Qed.

Lemma inverted_range_witness :
  (MSEGain.Evaluate (A := binary64) false [] [] 5 2 = Some (-0)%float /\
   MADGain.Evaluate (A := binary64) false [] [] 5 2 = Some (-0)%float) /\
  (MSEGain.Evaluate (A := binary64) true [] [] 5 2 = Some 0%float /\
   MADGain.Evaluate (A := binary64) true [] [] 5 2 = Some 0%float).
Proof.
  apply (@inverted_range float binary64 [] [] 5%N 2%N); reflexivity.
Defined.

(** ** The sign of the gains in binary64 *)

Lemma round_aux_clear (m e : Z) (l : location) :
  sf_clear (binary_round_aux prec emax false m e l) = true.
Proof.
  unfold binary_round_aux.
  destruct (shr_fexp prec emax m e l) as [mrs' e'].
  destruct (shr_fexp prec emax _ e' loc_Exact) as [mrs'' e''].
  destruct (shr_m mrs''); [reflexivity| |reflexivity].
  destruct (e'' <=? emax - prec)%Z; reflexivity.
Qed.

Lemma SFmul_clear (x y : spec_float) :
  sf_clear x = true -> sf_clear y = true -> sf_clear (SF64mul x y) = true.
Proof.
  unfold SF64mul, SFmul.
  destruct x as [sx|sx| |sx mx ex], y as [sy|sy| |sy my ey]; simpl;
    intros Hx Hy; try reflexivity;
    apply negb_true_iff in Hx; apply negb_true_iff in Hy; subst; try reflexivity.
  apply round_aux_clear.
Qed.

Lemma SFmul_self_clear (x : spec_float) : sf_clear (SF64mul x x) = true.
Proof.
  unfold SF64mul, SFmul.
  destruct x as [sx|sx| |sx mx ex]; simpl; try reflexivity;
    try (now rewrite xorb_nilpotent).
  rewrite xorb_nilpotent. apply round_aux_clear.
Qed.

Lemma SFdiv_clear (x y : spec_float) :
  sf_clear x = true -> sf_clear y = true -> sf_clear (SF64div x y) = true.
Proof.
  unfold SF64div, SFdiv.
  destruct x as [sx|sx| |sx mx ex], y as [sy|sy| |sy my ey]; simpl;
    intros Hx Hy; try reflexivity;
    apply negb_true_iff in Hx; apply negb_true_iff in Hy; subst; try reflexivity.
  destruct (SFdiv_core_binary prec emax (Z.pos mx) ex (Z.pos my) ey) as [[mz ez] lz].
  apply round_aux_clear.
Qed.

Lemma round_clear (m : positive) (e : Z) : sf_clear (binary_round prec emax false m e) = true.
Proof.
  unfold binary_round. destruct (shl_align _ _ _) as [mz ez]. apply round_aux_clear.
Qed.

Lemma SFadd_clear (x y : spec_float) :
  sf_clear x = true -> sf_clear y = true -> sf_clear (SF64add x y) = true.
Proof.
  unfold SF64add, SFadd.
  destruct x as [sx|sx| |sx mx ex], y as [sy|sy| |sy my ey]; simpl;
    intros Hx Hy; try reflexivity;
    apply negb_true_iff in Hx; apply negb_true_iff in Hy; subst; try reflexivity.
  apply round_clear.
Qed.

Lemma mul_clear (x y : float) :
  sign_clear x = true -> sign_clear y = true -> sign_clear (PrimFloat.mul x y) = true.
Proof. unfold sign_clear. rewrite mul_spec. apply SFmul_clear. Qed.

Lemma mul_self_clear (x : float) : sign_clear (PrimFloat.mul x x) = true.
Proof. unfold sign_clear. rewrite mul_spec. apply SFmul_self_clear. Qed.

Lemma div_clear (x y : float) :
  sign_clear x = true -> sign_clear y = true -> sign_clear (PrimFloat.div x y) = true.
Proof. unfold sign_clear. rewrite div_spec. apply SFdiv_clear. Qed.

Lemma add_clear (x y : float) :
  sign_clear x = true -> sign_clear y = true -> sign_clear (PrimFloat.add x y) = true.
Proof. unfold sign_clear. rewrite add_spec. apply SFadd_clear. Qed.

Lemma abs_clear (x : float) : sign_clear (PrimFloat.abs x) = true.
Proof.
  unfold sign_clear. rewrite abs_spec. destruct (Prim2SF x); reflexivity.
Qed.

Lemma of_uint63_clear (n : Uint63.int) : sign_clear (PrimFloat.of_uint63 n) = true.
Proof.
  unfold sign_clear. rewrite of_uint63_spec. unfold binary_normalize.
  pose proof (Uint63.to_Z_bounded n) as Hb.
  destruct (Uint63.to_Z n) as [|p|p]; [reflexivity|apply round_clear|lia].
Qed.

Lemma of_size_clear (n : N) : sign_clear (f64_of_size n) = true.
Proof.
  unfold f64_of_size. destruct (_ <? _)%Z.
  - apply of_uint63_clear.
  - apply mul_clear; [apply of_uint63_clear|reflexivity].
Qed.

Lemma opp_clear_not_positive (x : float) :
  sign_clear x = true -> PrimFloat.ltb 0 (PrimFloat.opp x) = false.
Proof.
  unfold sign_clear. intros H. rewrite ltb_spec, opp_spec.
  change (Prim2SF 0) with (S754_zero false).
  destruct (Prim2SF x) as [s|s| |s m e]; simpl in *; try reflexivity;
    apply negb_true_iff in H; subst; reflexivity.
Qed.

(** What a loop keeps. *)
Lemma for_each_invariant {S : Type} (P : S -> Prop) (idx : list N)
    (body : N -> S -> option S) (s0 s : S) :
  (forall i a b, P a -> body i a = Some b -> P b) ->
  P s0 -> for_each idx body s0 = Some s -> P s.
Proof.
  intros Hb. revert s0. induction idx as [|i idx IH]; intros s0 H0 Hr; simpl in Hr.
  - now inversion Hr; subst.
  - destruct (body i s0) as [s1|] eqn:H1; simpl in Hr; [|discriminate].
    apply (IH s1); [eapply Hb; eauto|exact Hr].
Qed.

Ltac split_bind H E :=
  match type of H with
  | bind ?x _ = Some _ =>
      let r := fresh "r" in
      destruct x as [r|] eqn:E; cbn [bind] in H; [|discriminate H]
  end.

Lemma weights_clear (weights : list float) (i : N) (w : float) :
  Forall (fun w => sign_clear w = true) weights ->
  at_ weights i = Some w -> sign_clear w = true.
Proof.
  intros Hall Hw. unfold at_ in Hw. apply nth_error_In in Hw.
  rewrite Forall_forall in Hall. now apply Hall.
Qed.

(** The weight loop keeps the sign bit of the accumulated weight clear. *)
Lemma weight_loop_clear (predictors weights : list float) (start end_ : N)
    (accWeights weightedMean : float) :
  Forall (fun w => sign_clear w = true) weights ->
  for_loop start end_
    (fun i '(accWeights, weightedMean) =>
       w <- at_ weights i ;; p <- at_ predictors i ;;
       Some (PrimFloat.add accWeights w, PrimFloat.add weightedMean (PrimFloat.mul p w)))
    (0%float, 0%float) = Some (accWeights, weightedMean) ->
  sign_clear accWeights = true.
Proof.
  intros Hall Hloop. unfold for_loop in Hloop.
  apply (for_each_invariant (P := fun s : float * float => sign_clear (fst s) = true)
           (s0 := (0%float, 0%float)) (s := (accWeights, weightedMean))
           (idx := indices start end_)
           (body := fun i '(accWeights, weightedMean) =>
                      w <- at_ weights i ;; p <- at_ predictors i ;;
                      Some (PrimFloat.add accWeights w,
                            PrimFloat.add weightedMean (PrimFloat.mul p w))));
    [|reflexivity|exact Hloop].
  intros i [aw wm] b Ha Hb. simpl in Ha.
  destruct (at_ weights i) as [w|] eqn:Hw; cbn [bind] in Hb; [|discriminate].
  destruct (at_ predictors i) as [p|]; cbn [bind] in Hb; [|discriminate].
  inversion Hb; subst. simpl. apply add_clear; [exact Ha|].
  exact (weights_clear Hall Hw).
Qed.

(** A loop that adds terms of clear sign bit, starting from [0.0]. *)
Lemma sum_loop_clear (predictors : list float) (start end_ : N)
    (term : float -> float) (acc : float) :
  (forall p, sign_clear (term p) = true) ->
  for_loop start end_
    (fun i acc => p <- at_ predictors i ;; Some (PrimFloat.add acc (term p))) 0%float
  = Some acc ->
  sign_clear acc = true.
Proof.
  intros Ht Hloop. unfold for_loop in Hloop.
  apply (for_each_invariant (P := fun a => sign_clear a = true) (s0 := 0%float)
           (idx := indices start end_)
           (body := fun i acc => p <- at_ predictors i ;;
                                 Some (PrimFloat.add acc (term p))));
    [|reflexivity|exact Hloop].
  intros i a b Ha Hb.
  destruct (at_ predictors i) as [p|]; cbn [bind] in Hb; [|discriminate].
  inversion Hb; subst. apply add_clear; [exact Ha|apply Ht].
Qed.

Lemma weighted_sum_loop_clear (predictors weights : list float) (start end_ : N)
    (term : float -> float) (accWeights acc : float) :
  Forall (fun w => sign_clear w = true) weights ->
  sign_clear accWeights = true ->
  (forall p, sign_clear (term p) = true) ->
  for_loop start end_
    (fun i acc => w <- at_ weights i ;; p <- at_ predictors i ;;
       Some (PrimFloat.add acc (PrimFloat.div (PrimFloat.mul w (term p)) accWeights)))
    0%float
  = Some acc ->
  sign_clear acc = true.
Proof.
  intros Hall HW Ht Hloop. unfold for_loop in Hloop.
  apply (for_each_invariant (P := fun a => sign_clear a = true) (s0 := 0%float)
           (idx := indices start end_)
           (body := fun i acc => w <- at_ weights i ;; p <- at_ predictors i ;;
                      Some (PrimFloat.add acc
                              (PrimFloat.div (PrimFloat.mul w (term p)) accWeights))));
    [|reflexivity|exact Hloop].
  intros i a b Ha Hb.
  destruct (at_ weights i) as [w|] eqn:Hw; cbn [bind] in Hb; [|discriminate].
  destruct (at_ predictors i) as [p|]; cbn [bind] in Hb; [|discriminate].
  inversion Hb; subst. apply add_clear; [exact Ha|].
  apply div_clear; [|exact HW].
  apply mul_clear; [exact (weights_clear Hall Hw)|apply Ht].
Qed.

(** What [Evaluate] returns in binary64 is not greater than 0. *)
Lemma binary64_gain_sign (UseWeights : bool)
    (predictors weights : list float) (start end_ : N) :
  (UseWeights = true -> Forall (fun w => sign_clear w = true) weights) ->
  (forall g, MSEGain.Evaluate (A := binary64) UseWeights predictors weights start end_
             = Some g -> PrimFloat.ltb 0 g = false) /\
  (forall g, MADGain.Evaluate (A := binary64) UseWeights predictors weights start end_
             = Some g -> PrimFloat.ltb 0 g = false).
Proof.
  intros Hw. destruct UseWeights.
  - specialize (Hw eq_refl). split; intros g H.
    + unfold MSEGain.Evaluate in H. cbn [zero add sub mul div opp pow2 eqb binary64] in H.
      cbv zeta in H.
      split_bind H E1. destruct r as [accWeights weightedMean].
      pose proof (weight_loop_clear Hw E1) as HW.
      destruct (PrimFloat.eqb accWeights 0).
      { inversion H; subst. reflexivity. }
      split_bind H E2. inversion H; subst.
      apply opp_clear_not_positive.
      apply (weighted_sum_loop_clear
               (term := fun p => PrimFloat.mul
                                   (PrimFloat.sub p (PrimFloat.div weightedMean accWeights))
                                   (PrimFloat.sub p (PrimFloat.div weightedMean accWeights)))
               Hw HW (fun p => mul_self_clear _) E2).
    + unfold MADGain.Evaluate in H. cbn [zero add sub mul div opp fabs eqb binary64] in H.
      cbv zeta in H.
      split_bind H E1. destruct r as [accWeights weightedMean].
      pose proof (weight_loop_clear Hw E1) as HW.
      destruct (PrimFloat.eqb accWeights 0).
      { inversion H; subst. reflexivity. }
      split_bind H E2. inversion H; subst.
      apply opp_clear_not_positive.
      apply (weighted_sum_loop_clear
               (term := fun p => PrimFloat.abs
                                   (PrimFloat.sub p (PrimFloat.div weightedMean accWeights)))
               Hw HW (fun p => abs_clear _) E2).
  - clear Hw. split; intros g H.
    + unfold MSEGain.Evaluate in H.
      cbn [zero one add sub mul div opp pow2 of_size binary64] in H. cbv zeta in H.
      split_bind H E1. split_bind H E2. inversion H; subst.
      apply opp_clear_not_positive.
      apply (sum_loop_clear
               (term := fun p =>
                  PrimFloat.div
                    (PrimFloat.mul 1
                       (PrimFloat.mul
                          (PrimFloat.sub p (PrimFloat.div r
                             (f64_of_size (Size.add (Size.sub end_ start) 1))))
                          (PrimFloat.sub p (PrimFloat.div r
                             (f64_of_size (Size.add (Size.sub end_ start) 1))))))
                    (f64_of_size (Size.add (Size.sub end_ start) 1)))
               (predictors := predictors) (start := start) (end_ := end_)); [|exact E2].
      intros p. apply div_clear; [|apply of_size_clear].
      apply mul_clear; [reflexivity|apply mul_self_clear].
    + unfold MADGain.Evaluate in H.
      cbn [zero one add sub mul div opp fabs of_size binary64] in H. cbv zeta in H.
      split_bind H E1. split_bind H E2. inversion H; subst.
      apply opp_clear_not_positive.
      apply (sum_loop_clear
               (term := fun p =>
                  PrimFloat.div
                    (PrimFloat.abs
                       (PrimFloat.sub p (PrimFloat.div r
                          (f64_of_size (Size.add (Size.sub end_ start) 1)))))
                    (f64_of_size (Size.add (Size.sub end_ start) 1)))
               (predictors := predictors) (start := start) (end_ := end_)); [|exact E2].
      intros p. apply div_clear; [apply abs_clear|apply of_size_clear].
Qed.

(** On a range inside the vectors [Evaluate] returns, in every arithmetic. *)
Lemma Evaluate_returns {T : Type} {A : Arith T} (UseWeights : bool)
    (predictors weights : list T) (start end_ : N) :
  (end_ < Size.n_elem predictors)%N ->
  (UseWeights = true -> (end_ < Size.n_elem weights)%N) ->
  (exists g, MSEGain.Evaluate UseWeights predictors weights start end_ = Some g) /\
  (exists g, MADGain.Evaluate UseWeights predictors weights start end_ = Some g).
Proof.
  intros Hp Hw. destruct UseWeights.
  - specialize (Hw eq_refl). split.
    + unfold MSEGain.Evaluate.
      rewrite (weighted_as_fold (fun p mean => pow2 (sub p mean)) start Hp Hw).
      cbv zeta. destruct (fold_left _ _ _) as [aw wm].
      destruct (eqb aw zero); eauto.
    + unfold MADGain.Evaluate.
      rewrite (weighted_as_fold (fun p mean => fabs (sub p mean)) start Hp Hw).
      cbv zeta. destruct (fold_left _ _ _) as [aw wm].
      destruct (eqb aw zero); eauto.
  - split.
    + unfold MSEGain.Evaluate.
      rewrite (unweighted_as_fold (fun p mean => mul one (pow2 (sub p mean))) start Hp).
      eauto.
    + unfold MADGain.Evaluate.
      rewrite (unweighted_as_fold (fun p mean => fabs (sub p mean)) start Hp).
      eauto.
Qed.

(** X10.  In binary64 no call of [Evaluate] returns a gain greater than 0.
    On a range inside the vectors the call returns, and the gain is not
    greater than 0: for the unweighted variants on every input whatsoever,
    for the weighted ones whenever no weight has its sign bit set.  (The
    gain is a negative number, a zero or not a number.) *)
Theorem binary64_gain_never_positive (UseWeights : bool)
    (predictors weights : list float) (start end_ : N) :
  (end_ < Size.n_elem predictors)%N ->
  (UseWeights = true ->
   (end_ < Size.n_elem weights)%N /\ Forall (fun w => sign_clear w = true) weights) ->
  (exists g, MSEGain.Evaluate (A := binary64) UseWeights predictors weights start end_
             = Some g /\ PrimFloat.ltb 0 g = false) /\
  (exists g, MADGain.Evaluate (A := binary64) UseWeights predictors weights start end_
             = Some g /\ PrimFloat.ltb 0 g = false).
Proof.
  intros Hp Hw.
  destruct (@Evaluate_returns float binary64 UseWeights predictors weights start end_ Hp
              (fun H => proj1 (Hw H))) as [[g1 H1] [g2 H2]].
  destruct (@binary64_gain_sign UseWeights predictors weights start end_
              (fun H => proj2 (Hw H))) as [S1 S2].
  split.
  - exists g1. split; [exact H1|exact (S1 g1 H1)].
  - exists g2. split; [exact H2|exact (S2 g2 H2)].
Qed.

Lemma binary64_gain_never_positive_witness :
  (exists g, MSEGain.Evaluate (A := binary64) true
               [0x1.999999999999ap-4; 0x1.999999999999ap-3; 0x1.6666666666666p-1]%float
               [0.5; 0; 2]%float 0 2 = Some g /\ PrimFloat.ltb 0 g = false) /\
  (exists g, MADGain.Evaluate (A := binary64) true
               [0x1.999999999999ap-4; 0x1.999999999999ap-3; 0x1.6666666666666p-1]%float
               [0.5; 0; 2]%float 0 2 = Some g /\ PrimFloat.ltb 0 g = false).
Proof.
  apply (@binary64_gain_never_positive true
           [0x1.999999999999ap-4; 0x1.999999999999ap-3; 0x1.6666666666666p-1]%float
           [0.5; 0; 2]%float 0%N 2%N).
  - reflexivity.
  - intros _. split; [reflexivity|repeat constructor].
Defined.

(** ** Counting loops *)

Lemma from_to_zero (n : N) : from_to 0 n = map N.of_nat (seq 0 (N.to_nat n)).
Proof. unfold from_to. simpl. now rewrite Nat.sub_0_r. Qed.

Lemma in_from_to (first n i : N) : In i (from_to first n) <-> (first <= i < n)%N.
Proof.
  unfold from_to. rewrite in_map_iff. split.
  - intros [j [<- Hj]]. apply in_seq in Hj. lia.
  - intros Hi. exists (N.to_nat i). split; [apply N2Nat.id|]. apply in_seq. lia.
Qed.

(** A loop whose body is defined at every index returns. *)
Lemma for_each_returns {S : Type} (idx : list N) (body : N -> S -> option S) (s : S) :
  (forall i s', In i idx -> exists s'', body i s' = Some s'') ->
  exists r, for_each idx body s = Some r.
Proof.
  revert s. induction idx as [|i idx IH]; intros s Hb; simpl.
  - eauto.
  - destruct (Hb i s (or_introl eq_refl)) as [s1 ->]. simpl.
    apply IH. intros j s' Hj. apply Hb. now right.
Qed.

(** ** The splitting dimension of an axis-parallel hyperplane *)

Section AxisSplit.
Context {Range Col : Type}.
Variables (Width Mid : Range -> Q).

Lemma axis_loop (bound : list Range) (k s : nat) (mw0 mw : Q) (sd0 sd : N) :
  for_each (map N.of_nat (seq s k))
    (fun d '(maxWidth, splitDim) =>
       r <- at_ bound d ;;
       let width := Width r in
       if ltb maxWidth width then Some (width, d) else Some (maxWidth, splitDim))
    (mw0, sd0) = Some (mw, sd) ->
  mw0 <= mw /\
  (forall j r, (s <= j < s + k)%nat -> at_ bound (N.of_nat j) = Some r -> Width r <= mw) /\
  ((mw = mw0 /\ sd = sd0) \/
   (exists j r, sd = N.of_nat j /\ (s <= j < s + k)%nat /\
                at_ bound sd = Some r /\ mw = Width r /\ mw0 < mw /\
                forall j' r', (s <= j' < j)%nat ->
                              at_ bound (N.of_nat j') = Some r' -> Width r' < mw)).
Proof.
  revert s mw0 sd0. induction k as [|k IH]; intros s mw0 sd0 H.
  - simpl in H. inversion H; subst. split; [apply Qle_refl|].
    split; [intros j r Hj; lia|]. left. split; reflexivity.
  - cbn [seq map for_each] in H.
    destruct (at_ bound (N.of_nat s)) as [r0|] eqn:Hr0; cbn [bind] in H; [|discriminate].
    cbv zeta in H. destruct (ltb mw0 (Width r0)) eqn:Hcmp; cbn [bind] in H.
    + apply Q_ltb_true in Hcmp.
      destruct (IH _ _ _ H) as [Hle [Hall Hsel]].
      split; [lra|]. split.
      * intros j r Hj Hr. destruct (Nat.eq_dec j s) as [->|Hne].
        -- rewrite Hr0 in Hr. inversion Hr; subst. exact Hle.
        -- apply (Hall j r); [lia|exact Hr].
      * right. destruct Hsel as [[-> ->]|[j [r [Hsd [Hj [Hr [Hmw [Hlt Hfirst]]]]]]]].
        -- exists s, r0.
           split; [reflexivity|]. split; [lia|]. split; [exact Hr0|].
           split; [reflexivity|]. split; [exact Hcmp|].
           intros j' r' Hj'. lia.
        -- exists j, r.
           split; [exact Hsd|]. split; [lia|]. split; [exact Hr|].
           split; [exact Hmw|]. split; [lra|].
           intros j' r' Hj' Hr'. destruct (Nat.eq_dec j' s) as [->|Hne].
           ++ rewrite Hr0 in Hr'. inversion Hr'; subst. lra.
           ++ apply (Hfirst j' r'); [lia|exact Hr'].
    + apply Q_ltb_false in Hcmp.
      destruct (IH _ _ _ H) as [Hle [Hall Hsel]].
      split; [exact Hle|]. split.
      * intros j r Hj Hr. destruct (Nat.eq_dec j s) as [->|Hne].
        -- rewrite Hr0 in Hr. inversion Hr; subst. lra.
        -- apply (Hall j r); [lia|exact Hr].
      * destruct Hsel as [Hsame|[j [r [Hsd [Hj [Hr [Hmw [Hlt Hfirst]]]]]]]].
        -- left. exact Hsame.
        -- right. exists j, r.
           split; [exact Hsd|]. split; [lia|]. split; [exact Hr|].
           split; [exact Hmw|]. split; [lra|].
           intros j' r' Hj' Hr'. destruct (Nat.eq_dec j' s) as [->|Hne].
           ++ rewrite Hr0 in Hr'. inversion Hr'; subst. lra.
           ++ apply (Hfirst j' r'); [lia|exact Hr'].
Qed.

Lemma Q_leb_true (x y : Q) : leb x y = true -> x <= y.
Proof.
  unfold leb. intros H. apply orb_prop in H. destruct H as [H|H].
  - apply Qlt_le_weak, Q_ltb_true, H.
  - cbn [eqb exactQ] in H. apply Qeq_bool_iff in H. rewrite H. apply Qle_refl.
Qed.

Lemma Q_leb_false (x y : Q) : leb x y = false -> y < x.
Proof.
  unfold leb. intros H. apply orb_false_elim in H. destruct H as [H1 H2].
  apply Q_ltb_false in H1. cbn [eqb exactQ] in H2. apply Qeq_bool_neq in H2.
  destruct (Qle_lt_or_eq _ _ H1) as [Hlt|Heq]; [exact Hlt|].
  exfalso. apply H2. symmetry. exact Heq.
Qed.

End AxisSplit.

(** X11.  The axis-parallel [GetProjVector] picks the widest dimension of the
    bound.  With a range for each of the [n_rows] dimensions the call
    returns; it answers [false] exactly when no dimension has a positive
    width, and otherwise the split dimension is the first one of the largest
    width, that width is positive, and [midValue] is the middle of its
    range. *)
Theorem axis_split_widest_dimension {Range Col : Type} (Width Mid : Range -> Q)
    (bound : list Range) (data : Mat Col) (points : list N) :
  (n_rows data <= Size.n_elem bound)%N ->
  exists res,
    SpaceSplit.GetProjVectorAxis (A := exactQ) Width Mid bound data points = Some res /\
    match res with
    | None =>
        forall d r, (d < n_rows data)%N -> at_ bound d = Some r -> Width r <= 0
    | Some (splitDim, midValue) =>
        exists r,
          (splitDim < n_rows data)%N /\ at_ bound splitDim = Some r /\
          midValue = Mid r /\ 0 < Width r /\
          (forall d r', (d < n_rows data)%N -> at_ bound d = Some r' ->
                        Width r' <= Width r) /\
          (forall d r', (d < splitDim)%N -> at_ bound d = Some r' ->
                        Width r' < Width r)
    end.
Proof.
  intros Hrows. unfold SpaceSplit.GetProjVectorAxis.
  match goal with
  | |- context [for_each ?idx ?body ?s0] =>
      destruct (@for_each_returns _ idx body s0) as [[mw sd] Hloop]
  end.
  { intros i [m d] Hi. apply in_from_to in Hi.
    destruct (at_in_bounds (v := bound) (i := i)) as [r Hr]; [lia|].
    rewrite Hr. cbn [bind]. cbv zeta.
    destruct (ltb m (Width r)); eauto. }
  rewrite Hloop. cbn [bind].
  rewrite from_to_zero in Hloop.
  destruct (axis_loop Hloop) as [Hle [Hall Hsel]].
  assert (Hall' : forall d r, (d < n_rows data)%N -> at_ bound d = Some r -> Width r <= mw).
  { intros d r Hd Hr. apply (Hall (N.to_nat d) r); [lia|]. now rewrite N2Nat.id. }
  destruct (leb mw zero) eqn:Hz.
  - exists None. split; [reflexivity|].
    apply Q_leb_true in Hz. cbn [zero exactQ] in Hz.
    intros d r Hd Hr. specialize (Hall' d r Hd Hr). lra.
  - apply Q_leb_false in Hz. cbn [zero exactQ] in Hz.
    destruct Hsel as [[Hmw _]|[j [r [Hsd [Hj [Hr [Hmw [Hlt Hfirst]]]]]]]].
    + exfalso. rewrite Hmw in Hz. cbn [opp one exactQ] in Hz. lra.
    + rewrite Hr. cbn [bind]. exists (Some (sd, Mid r)). split; [reflexivity|].
      exists r. split; [lia|]. split; [exact Hr|]. split; [reflexivity|].
      rewrite <- Hmw. split; [exact Hz|]. split; [exact Hall'|].
      intros d r' Hd Hr'. apply (Hfirst (N.to_nat d) r'); [lia|].
      now rewrite N2Nat.id.
Qed.

Lemma axis_split_widest_dimension_witness :
  exists res,
    SpaceSplit.GetProjVectorAxis (A := exactQ) (Col := unit)
      (fun r : Q * Q => snd r - fst r) (fun r : Q * Q => (fst r + snd r) / 2)
      [(0, 1); (2, 7); (-1, 4); (3, 3)] {| n_rows := 4; cols := [] |} [] = Some res /\
    match res with
    | None =>
        forall d r, (d < 4)%N ->
          at_ [(0, 1); (2, 7); (-1, 4); (3, 3)] d = Some r -> snd r - fst r <= 0
    | Some (splitDim, midValue) =>
        exists r,
          (splitDim < 4)%N /\ at_ [(0, 1); (2, 7); (-1, 4); (3, 3)] splitDim = Some r /\
          midValue = (fst r + snd r) / 2 /\ 0 < snd r - fst r /\
          (forall d r', (d < 4)%N -> at_ [(0, 1); (2, 7); (-1, 4); (3, 3)] d = Some r' ->
                        snd r' - fst r' <= snd r - fst r) /\
          (forall d r', (d < splitDim)%N ->
                        at_ [(0, 1); (2, 7); (-1, 4); (3, 3)] d = Some r' ->
                        snd r' - fst r' < snd r - fst r)
    end.
Proof.
  apply (axis_split_widest_dimension (Col := unit)
           (fun r : Q * Q => snd r - fst r) (fun r : Q * Q => (fst r + snd r) / 2)
           (bound := [(0, 1); (2, 7); (-1, 4); (3, 3)])
           (data := {| n_rows := 4; cols := [] |}) []).
  vm_compute. discriminate.
Defined.

(** ** The mean split *)

Lemma reads_all {T : Type} (v : list T) : reads v (from_to 0 (Size.n_elem v)) v.
Proof.
  rewrite from_to_zero. unfold Size.n_elem. rewrite Nat2N.id.
  pose proof (@reads_seq T v (length v) 0) as H. simpl skipn in H.
  rewrite firstn_all in H. apply H. lia.
Qed.

Lemma Forall2_In_r {X Y : Type} (R : X -> Y -> Prop) (l : list X) (l' : list Y) (y : Y) :
  Forall2 R l l' -> In y l' -> exists x, In x l /\ R x y.
Proof.
  induction 1 as [|x0 y0 l l' Hxy _ IH]; simpl; intros Hin; [contradiction|].
  destruct Hin as [<-|Hin].
  - exists x0. auto.
  - destruct (IH Hin) as [x [Hx HR]]. exists x. auto.
Qed.

Lemma Forall2_In_l {X Y : Type} (R : X -> Y -> Prop) (l : list X) (l' : list Y) (x : X) :
  Forall2 R l l' -> In x l -> exists y, In y l' /\ R x y.
Proof.
  induction 1 as [|x0 y0 l l' Hxy _ IH]; simpl; intros Hin; [contradiction|].
  destruct Hin as [<-|Hin].
  - exists y0. auto.
  - destruct (IH Hin) as [y [Hy HR]]. exists y. auto.
Qed.

(** The summing loop of [MeanSpaceSplit::SplitSpace] is a fold over the
    columns of the points. *)
Lemma mean_loop {Col : Type} (f : Col -> Q) (data : Mat Col) (points : list N)
    (idx : list N) (ps : list N) (cs : list Col) (s : Q) :
  reads points idx ps ->
  Forall2 (fun p c => col data p = Some c) ps cs ->
  for_each idx
    (fun i splitVal =>
       p <- at_ points i ;; c <- col data p ;; Some (add splitVal (f c))) s
  = Some (fold_left (fun s c => s + f c) cs s).
Proof.
  intros Hr. revert cs s.
  induction Hr as [|i p idx ps Hp _ IH]; intros cs s Hc; inversion Hc; subst; simpl.
  - reflexivity.
  - rewrite Hp. simpl. match goal with H : col data p = Some _ |- _ => rewrite H end.
    simpl. apply IH. assumption.
Qed.

(** In a sum that is zero some term is not positive, and a negative term
    comes with a positive one. *)
Lemma Qsum_zero_nonpos {X : Type} (f : X -> Q) (l : list X) :
  l <> [] -> Qsum (map f l) == 0 -> exists x, In x l /\ f x <= 0.
Proof.
  intros Hne Hz.
  assert (Hdec : forall x, {0 < f x} + {~ 0 < f x}).
  { intros x. destruct (Qlt_le_dec 0 (f x)) as [H|H]; [now left|right; lra]. }
  destruct (Forall_Exists_dec (fun x => 0 < f x) Hdec l) as [Hall|Hex].
  - exfalso. destruct l as [|x l]; [congruence|].
    assert (Hpos : 0 < Qsum (map f (x :: l))).
    { apply (Qsum_map_pos (x := x)).
      - eapply Forall_impl; [|exact Hall]. intros a Ha. simpl in Ha. lra.
      - now left.
      - now inversion Hall. }
    lra.
  - apply Exists_exists in Hex. destruct Hex as [x [Hx Hnot]].
    exists x. split; [exact Hx|]. lra.
Qed.

Lemma Qsum_zero_mixed {X : Type} (f : X -> Q) (l : list X) (x0 : X) :
  Qsum (map f l) == 0 -> In x0 l -> f x0 < 0 -> exists x, In x l /\ 0 < f x.
Proof.
  intros Hz Hin Hneg.
  assert (Hdec : forall x, {f x <= 0} + {~ f x <= 0}).
  { intros x. destruct (Qlt_le_dec 0 (f x)) as [H|H]; [right; lra|now left]. }
  destruct (Forall_Exists_dec (fun x => f x <= 0) Hdec l) as [Hall|Hex].
  - exfalso.
    assert (Hpos : 0 < Qsum (map (fun x => (-1) * f x) l)).
    { apply (Qsum_map_pos (x := x0)).
      - eapply Forall_impl; [|exact Hall]. intros a Ha. simpl in Ha. lra.
      - exact Hin.
      - lra. }
    rewrite Qsum_map_mult_l, Hz in Hpos. lra.
  - apply Exists_exists in Hex. destruct Hex as [x [Hx Hnot]].
    exists x. split; [exact Hx|]. lra.
Qed.

Lemma Qsum_anticentered (xs : list Q) :
  xs <> [] -> Qsum (map (fun x => mean xs - x) xs) == 0.
Proof.
  intros Hne.
  rewrite (Qsum_map_ext (g := fun x => (-1) * (x - mean xs)))
    by (apply Forall_forall; intros x _; ring).
  rewrite Qsum_map_mult_l, (Qsum_centered Hne). ring.
Qed.

(** The mean of a list separates its values: some value is at or below it,
    some at or above it, and two different values put one strictly below and
    one strictly above. *)
Lemma mean_separates (xs : list Q) :
  xs <> [] ->
  (exists x, In x xs /\ x <= mean xs) /\
  (exists x, In x xs /\ mean xs <= x) /\
  ((exists x y, In x xs /\ In y xs /\ ~ x == y) ->
   exists x y, In x xs /\ In y xs /\ x < mean xs /\ mean xs < y).
Proof.
  intros Hne. split; [|split].
  - destruct (Qsum_zero_nonpos Hne (Qsum_centered Hne)) as [x [Hx Hle]].
    exists x. split; [exact Hx|lra].
  - destruct (Qsum_zero_nonpos Hne (Qsum_anticentered Hne)) as [x [Hx Hle]].
    exists x. split; [exact Hx|lra].
  - intros [x [y [Hx [Hy Hxy]]]].
    assert (Hoff : exists z, In z xs /\ ~ z == mean xs).
    { destruct (Qeq_dec x (mean xs)) as [Hxm|Hxm].
      - exists y. split; [exact Hy|]. intros Hym. apply Hxy. rewrite Hxm, Hym. reflexivity.
      - exists x. auto. }
    destruct Hoff as [z [Hz Hzm]].
    destruct (Q_dec z (mean xs)) as [[Hlt|Hgt]|Heq]; [| |contradiction].
    + destruct (@Qsum_zero_mixed _ (fun x => x - mean xs) xs z (Qsum_centered Hne) Hz)
        as [w [Hw Hpos]]; [lra|].
      exists z, w. repeat split; try assumption; lra.
    + destruct (@Qsum_zero_mixed _ (fun x => mean xs - x) xs z (Qsum_anticentered Hne) Hz)
        as [w [Hw Hpos]]; [lra|].
      exists w, z. repeat split; try assumption; lra.
Qed.

(** X12.  The mean split puts the hyperplane at the mean of the projections
    of the points.  When [GetProjVector] finds a direction, the set of
    points is not empty and every point is a column of the data,
    [MeanSpaceSplit::SplitSpace] returns that direction with the mean
    projection as split value; some point projects at or below
    it and some at or above it, and as soon as two points project
    differently, one point lies strictly below and one strictly above the
    split value, so neither side of the hyperplane is empty. *)
Theorem mean_split_separates {Bound PV Col : Type}
    (GetProjVector : Bound -> Mat Col -> list N -> option (option (PV * Q)))
    (project : PV -> Col -> Q)
    (bound : Bound) (data : Mat Col) (points : list N)
    (projVector : PV) (midValue : Q) (columns : list Col) :
  GetProjVector bound data points = Some (Some (projVector, midValue)) ->
  points <> [] ->
  Forall2 (fun p c => col data p = Some c) points columns ->
  exists splitVal,
    MeanSpaceSplit.SplitSpace (A := exactQ) GetProjVector project bound data points
    = Some (Some (projVector, splitVal)) /\
    splitVal == mean (map (project projVector) columns) /\
    (exists c, In c columns /\ project projVector c <= splitVal) /\
    (exists c, In c columns /\ splitVal <= project projVector c) /\
    ((exists c c', In c columns /\ In c' columns /\
                   ~ project projVector c == project projVector c') ->
     exists c c', In c columns /\ In c' columns /\
                  project projVector c < splitVal /\ splitVal < project projVector c').
Proof.
  intros Hfound Hne Hcols.
  unfold MeanSpaceSplit.SplitSpace. rewrite Hfound. cbn [bind].
  rewrite (@mean_loop Col (project projVector) data points _ points columns zero
             (reads_all points) Hcols).
  cbn [bind]. cbv zeta. eexists. split; [reflexivity|].
  set (xs := map (project projVector) columns).
  assert (Hxs : xs <> []).
  { subst xs. destruct Hcols; [congruence|]. simpl. discriminate. }
  assert (Hmean : div (fold_left (fun s c => s + project projVector c) columns zero)
                      (of_size (Size.n_elem points)) == mean xs).
  { cbn [div zero of_size exactQ]. rewrite fold_left_Qsum.
    unfold mean, len, Size.n_elem. subst xs. rewrite length_map.
    rewrite (Forall2_length Hcols). rewrite nat_N_Z. rewrite Qplus_0_l. reflexivity. }
  destruct (mean_separates Hxs) as [Hlow [Hhigh Hstrict]].
  split; [exact Hmean|]. split; [|split].
  - destruct Hlow as [x [Hx Hle]]. subst xs. apply in_map_iff in Hx.
    destruct Hx as [c [<- Hc]]. exists c. split; [exact Hc|]. rewrite Hmean. exact Hle.
  - destruct Hhigh as [x [Hx Hle]]. subst xs. apply in_map_iff in Hx.
    destruct Hx as [c [<- Hc]]. exists c. split; [exact Hc|]. rewrite Hmean. exact Hle.
  - intros [c [c' [Hc [Hc' Hdiff]]]].
    destruct Hstrict as [x [y [Hx [Hy [Hlt Hgt]]]]].
    { exists (project projVector c), (project projVector c').
      split; [apply in_map, Hc|]. split; [apply in_map, Hc'|]. exact Hdiff. }
    subst xs. apply in_map_iff in Hx. apply in_map_iff in Hy.
    destruct Hx as [a [<- Ha]]. destruct Hy as [b [<- Hb]].
    exists a, b. split; [exact Ha|]. split; [exact Hb|]. rewrite Hmean. split; assumption.
Qed.

(** ** The farthest pair of the general [GetProjVector] *)

Section FarthestPair.
Context {Col : Type}.
Variable metric : Col -> Col -> Q.

(** What one search loop establishes: [max] does not decrease, it bounds the
    distance from [fst] to every point visited, and a change of [snd] comes
    with [max] being the distance from [fst] to the new [snd]. *)
Lemma farthest_from_spec (data : Mat Col) (points : list N) (f : N) (a : Col)
    (idx : list N) (mx0 mx : Q) (sd0 sd : N) :
  col data f = Some a ->
  SpaceSplit.farthest_from (A := exactQ) metric data points f idx (mx0, sd0)
  = Some (mx, sd) ->
  mx0 <= mx /\
  (forall i p b, In i idx -> at_ points i = Some p -> col data p = Some b ->
                 metric a b <= mx) /\
  ((mx = mx0 /\ sd = sd0) \/
   (exists b, In sd points /\ col data sd = Some b /\ mx = metric a b /\
              mx0 < mx)).
Proof.
  intros Ha. unfold SpaceSplit.farthest_from.
  match goal with |- for_each _ ?b _ = _ -> _ => set (body := b) end.
  revert mx0 sd0. induction idx as [|i idx IH]; intros mx0 sd0 H.
  - simpl in H. inversion H; subst. split; [apply Qle_refl|].
    split; [intros i p b []|]. left. split; reflexivity.
  - cbn [for_each] in H.
    destruct (body i (mx0, sd0)) as [[m1 s1]|] eqn:Hbody; cbn [bind] in H; [|discriminate].
    unfold body in Hbody.
    destruct (at_ points i) as [p|] eqn:Hp; cbn [bind] in Hbody; [|discriminate].
    rewrite Ha in Hbody. cbn [bind] in Hbody.
    destruct (col data p) as [b|] eqn:Hb; cbn [bind] in Hbody; [|discriminate].
    cbv zeta in Hbody.
    destruct (IH _ _ H) as [Hle [Hall Hsel]].
    destruct (ltb mx0 (metric a b)) eqn:Hcmp; inversion Hbody; subst m1 s1; clear Hbody.
    + apply Q_ltb_true in Hcmp.
      split; [lra|]. split.
      * intros j q c [<-|Hj] Hq Hc.
        -- rewrite Hp in Hq. inversion Hq; subst. rewrite Hb in Hc. inversion Hc; subst.
           exact Hle.
        -- apply (Hall j q c Hj Hq Hc).
      * right. destruct Hsel as [[-> ->]|[c [Hin [Hc [Hmx Hlt]]]]].
        -- exists b. split; [|split; [exact Hb|split; [reflexivity|exact Hcmp]]].
           unfold at_ in Hp. apply nth_error_In in Hp. exact Hp.
        -- exists c. split; [exact Hin|]. split; [exact Hc|]. split; [exact Hmx|]. lra.
    + apply Q_ltb_false in Hcmp.
      split; [exact Hle|]. split.
      * intros j q c [<-|Hj] Hq Hc.
        -- rewrite Hp in Hq. inversion Hq; subst. rewrite Hb in Hc. inversion Hc; subst.
           lra.
        -- apply (Hall j q c Hj Hq Hc).
      * exact Hsel.
Qed.

(** A search loop over positions of [points] returns when every point is a
    column of the data. *)
Lemma farthest_from_returns (data : Mat Col) (points : list N) (f : N) (a : Col)
    (idx : list N) (state : Q * N) :
  col data f = Some a ->
  Forall (fun p => (p < Size.n_elem (cols data))%N) points ->
  (forall i, In i idx -> (i < Size.n_elem points)%N) ->
  exists r, SpaceSplit.farthest_from (A := exactQ) metric data points f idx state = Some r.
Proof.
  intros Ha Hcols Hidx. unfold SpaceSplit.farthest_from.
  apply for_each_returns. intros i [mx sd] Hi.
  destruct (at_in_bounds (v := points) (i := i) (Hidx i Hi)) as [p Hp].
  rewrite Hp. cbn [bind]. rewrite Ha. cbn [bind].
  assert (Hin : In p points) by (unfold at_ in Hp; apply nth_error_In in Hp; exact Hp).
  rewrite Forall_forall in Hcols.
  destruct (at_in_bounds (v := cols data) (i := p) (Hcols p Hin)) as [b Hb].
  unfold col. rewrite Hb. cbn [bind]. cbv zeta.
  destruct (ltb mx (metric a b)); eauto.
Qed.

Lemma in_points_read (points : list N) (p : N) :
  In p points ->
  exists i, In i (from_to 0 (Size.n_elem points)) /\ at_ points i = Some p.
Proof.
  intros Hin. apply In_nth_error in Hin. destruct Hin as [n Hn].
  exists (N.of_nat n). split.
  - apply in_from_to. unfold Size.n_elem.
    assert (n < length points)%nat by (apply nth_error_Some; congruence). lia.
  - unfold at_. now rewrite Nat2N.id.
Qed.

(** The farthest-pair estimate: for a non-empty set of points that are
    columns of the data the two loops return two points of the set; [max] is
    the distance between them, measured from [fst] when the second loop moved
    [snd] and from [snd] when it did not, and no point of the set is farther
    from [fst] than [max]. *)
Lemma farthest_pair_spec (rnd : N) (data : Mat Col) (points : list N) :
  points <> [] ->
  Forall (fun p => (p < Size.n_elem (cols data))%N) points ->
  exists fst snd max a b,
    SpaceSplit.farthest_pair (A := exactQ) metric rnd data points = Some (fst, snd, max) /\
    In fst points /\ In snd points /\
    col data fst = Some a /\ col data snd = Some b /\
    (max = metric a b \/ max = metric b a) /\
    (forall p c, In p points -> col data p = Some c -> metric a c <= max).
Proof.
  intros Hne Hcols. unfold SpaceSplit.farthest_pair. cbv zeta.
  assert (Hsize : (0 < Size.n_elem points)%N).
  { unfold Size.n_elem. destruct points; [congruence|]. simpl length. lia. }
  destruct (N.eqb_spec (Size.n_elem points) 0) as [Hz|_]; [lia|].
  assert (Hcol : forall p, In p points -> exists c, col data p = Some c).
  { intros p Hp. rewrite Forall_forall in Hcols.
    apply (at_in_bounds (v := cols data) (i := p) (Hcols p Hp)). }
  assert (Hat : forall i p, at_ points i = Some p -> In p points).
  { intros i p Hp. unfold at_ in Hp. apply nth_error_In in Hp. exact Hp. }
  destruct (at_in_bounds (v := points) (i := (rnd mod Size.n_elem points)%N)) as [f0 Hf0].
  { apply N.mod_lt. lia. }
  destruct (at_in_bounds (v := points) (i := 0%N) Hsize) as [s0 Hs0].
  rewrite Hf0. cbn [bind]. rewrite Hs0. cbn [bind].
  destruct (Hcol f0 (Hat _ _ Hf0)) as [cf0 Hcf0].
  destruct (Hcol s0 (Hat _ _ Hs0)) as [cs0 Hcs0].
  rewrite Hcf0. cbn [bind]. rewrite Hcs0. cbn [bind].
  destruct (@farthest_from_returns data points f0 cf0 (from_to 1 (Size.n_elem points))
              (metric cf0 cs0, s0) Hcf0 Hcols) as [[mx1 s1] Hl1].
  { intros i Hi. apply in_from_to in Hi. lia. }
  rewrite Hl1. cbn [bind].
  destruct (farthest_from_spec Hcf0 Hl1) as [_ [_ Hsel1]].
  assert (H1 : exists cs1, In s1 points /\ col data s1 = Some cs1 /\
                           mx1 = metric cf0 cs1).
  { destruct Hsel1 as [[-> ->]|[c [Hin [Hc [Hmx _]]]]].
    - exists cs0. split; [exact (Hat _ _ Hs0)|]. split; [exact Hcs0|reflexivity].
    - exists c. auto. }
  destruct H1 as [cs1 [Hs1 [Hcs1 Hmx1]]].
  destruct (@farthest_from_returns data points s1 cs1 (from_to 0 (Size.n_elem points))
              (mx1, f0) Hcs1 Hcols) as [[mx2 s2] Hl2].
  { intros i Hi. apply in_from_to in Hi. lia. }
  rewrite Hl2. cbn [bind].
  destruct (farthest_from_spec Hcs1 Hl2) as [_ [Hall2 Hsel2]].
  assert (Hbound : forall p c, In p points -> col data p = Some c ->
                               metric cs1 c <= mx2).
  { intros p c Hp Hc. destruct (in_points_read Hp) as [i [Hi Hip]].
    apply (Hall2 i p c Hi Hip Hc). }
  destruct Hsel2 as [[-> ->]|[c [Hin [Hc [Hmx _]]]]].
  - exists s1, f0, mx1, cs1, cf0. split; [reflexivity|].
    split; [exact Hs1|]. split; [exact (Hat _ _ Hf0)|].
    split; [exact Hcs1|]. split; [exact Hcf0|]. split; [right; exact Hmx1|exact Hbound].
  - exists s1, s2, mx2, cs1, c. split; [reflexivity|].
    split; [exact Hs1|]. split; [exact Hin|].
    split; [exact Hcs1|]. split; [exact Hc|]. split; [left; exact Hmx|exact Hbound].
Qed.

End FarthestPair.

(** X13.  The general [GetProjVector] splits along two points of the set
    that are far apart.  For a symmetric metric with the triangle inequality
    and zero self-distance, a non-empty set of points that are columns of the
    data, and whatever [rand()] returns: the call returns; it answers [false]
    exactly when all points coincide (every pairwise distance is zero); and
    otherwise the direction and [midValue] are those of two points of the set
    at a positive distance that is at least half of every pairwise distance
    in the set. *)
Theorem farthest_pair_projection {Col PV : Type}
    (metric : Col -> Col -> Q) (direction : Col -> Col -> PV)
    (midpoint : Col -> Col -> Col) (Project : PV -> Col -> Q)
    (rnd : N) (data : Mat Col) (points : list N) :
  (forall a b, metric a b == metric b a) ->
  (forall a b c, metric a c <= metric a b + metric b c) ->
  (forall a, metric a a == 0) ->
  points <> [] ->
  Forall (fun p => (p < Size.n_elem (cols data))%N) points ->
  exists res,
    SpaceSplit.GetProjVector (A := exactQ) metric direction midpoint Project rnd data points
    = Some res /\
    match res with
    | None =>
        forall p q c c', In p points -> In q points ->
          col data p = Some c -> col data q = Some c' ->
          metric c c' == 0
    | Some (projVector, midValue) =>
        exists fst snd a b,
          In fst points /\ In snd points /\
          col data fst = Some a /\ col data snd = Some b /\
          projVector = direction b a /\
          midValue = Project projVector (midpoint b a) /\
          0 < metric a b /\
          forall p q c c', In p points -> In q points ->
            col data p = Some c -> col data q = Some c' ->
            metric c c' <= 2 * metric a b
    end.
Proof.
  intros Hsym Htri Hself Hne Hcols.
  destruct (farthest_pair_spec metric rnd Hne Hcols)
    as [fst [snd [max [a [b [Hpair [Hfst [Hsnd [Ha [Hb [Hmax Hbound]]]]]]]]]]].
  assert (Hmax' : max == metric a b).
  { destruct Hmax as [->| ->]; [reflexivity|apply Hsym]. }
  assert (Hnonneg : forall x y, 0 <= metric x y).
  { intros x y. pose proof (Htri x y x) as H. rewrite (Hself x), (Hsym y x) in H. lra. }
  assert (Hdiam : forall p q c c', In p points -> In q points ->
            col data p = Some c -> col data q = Some c' ->
            metric c c' <= 2 * max).
  { intros p q c c' Hp Hq Hc Hc'.
    pose proof (Htri c a c') as H. rewrite (Hsym c a) in H.
    pose proof (Hbound p c Hp Hc). pose proof (Hbound q c' Hq Hc'). lra. }
  unfold SpaceSplit.GetProjVector. rewrite Hpair. cbn [bind].
  destruct (eqb max zero) eqn:Hz; cbn [eqb zero exactQ] in Hz.
  - apply Qeq_bool_iff in Hz. exists None. split; [reflexivity|].
    intros p q c c' Hp Hq Hc Hc'.
    pose proof (Hdiam p q c c' Hp Hq Hc Hc'). pose proof (Hnonneg c c'). lra.
  - apply Qeq_bool_neq in Hz. rewrite Hb. cbn [bind]. rewrite Ha. cbn [bind]. cbv zeta.
    eexists. split; [reflexivity|]. cbv beta iota.
    exists fst, snd, a, b.
    split; [exact Hfst|]. split; [exact Hsnd|]. split; [exact Ha|]. split; [exact Hb|].
    split; [reflexivity|]. split; [reflexivity|]. split.
    + pose proof (Hnonneg a b) as H0.
      destruct (Qle_lt_or_eq _ _ H0) as [Hlt|Heq]; [exact Hlt|].
      exfalso. apply Hz. rewrite Hmax', <- Heq. reflexivity.
    + intros p q c c' Hp Hq Hc Hc'. rewrite <- Hmax'.
      apply (Hdiam p q c c' Hp Hq Hc Hc').
Qed.

Lemma line_metric_sym (a b : Q) : line_metric a b == line_metric b a.
Proof. unfold line_metric. rewrite Qabs_Qminus. reflexivity. Qed.

Lemma line_metric_triangle (a b c : Q) :
  line_metric a c <= line_metric a b + line_metric b c.
Proof.
  unfold line_metric.
  assert (H : a - c == (a - b) + (b - c)) by ring.
  rewrite H. apply Qabs_triangle.
Qed.

Lemma line_metric_self (a : Q) : line_metric a a == 0.
Proof.
  unfold line_metric. assert (H : a - a == 0) by ring. rewrite H. reflexivity.
Qed.

Lemma farthest_pair_projection_witness :
  exists res,
    SpaceSplit.GetProjVector (A := exactQ) line_metric line_direction line_midpoint
      line_project 2 line_data line_points = Some res /\
    match res with
    | None =>
        forall p q c c', In p line_points -> In q line_points ->
          col line_data p = Some c -> col line_data q = Some c' ->
          line_metric c c' == 0
    | Some (projVector, midValue) =>
        exists fst snd a b,
          In fst line_points /\ In snd line_points /\
          col line_data fst = Some a /\ col line_data snd = Some b /\
          projVector = line_direction b a /\
          midValue = line_project projVector (line_midpoint b a) /\
          0 < line_metric a b /\
          forall p q c c', In p line_points -> In q line_points ->
            col line_data p = Some c -> col line_data q = Some c' ->
            line_metric c c' <= 2 * line_metric a b
    end.
Proof.
  apply (farthest_pair_projection line_direction line_midpoint line_project 2
           line_metric_sym line_metric_triangle line_metric_self).
  - discriminate.
  - repeat constructor.
Defined.

Lemma mean_split_separates_witness :
  exists splitVal,
    MeanSpaceSplit.SplitSpace (A := exactQ) line_GetProjVector line_project tt
      line_data line_points
    = Some (Some (-8 # 8, splitVal)) /\
    splitVal == mean (map (line_project (-8 # 8)) [1; 5; 2; 9; 4]) /\
    (exists c, In c [1; 5; 2; 9; 4] /\ line_project (-8 # 8) c <= splitVal) /\
    (exists c, In c [1; 5; 2; 9; 4] /\ splitVal <= line_project (-8 # 8) c) /\
    ((exists c c', In c [1; 5; 2; 9; 4] /\ In c' [1; 5; 2; 9; 4] /\
                   ~ line_project (-8 # 8) c == line_project (-8 # 8) c') ->
     exists c c', In c [1; 5; 2; 9; 4] /\ In c' [1; 5; 2; 9; 4] /\
                  line_project (-8 # 8) c < splitVal /\
                  splitVal < line_project (-8 # 8) c').
Proof.
  apply (mean_split_separates (GetProjVector := line_GetProjVector) line_project
           (bound := tt) (data := line_data) (points := line_points)
           (midValue := -80 # 16)).
  - vm_compute. reflexivity.
  - discriminate.
  - repeat constructor.
Defined.

(** ** Saving and loading a variant of pointers *)

Section PointerVariantProofs.
Import PointerVariant.
Context {Ptr : Type}.

Lemma save_appends (v : variant Ptr) (ar : archive Ptr) : save v ar = ar ++ save v [].
Proof.
  revert ar. induction v as [which p|which v IH]; intros ar; cbn [save].
  - cbv zeta. now rewrite <- app_assoc.
  - cbv zeta. rewrite (IH (ar ++ [IInt Ptr which])), (IH ([] ++ [IInt Ptr which])).
    now rewrite <- app_assoc.
Qed.

Lemma load_with_selected (alts : list alt) (which : Z) (T : alt)
    (ar : archive Ptr) :
  (0 <= which)%Z -> nth_error alts (Z.to_nat which) = Some T ->
  load_with (map (@load_visitor Ptr) alts) (IInt Ptr which :: ar)
  = load_visitor T which ar.
Proof.
  intros H0 HT. unfold load_with. cbn [load_int]. rewrite length_map.
  assert (Hlt : (Z.to_nat which < length alts)%nat) by (apply nth_error_Some; congruence).
  destruct (Z.leb_spec (Z.of_nat (length alts)) which) as [Hge|_]; [lia|].
  destruct (Z.ltb_spec which 0) as [Hneg|_]; [lia|].
  now rewrite nth_error_map, HT.
Qed.


(** What is loaded is well typed and was saved: the items consumed are those
    that [save] writes for the variant loaded. *)
Lemma load_sound_aux (v : variant Ptr) :
  forall (alts : list alt) (ar ar' : archive Ptr),
    load alts ar = Loaded v ar' ->
    well_typed v alts = true /\ ar = save v [] ++ ar'.
Proof.
  induction v as [w p|w v IH]; intros alts ar ar' H; unfold load, load_with in H.
  - destruct ar as [|[z|q] ar1]; cbn [load_int] in H; try discriminate.
    rewrite length_map in H.
    destruct (Z.leb_spec (Z.of_nat (length alts)) z) as [Hge|Hlt]; [discriminate|].
    destruct (Z.ltb_spec z 0) as [Hneg|Hpos]; [discriminate|].
    rewrite nth_error_map in H.
    destruct (nth_error alts (Z.to_nat z)) as [[|alts']|] eqn:HT; cbn [option_map] in H;
      try discriminate.
    + cbn [load_visitor] in H.
      destruct ar1 as [|[z'|q] ar2]; cbn [load_pointer] in H; try discriminate.
      inversion H; subst. cbn [well_typed save]. rewrite HT.
      split; [|reflexivity].
      apply andb_true_intro. split; [apply Z.leb_le; lia|reflexivity].
    + cbn [load_visitor] in H.
      destruct (load_with (map (@load_visitor Ptr) alts') ar1); discriminate.
  - destruct ar as [|[z|q] ar1]; cbn [load_int] in H; try discriminate.
    rewrite length_map in H.
    destruct (Z.leb_spec (Z.of_nat (length alts)) z) as [Hge|Hlt]; [discriminate|].
    destruct (Z.ltb_spec z 0) as [Hneg|Hpos]; [discriminate|].
    rewrite nth_error_map in H.
    destruct (nth_error alts (Z.to_nat z)) as [[|alts']|] eqn:HT; cbn [option_map] in H;
      try discriminate.
    + cbn [load_visitor] in H.
      destruct (load_pointer ar1) as [[q ar2]|]; discriminate.
    + cbn [load_visitor] in H.
      destruct (load_with (map (@load_visitor Ptr) alts') ar1) as [v1 ar2| | |] eqn:Hin;
        try discriminate.
      inversion H; subst. destruct (IH alts' ar1 ar' Hin) as [Hty Har].
      cbn [well_typed save]. rewrite HT. split.
      * apply andb_true_intro. split; [apply Z.leb_le; lia|exact Hty].
      * cbv zeta. rewrite save_appends. rewrite Har at 1. reflexivity.
Qed.

Lemma round_trip_aux (v : variant Ptr) :
  forall (alts : list alt) (rest : archive Ptr),
    well_typed v alts = true -> load alts (save v [] ++ rest) = Loaded v rest.
Proof.
  induction v as [w p|w v IH]; intros alts rest Hty; cbn [well_typed] in Hty;
    apply andb_prop in Hty; destruct Hty as [H0 HT]; apply Z.leb_le in H0.
  - destruct (nth_error alts (Z.to_nat w)) as [[|alts']|] eqn:Hn; try discriminate.
    cbn [save]. cbv zeta. cbn [app]. unfold load.
    rewrite (load_with_selected _ H0 Hn). reflexivity.
  - destruct (nth_error alts (Z.to_nat w)) as [[|alts']|] eqn:Hn; try discriminate.
    cbn [save]. cbv zeta. rewrite save_appends. cbn [app]. unfold load.
    rewrite (load_with_selected _ H0 Hn). cbn [load_visitor].
    fold (load (Ptr := Ptr) alts' (save v [] ++ rest)).
    now rewrite (IH alts' rest HT).
Qed.

End PointerVariantProofs.

(** X14.  Loading gives back what was saved.  A variant that is a value of
    [boost::variant<VariantTypes...>], saved into an archive, is loaded from
    the items written as the same variant, holding the same alternative at
    every level of nesting, and the load leaves the rest of the archive
    untouched; it neither throws nor indexes the array of load functions out
    of range. *)
Theorem pointer_variant_round_trip {Ptr : Type}
    (VariantTypes : list PointerVariant.alt)
    (pointerVariant : PointerVariant.variant Ptr)
    (before rest : PointerVariant.archive Ptr) :
  PointerVariant.well_typed pointerVariant VariantTypes = true ->
  exists written,
    PointerVariant.save pointerVariant before = before ++ written /\
    PointerVariant.load VariantTypes (written ++ rest)
    = PointerVariant.Loaded pointerVariant rest.
Proof.
  intros Hty. exists (PointerVariant.save pointerVariant []). split.
  - apply save_appends.
  - apply round_trip_aux, Hty.
Qed.

(** X15.  The selector is checked from above only.  [load] throws exactly
    when the selector it reads first is at least the number of
    [VariantTypes]; a negative selector is not rejected and indexes the
    array of load functions out of range; an archive that does not begin
    with a selector fails in the archive.  Whatever [load] does return is a
    value of [boost::variant<VariantTypes...>], and the items it consumed
    are those that [save] writes for it. *)
Theorem pointer_variant_load_checks {Ptr : Type}
    (VariantTypes : list PointerVariant.alt) :
  (forall which ar,
     (Z.of_nat (length VariantTypes) <= which)%Z ->
     PointerVariant.load VariantTypes (PointerVariant.IInt Ptr which :: ar)
     = PointerVariant.Throws Ptr) /\
  (forall which ar,
     (which < 0)%Z ->
     PointerVariant.load VariantTypes (PointerVariant.IInt Ptr which :: ar)
     = PointerVariant.Undefined Ptr) /\
  (forall (ar : PointerVariant.archive Ptr) v ar',
     PointerVariant.load VariantTypes ar = PointerVariant.Loaded v ar' ->
     PointerVariant.well_typed v VariantTypes = true /\
     ar = PointerVariant.save v [] ++ ar').
Proof.
  split; [|split].
  - intros which ar Hge. unfold PointerVariant.load, PointerVariant.load_with.
    cbn [PointerVariant.load_int]. rewrite length_map.
    destruct (Z.leb_spec (Z.of_nat (length VariantTypes)) which); [reflexivity|lia].
  - intros which ar Hneg. unfold PointerVariant.load, PointerVariant.load_with.
    cbn [PointerVariant.load_int]. rewrite length_map.
    destruct (Z.leb_spec (Z.of_nat (length VariantTypes)) which); [lia|].
    destruct (Z.ltb_spec which 0); [reflexivity|lia].
  - intros ar v ar'. apply load_sound_aux.
Qed.

Lemma pointer_variant_round_trip_witness :
  exists written,
    PointerVariant.save
      (PointerVariant.HoldsVariant 1 (PointerVariant.HoldsPointer 0 7%nat))
      [PointerVariant.IPointer 3%nat]
    = [PointerVariant.IPointer 3%nat] ++ written /\
    PointerVariant.load
      [PointerVariant.PointerAlt;
       PointerVariant.VariantAlt [PointerVariant.PointerAlt; PointerVariant.PointerAlt]]
      (written ++ [PointerVariant.IInt nat 9])
    = PointerVariant.Loaded
        (PointerVariant.HoldsVariant 1 (PointerVariant.HoldsPointer 0 7%nat))
        [PointerVariant.IInt nat 9].
Proof.
  apply (@pointer_variant_round_trip nat
           [PointerVariant.PointerAlt;
            PointerVariant.VariantAlt [PointerVariant.PointerAlt; PointerVariant.PointerAlt]]
           (PointerVariant.HoldsVariant 1 (PointerVariant.HoldsPointer 0 7%nat))
           [PointerVariant.IPointer 3%nat] [PointerVariant.IInt nat 9]).
  reflexivity.
Defined.

(** ** Exact operations of binary64

    Rounding changes nothing when the result of an operation is itself a
    double: the lemmas below establish it, from the IEEE-754 specification
    of the operations, for sums, differences and quotients of integers below
    [2 ^ 53] and for products with 1. *)

Section ExactRounding.
Local Open Scope Z_scope.

Lemma dg_bounds (p : positive) : 2 ^ (dg p - 1) <= Zpos p < 2 ^ dg p.
Proof.
  unfold dg. induction p as [p IH|p IH|]; cbn [digits2_pos].
  - rewrite Pos2Z.inj_succ.
    replace (Z.succ (Zpos (digits2_pos p)) - 1) with (Z.succ (Zpos (digits2_pos p) - 1)) by lia.
    rewrite !Z.pow_succ_r by lia. lia.
  - rewrite Pos2Z.inj_succ.
    replace (Z.succ (Zpos (digits2_pos p)) - 1) with (Z.succ (Zpos (digits2_pos p) - 1)) by lia.
    rewrite !Z.pow_succ_r by lia. lia.
  - simpl. lia.
Qed.

Lemma dg_pos (p : positive) : 0 < dg p.
Proof. unfold dg. lia. Qed.

Lemma dg_unique (p : positive) (d : Z) : 2 ^ (d - 1) <= Zpos p < 2 ^ d -> dg p = d.
Proof.
  intros [Hlo Hhi]. pose proof (dg_bounds p) as [Hlo' Hhi']. pose proof (dg_pos p).
  assert (Hd : 0 < d).
  { destruct (Z_lt_le_dec 0 d) as [|Hle]; [assumption|].
    assert (2 ^ d <= 1).
    { destruct (Z.eq_dec d 0) as [->|]; [simpl; lia|].
      rewrite Z.pow_neg_r by lia. lia. }
    lia. }
  destruct (Z_lt_le_dec (dg p) d) as [Hlt|Hge].
  - assert (2 ^ dg p <= 2 ^ (d - 1)) by (apply Z.pow_le_mono_r; lia). lia.
  - destruct (Z_lt_le_dec d (dg p)) as [Hlt|Hle]; [|lia].
    assert (2 ^ d <= 2 ^ (dg p - 1)) by (apply Z.pow_le_mono_r; lia). lia.
Qed.

Lemma dg_shift (p q : positive) (k : Z) :
  0 <= k -> Zpos q = Zpos p * 2 ^ k -> dg q = dg p + k.
Proof.
  intros Hk Hq. apply dg_unique. pose proof (dg_bounds p) as [Hlo Hhi]. pose proof (dg_pos p).
  rewrite Hq. replace (dg p + k - 1) with ((dg p - 1) + k) by lia.
  rewrite !Z.pow_add_r by lia.
  assert (0 < 2 ^ k) by (apply Z.pow_pos_nonneg; lia). nia.
Qed.

Lemma iter_xO (m : positive) (k : positive) :
  Zpos (Pos.iter xO m k) = Zpos m * 2 ^ Zpos k.
Proof.
  induction k as [|k IH] using Pos.peano_ind.
  - simpl. lia.
  - rewrite Pos.iter_succ, Pos2Z.inj_succ, Z.pow_succ_r by lia.
    rewrite Pos2Z.inj_xO, IH. lia.
Qed.

(** Shifting right what was shifted left *)
Lemma iter_pos_iter {A : Type} (f : A -> A) (k : positive) (x : A) :
  iter_pos f k x = Pos.iter f x k.
Proof.
  revert x. induction k as [k IH|k IH|]; intros x; cbn [iter_pos Pos.iter].
  - rewrite !IH. now rewrite <- !Pos.iter_swap.
  - now rewrite !IH.
  - reflexivity.
Qed.

Lemma shr_1_exact (q : positive) :
  shr_1 {| shr_m := Zpos (xO q); shr_r := false; shr_s := false |}
  = {| shr_m := Zpos q; shr_r := false; shr_s := false |}.
Proof. reflexivity. Qed.

Lemma iter_shr_exact (m : positive) (k : positive) :
  iter_pos shr_1 k {| shr_m := Zpos (Pos.iter xO m k); shr_r := false; shr_s := false |}
  = {| shr_m := Zpos m; shr_r := false; shr_s := false |}.
Proof.
  rewrite iter_pos_iter.
  induction k as [|k IH] using Pos.peano_ind.
  - reflexivity.
  - rewrite Pos.iter_succ_r, Pos.iter_succ. rewrite shr_1_exact. exact IH.
Qed.

(** ** Rounding what needs no rounding *)


Lemma bounded_inv (m : positive) (e : Z) :
  bounded64 m e = true -> fexp prec emax (dg m + e) = e /\ e <= emax - prec.
Proof.
  unfold bounded64, bounded, canonical_mantissa. intros H. apply andb_prop in H.
  destruct H as [H1 H2]. apply Z.eqb_eq in H1. apply Z.leb_le in H2. unfold dg. auto.
Qed.

Lemma round_aux_exact (s : bool) (m q : positive) (e k : Z) :
  bounded64 m e = true -> 0 <= k -> Zpos q = Zpos m * 2 ^ k ->
  binary_round_aux prec emax s (Zpos q) (e - k) loc_Exact = S754_finite s m e.
Proof.
  intros Hb Hk Hq. destruct (bounded_inv Hb) as [Hc He].
  pose proof (dg_shift Hk Hq) as Hd.
  assert (Hsecond : shr_fexp prec emax (Zpos m) e loc_Exact
                    = ({| shr_m := Zpos m; shr_r := false; shr_s := false |}, e)).
  { unfold shr_fexp. cbn [Zdigits2 shr_record_of_loc]. fold (dg m). rewrite Hc.
    rewrite Z.sub_diag. reflexivity. }
  assert (Hfirst : shr_fexp prec emax (Zpos q) (e - k) loc_Exact
                   = ({| shr_m := Zpos m; shr_r := false; shr_s := false |}, e)).
  { unfold shr_fexp. cbn [Zdigits2 shr_record_of_loc]. fold (dg q). rewrite Hd.
    replace (dg m + k + (e - k)) with (dg m + e) by lia. rewrite Hc.
    replace (e - (e - k)) with k by lia.
    destruct k as [|kp|kp]; [| |lia].
    - cbn [shr]. rewrite Z.sub_0_r. simpl in Hq.
      assert (q = m) by lia. subst q. reflexivity.
    - cbn [shr]. rewrite <- iter_xO in Hq. injection Hq as ->.
      rewrite iter_shr_exact. f_equal. lia. }
  unfold binary_round_aux. rewrite Hfirst. cbn [shr_m loc_of_shr_record round_nearest_even].
  rewrite Hsecond. cbn [shr_m].
  destruct (Z.leb_spec e (emax - prec)); [reflexivity|lia].
Qed.

(** [binary_round] of a mantissa and exponent that stand for the value of a
    representable [m], [e]. *)
Lemma round_exact (s : bool) (m q : positive) (e e' : Z) :
  bounded64 m e = true ->
  (e <= e' /\ Zpos m = Zpos q * 2 ^ (e' - e)) \/ (e' <= e /\ Zpos q = Zpos m * 2 ^ (e - e')) ->
  binary_round prec emax s q e' = S754_finite s m e.
Proof.
  intros Hb Hv. destruct (bounded_inv Hb) as [Hc He]. unfold binary_round.
  assert (Hd : dg q + e' = dg m + e).
  { destruct Hv as [[Hle Hm]|[Hle Hq]].
    - rewrite (@dg_shift q m (e' - e)); [lia|lia|exact Hm].
    - rewrite (@dg_shift m q (e - e')); [lia|lia|exact Hq]. }
  fold (dg q). rewrite Hd, Hc. unfold shl_align.
  destruct (e - e') as [|d|d] eqn:Hdiff.
  - assert (e' = e) by lia. subst e'.
    assert (q = m).
    { destruct Hv as [[_ H]|[_ H]]; try rewrite Z.sub_diag in H; simpl in H; lia. }
    subst q. replace e with (e - 0) at 1 by lia.
    apply round_aux_exact; [exact Hb|lia|simpl; lia].
  - destruct Hv as [[Hle Hm]|[Hle Hq]]; [lia|].
    replace e' with (e - Zpos d) by lia.
    apply round_aux_exact; [exact Hb|lia|].
    first [exact Hq | rewrite Hq; f_equal; f_equal; lia].
  - destruct Hv as [[Hle Hm]|[Hle Hq]]; [|lia].
    assert (Hm' : Pos.iter xO q d = m).
    { apply Pos2Z.inj. rewrite iter_xO, Hm. f_equal. f_equal. lia. }
    rewrite Hm'. replace e with (e - 0) at 1 by lia.
    apply round_aux_exact; [exact Hb|lia|simpl; lia].
Qed.

(** ** The doubles that are integers *)


Lemma dg_small (p : positive) : Zpos p < 2 ^ 53 -> dg p <= 53.
Proof.
  intros H. pose proof (dg_bounds p) as [Hlo _].
  destruct (Z_le_gt_dec (dg p) 53) as [|Hgt]; [assumption|].
  assert (2 ^ 53 <= 2 ^ (dg p - 1)) by (apply Z.pow_le_mono_r; lia). lia.
Qed.

Lemma int_mantissa_val (p : positive) :
  Zpos p < 2 ^ 53 -> Zpos (int_mantissa p) = Zpos p * 2 ^ (53 - dg p).
Proof.
  intros H. pose proof (dg_small H). unfold int_mantissa.
  rewrite Z2Pos.id; [reflexivity|].
  assert (0 < 2 ^ (53 - dg p)) by (apply Z.pow_pos_nonneg; lia). lia.
Qed.

Lemma int_bounded (p : positive) :
  Zpos p < 2 ^ 53 -> bounded64 (int_mantissa p) (dg p - 53) = true.
Proof.
  intros H. pose proof (dg_small H) as Hd. pose proof (dg_pos p) as Hp.
  unfold bounded64, bounded, canonical_mantissa. fold (dg (int_mantissa p)).
  rewrite (@dg_shift p (int_mantissa p) (53 - dg p)); [|lia|apply int_mantissa_val, H].
  apply andb_true_intro. split.
  - apply Z.eqb_eq. unfold fexp, emin, prec, emax. lia.
  - apply Z.leb_le. unfold prec, emax. lia.
Qed.

Lemma SF_of_Z_valid (a : Z) : Z.abs a < 2 ^ 53 -> valid_binary (SF_of_Z a) = true.
Proof.
  destruct a as [|p|p]; intros H; cbn [SF_of_Z valid_binary]; [reflexivity| |];
    apply int_bounded; lia.
Qed.

Lemma pow2_split (x y : Z) : 0 <= x -> 0 <= y -> 2 ^ (x + y) = 2 ^ x * 2 ^ y.
Proof. intros. apply Z.pow_add_r; assumption. Qed.

(** Rounding the integer [c], given as [q * 2 ^ e0] with [e0 <= 0]. *)
Lemma round_int (s : bool) (c q : positive) (e0 : Z) :
  Zpos c < 2 ^ 53 -> e0 <= 0 -> Zpos q = Zpos c * 2 ^ (- e0) ->
  binary_round prec emax s q e0 = S754_finite s (int_mantissa c) (dg c - 53).
Proof.
  intros Hc He Hq. pose proof (dg_small Hc) as Hd. pose proof (dg_pos c) as Hp.
  pose proof (int_mantissa_val Hc) as Hm.
  apply round_exact; [apply int_bounded, Hc|].
  destruct (Z_le_gt_dec (dg c - 53) e0) as [Hle|Hgt].
  - left. split; [exact Hle|]. rewrite Hm, Hq, <- Z.mul_assoc. f_equal.
    rewrite <- pow2_split by lia. f_equal. lia.
  - right. split; [lia|]. rewrite Hm, Hq, <- Z.mul_assoc. f_equal.
    rewrite <- pow2_split by lia. f_equal. lia.
Qed.

Lemma normalize_int (c M : Z) (e0 : Z) :
  Z.abs c < 2 ^ 53 -> e0 <= 0 -> M = c * 2 ^ (- e0) ->
  binary_normalize prec emax M e0 false = SF_of_Z c.
Proof.
  intros Hc He HM. assert (Hpow : 0 < 2 ^ (- e0)) by (apply Z.pow_pos_nonneg; lia).
  destruct c as [|c|c].
  - subst M. reflexivity.
  - destruct M as [|q|q]; try lia. cbn [binary_normalize SF_of_Z].
    apply round_int; [lia|exact He|exact HM].
  - destruct M as [|q|q]; try lia. cbn [binary_normalize SF_of_Z].
    apply round_int; [lia|exact He|lia].
Qed.

Lemma shl_align_val (m : positive) (e e0 : Z) :
  e0 <= e -> Zpos (fst (shl_align m e e0)) = Zpos m * 2 ^ (e - e0).
Proof.
  intros Hle. unfold shl_align. destruct (e0 - e) as [|d|d] eqn:Hd.
  - replace (e - e0) with 0 by lia. simpl. lia.
  - lia.
  - cbn [fst]. rewrite iter_xO. f_equal. f_equal. lia.
Qed.

(** The value of a finite [SF_of_Z a], scaled to the exponent [e0]. *)
Lemma int_scaled (s : bool) (p : positive) (e0 : Z) :
  Zpos p < 2 ^ 53 -> e0 <= dg p - 53 ->
  cond_Zopp s (Zpos (fst (shl_align (int_mantissa p) (dg p - 53) e0)))
  = cond_Zopp s (Zpos p) * 2 ^ (- e0).
Proof.
  intros Hp He. pose proof (dg_small Hp) as Hd.
  rewrite (shl_align_val _ He), (int_mantissa_val Hp), <- Z.mul_assoc, <- pow2_split by lia.
  replace (53 - dg p + (dg p - 53 - e0)) with (- e0) by lia.
  destruct s; cbn [cond_Zopp]; lia.
Qed.

Lemma SFadd_int (a b : Z) :
  Z.abs a < 2 ^ 53 -> Z.abs b < 2 ^ 53 -> Z.abs (a + b) < 2 ^ 53 ->
  SFadd prec emax (SF_of_Z a) (SF_of_Z b) = SF_of_Z (a + b).
Proof.
  intros Ha Hb Hc.
  destruct a as [|p|p]; [destruct b; reflexivity| |];
    (destruct b as [|q|q]; [rewrite Z.add_0_r; reflexivity| |]);
    cbn [SF_of_Z SFadd]; cbv zeta;
    assert (Hp : Zpos p < 2 ^ 53) by lia; assert (Hq : Zpos q < 2 ^ 53) by lia;
    pose proof (dg_small Hp); pose proof (dg_small Hq);
    (apply normalize_int; [exact Hc|lia|]);
    match goal with
    | |- cond_Zopp ?s1 _ + cond_Zopp ?s2 _ = _ =>
        rewrite (@int_scaled s1 p _ Hp) by lia; rewrite (@int_scaled s2 q _ Hq) by lia
    | |- _ => idtac
    end.
  all: try (cbn [cond_Zopp]; lia).
Qed.





(** Multiplying by one changes nothing. *)
Lemma int_mantissa_one : int_mantissa 1 = Z.to_pos (2 ^ 52).
Proof. reflexivity. Qed.

Lemma SFmul_one_r (x : spec_float) :
  valid_binary x = true -> SFmul prec emax x (SF_of_Z 1) = x.
Proof.
  intros Hv. destruct x as [s|s| |s m e]; cbn [SF_of_Z SFmul];
    [now rewrite xorb_false_r|now rewrite xorb_false_r|reflexivity|].
  rewrite xorb_false_r. cbn [valid_binary] in Hv.
  change (dg 1 - 53) with (-52). replace (e + -52) with (e - 52) by lia.
  apply round_aux_exact; [exact Hv|lia|].
  rewrite Pos2Z.inj_mul, int_mantissa_one. reflexivity.
Qed.

Lemma SFmul_one_l (x : spec_float) :
  valid_binary x = true -> SFmul prec emax (SF_of_Z 1) x = x.
Proof.
  intros Hv. destruct x as [s|s| |s m e]; cbn [SF_of_Z SFmul]; try reflexivity.
  cbn [valid_binary] in Hv. cbn [xorb].
  change (dg 1 - 53) with (-52). replace (-52 + e) with (e - 52) by lia.
  apply round_aux_exact; [exact Hv|lia|].
  rewrite Pos2Z.inj_mul, int_mantissa_one, Z.mul_comm. reflexivity.
Qed.

End ExactRounding.

Section ExactFloats.
Local Open Scope float_scope.

(** ** The same, on binary64 numbers *)




Lemma to_Z_of_Z (z : Z) : (0 <= z < 2 ^ 53)%Z -> Uint63.to_Z (Uint63.of_Z z) = z.
Proof.
  intros H. rewrite Uint63.of_Z_spec. apply Z.mod_small.
  change Uint63.wB with (2 ^ 63)%Z. assert (2 ^ 53 < 2 ^ 63)%Z by reflexivity. lia.
Qed.

Lemma Prim2SF_of_Z (a : Z) : (Z.abs a < 2 ^ 53)%Z -> Prim2SF (f64_of_Z a) = SF_of_Z a.
Proof.
  intros H. unfold f64_of_Z. destruct (Z.ltb_spec a 0) as [Hneg|Hpos].
  - rewrite opp_spec, of_uint63_spec, to_Z_of_Z by lia.
    rewrite (@normalize_int (- a) (- a) 0) by (simpl; lia).
    destruct a as [|p|p]; try lia. reflexivity.
  - rewrite of_uint63_spec, to_Z_of_Z by lia.
    apply normalize_int; simpl; lia.
Qed.

Lemma f64_add_int (a b : Z) :
  (Z.abs a < 2 ^ 53)%Z -> (Z.abs b < 2 ^ 53)%Z -> (Z.abs (a + b) < 2 ^ 53)%Z ->
  f64_of_Z a + f64_of_Z b = f64_of_Z (a + b).
Proof.
  intros Ha Hb Hc. apply Prim2SF_inj.
  rewrite add_spec, !Prim2SF_of_Z by assumption. apply SFadd_int; assumption.
Qed.



Lemma f64_mul_one_r (x : float) : x * 1 = x.
Proof.
  apply Prim2SF_inj. rewrite mul_spec.
  change (Prim2SF 1) with (SF_of_Z 1). apply SFmul_one_r, Prim2SF_valid.
Qed.

Lemma f64_mul_one_l (x : float) : 1 * x = x.
Proof.
  apply Prim2SF_inj. rewrite mul_spec.
  change (Prim2SF 1) with (SF_of_Z 1). apply SFmul_one_l, Prim2SF_valid.
Qed.

End ExactFloats.

(** ** The gains in binary64 *)

(** [f64_of_Z a] is the double whose value is the integer [a]. *)
Lemma f64_of_Z_value (a : Z) :
  (Z.abs a < 2 ^ 53)%Z ->
  exists q, Q_of_float (f64_of_Z a) = Some q /\ q == inject_Z a.
Proof.
  intros Ha. unfold Q_of_float. rewrite (Prim2SF_of_Z Ha).
  assert (Hval : forall p : positive,
             (Zpos p < 2 ^ 53)%Z ->
             (if (0 <=? dg p - 53)%Z
              then inject_Z (Z.pos (int_mantissa p) * 2 ^ (dg p - 53))
              else Z.pos (int_mantissa p) # Z.to_pos (2 ^ (- (dg p - 53))))
             == inject_Z (Zpos p)).
  { intros p Hp. pose proof (dg_small Hp) as Hd. pose proof (int_mantissa_val Hp) as Hm.
    destruct (Z.leb_spec 0 (dg p - 53)) as [Hge|Hlt].
    - assert (E : dg p = 53%Z) by lia. rewrite E in *. rewrite Hm.
      change (2 ^ (53 - 53))%Z with 1%Z. rewrite !Z.mul_1_r. reflexivity.
    - unfold Qeq. cbn [Qnum Qden inject_Z]. rewrite Hm, Z.mul_1_r.
      rewrite Z2Pos.id by (apply Z.pow_pos_nonneg; lia).
      f_equal. f_equal. lia. }
  destruct a as [|p|p]; cbn [SF_of_Z].
  - exists 0. split; reflexivity.
  - eexists. split; [reflexivity|]. apply Hval. lia.
  - eexists. split; [reflexivity|]. rewrite Hval by lia. reflexivity.
Qed.

Lemma f64_of_size_int (n : N) : (n < 2 ^ 53)%N -> f64_of_size n = f64_of_Z (Z.of_N n).
Proof.
  intros H. unfold f64_of_size, f64_of_Z.
  assert (Hm : (n mod Size.modulus = n)%N).
  { apply N.mod_small. unfold Size.modulus.
    assert (2 ^ 53 < 2 ^ 64)%N by reflexivity. lia. }
  rewrite Hm.
  assert (H63 : (Z.of_N n < 2 ^ 63)%Z).
  { assert (Z.of_N n < 2 ^ 53)%Z by (change (2 ^ 53)%Z with (Z.of_N (2 ^ 53)); lia).
    assert (2 ^ 53 < 2 ^ 63)%Z by reflexivity. lia. }
  destruct (Z.ltb_spec (Z.of_N n) (2 ^ 63)) as [_|]; [|lia].
  destruct (Z.ltb_spec (Z.of_N n) 0) as [|_]; [lia|reflexivity].
Qed.

Lemma f64_int_nonzero (a : Z) :
  (a <> 0)%Z -> (Z.abs a < 2 ^ 53)%Z -> PrimFloat.eqb (f64_of_Z a) 0 = false.
Proof.
  intros H0 Ha. rewrite FloatAxioms.eqb_spec, (Prim2SF_of_Z Ha).
  destruct a as [|p|p]; [congruence|reflexivity|reflexivity].
Qed.



(** With unit weights the first weighted loop counts the samples and sums
    the responses as the unweighted loop does. *)
Lemma unit_weight_sums (ps ws : list float) (c : Z) (m : float) :
  length ws = length ps -> Forall (fun w => w = 1%float) ws ->
  (0 <= c)%Z -> (c + Z.of_nat (length ps) < 2 ^ 53)%Z ->
  fold_left (fun (s : float * float) (pw : float * float) =>
               let '(aw, wm) := s in
               (PrimFloat.add aw (snd pw), PrimFloat.add wm (PrimFloat.mul (fst pw) (snd pw))))
            (combine ps ws) (f64_of_Z c, m)
  = (f64_of_Z (c + Z.of_nat (length ps)), fold_left PrimFloat.add ps m).
Proof.
  revert ws c m. induction ps as [|p ps IH]; intros [|w ws] c m Hlen Hall Hc Hb;
    try discriminate.
  - cbn. now rewrite Z.add_0_r.
  - cbn [combine fold_left fst snd]. inversion Hall as [|? ? Hw Hall']; subst.
    cbn [length] in Hb.
    change 1%float with (f64_of_Z 1) at 1. rewrite f64_add_int by lia.
    rewrite f64_mul_one_r. rewrite IH; [|now inversion Hlen|exact Hall'|lia|lia].
    f_equal. f_equal. cbn [length]. lia.
Qed.

(** A second weighted loop whose weights are all 1. *)
Lemma unit_weight_terms (term : float -> float -> float) (ps ws : list float) (acc : float) :
  length ws = length ps -> Forall (fun w => w = 1%float) ws ->
  fold_left (fun acc (pw : float * float) => PrimFloat.add acc (term (fst pw) (snd pw)))
            (combine ps ws) acc
  = fold_left (fun acc p => PrimFloat.add acc (term p 1%float)) ps acc.
Proof.
  revert ws acc. induction ps as [|p ps IH]; intros [|w ws] acc Hlen Hall; try discriminate.
  - reflexivity.
  - cbn [combine fold_left fst snd]. inversion Hall as [|? ? Hw Hall']; subst.
    apply IH; [now inversion Hlen|exact Hall'].
Qed.

Lemma fold_left_pointwise {S X : Type} (f g : S -> X -> S) (l : list X) (s : S) :
  (forall acc x, f acc x = g acc x) -> fold_left f l s = fold_left g l s.
Proof.
  intros H. revert s. induction l as [|x l IH]; intros s; cbn [fold_left]; [reflexivity|].
  now rewrite H, IH.
Qed.

Lemma whole_count {T : Type} (ps : list T) :
  ps <> [] -> Size.fits ps ->
  Size.add (Size.sub (Size.n_elem ps - 1) 0) 1 = Size.n_elem ps.
Proof.
  intros Hne Hfit. destruct (whole_range Hne Hfit) as [_ [_ [Hle Hlt]]].
  rewrite (range_count Hle Hlt Hfit), (slice_all Hne). reflexivity.
Qed.

Lemma fits_small {T : Type} (ps : list T) :
  (Z.of_nat (length ps) < 2 ^ 53)%Z -> Size.fits ps /\ (Size.n_elem ps < 2 ^ 53)%N.
Proof.
  intros H. unfold Size.fits, Size.n_elem, Size.modulus.
  assert (N.of_nat (length ps) < 2 ^ 53)%N.
  { change (2 ^ 53)%Z with (Z.of_N (2 ^ 53)) in H. lia. }
  assert (2 ^ 53 < 2 ^ 64)%N by reflexivity. lia.
Qed.

Lemma slice_weights {T : Type} (ps ws : list T) :
  ps <> [] -> length ws = length ps -> slice ws 0 (Size.n_elem ps - 1) = ws.
Proof.
  intros Hne Hlen.
  assert (Hn : Size.n_elem ps = Size.n_elem ws) by (unfold Size.n_elem; now rewrite Hlen).
  rewrite Hn. apply slice_all. intros ->. destruct ps; [congruence|discriminate].
Qed.

(** With weights that are all [1.0] the weighted and the unweighted gain of
    the whole vector are the same double, whatever the responses hold. *)
Lemma unit_weights_f64 (ps ws : list float) :
  ps <> [] -> (Z.of_nat (length ps) < 2 ^ 53)%Z ->
  length ws = length ps -> Forall (fun w => w = 1%float) ws ->
  MSEGain.EvaluateAll (A := binary64) true ps ws
  = MSEGain.EvaluateAll (A := binary64) false ps ws /\
  MADGain.EvaluateAll (A := binary64) true ps ws
  = MADGain.EvaluateAll (A := binary64) false ps ws.
Proof.
  intros Hne Hsmall Hlen Hall. destruct (fits_small Hsmall) as [Hfit Hn53].
  assert (Hle : (Size.n_elem ps <= Size.n_elem ws)%N)
    by (unfold Size.n_elem; rewrite Hlen; lia).
  assert (Hpos : (0 < Z.of_nat (length ps))%Z) by (destruct ps; [congruence|cbn; lia]).
  assert (Hcount : f64_of_size (Size.n_elem ps) = f64_of_Z (Z.of_nat (length ps))).
  { rewrite (f64_of_size_int Hn53). unfold Size.n_elem. now rewrite nat_N_Z. }
  split.
  - rewrite (MSE_whole_weighted Hne Hfit Hle), (MSE_whole_unweighted ws Hne Hfit).
    rewrite (whole_count Hne Hfit), (slice_all Hne), (slice_weights Hne Hlen).
    cbn [zero one add sub mul div opp pow2 eqb of_size binary64]. cbv zeta.
    change 0%float with (f64_of_Z 0) at 1.
    rewrite (@unit_weight_sums ps ws 0 0%float Hlen Hall) by lia.
    rewrite Z.add_0_l, <- Hcount.
    rewrite Hcount at 1. rewrite f64_int_nonzero by lia.
    rewrite (@unit_weight_terms
               (fun p w => PrimFloat.div
                  (PrimFloat.mul w
                     (PrimFloat.mul
                        (PrimFloat.sub p (PrimFloat.div (fold_left PrimFloat.add ps 0%float)
                                            (f64_of_size (Size.n_elem ps))))
                        (PrimFloat.sub p (PrimFloat.div (fold_left PrimFloat.add ps 0%float)
                                            (f64_of_size (Size.n_elem ps))))))
                  (f64_of_size (Size.n_elem ps))) ps ws 0%float Hlen Hall).
    reflexivity.
  - rewrite (MAD_whole_weighted Hne Hfit Hle), (MAD_whole_unweighted ws Hne Hfit).
    rewrite (whole_count Hne Hfit), (slice_all Hne), (slice_weights Hne Hlen).
    cbn [zero one add sub mul div opp fabs eqb of_size binary64]. cbv zeta.
    change 0%float with (f64_of_Z 0) at 1.
    rewrite (@unit_weight_sums ps ws 0 0%float Hlen Hall) by lia.
    rewrite Z.add_0_l, <- Hcount.
    rewrite Hcount at 1. rewrite f64_int_nonzero by lia.
    rewrite (@unit_weight_terms
               (fun p w => PrimFloat.div
                  (PrimFloat.mul w
                     (PrimFloat.abs
                        (PrimFloat.sub p (PrimFloat.div (fold_left PrimFloat.add ps 0%float)
                                            (f64_of_size (Size.n_elem ps))))))
                  (f64_of_size (Size.n_elem ps))) ps ws 0%float Hlen Hall).
    f_equal. f_equal. apply fold_left_pointwise. intros acc p. now rewrite f64_mul_one_l.
Qed.

(** ** An even split in binary64 *)








(** ** The claims about the gains, in exact arithmetic and in binary64 *)







(** C7, as amended.  For a non-empty response vector and a constant weight
    vector of the same length the weighted gain of the whole vector equals
    the unweighted one, for MSE and for MAD:
    - in exact arithmetic, for every non-zero constant;
    - in binary64, as the same double, when the constant is [1.0] and there
      are fewer than [2 ^ 53] responses, whatever doubles the responses
      are. *)
Theorem constant_weights_match :
  (forall (responses weights : list Q) (c : Q),
     responses <> [] -> Size.fits responses -> length weights = length responses ->
     ~ c == 0 -> Forall (fun w => w == c) weights ->
     (exists gw gu,
         MSEGain.EvaluateAll true responses weights = Some gw /\
         MSEGain.EvaluateAll false responses weights = Some gu /\ gw == gu) /\
     (exists gw gu,
         MADGain.EvaluateAll true responses weights = Some gw /\
         MADGain.EvaluateAll false responses weights = Some gu /\ gw == gu)) /\
  (forall (responses weights : list float),
     responses <> [] -> (Z.of_nat (length responses) < 2 ^ 53)%Z ->
     length weights = length responses -> Forall (fun w => w = 1%float) weights ->
     (exists g,
         MSEGain.EvaluateAll (A := binary64) true responses weights = Some g /\
         MSEGain.EvaluateAll (A := binary64) false responses weights = Some g) /\
     (exists g,
         MADGain.EvaluateAll (A := binary64) true responses weights = Some g /\
         MADGain.EvaluateAll (A := binary64) false responses weights = Some g)).
Proof.
  split.
  - intros responses weights c Hne Hfit Hlen Hc Hall. split.
    + destruct (constant_weights_whole MSE_is_gain Hne Hfit Hlen Hc Hall)
        as [gw [gu [Hgw [Hgu [Heq _]]]]].
      exists gw, gu. rewrite !(MSE_EvaluateAll_nonempty _ _ Hne Hfit). auto.
    + destruct (constant_weights_whole MAD_is_gain Hne Hfit Hlen Hc Hall)
        as [gw [gu [Hgw [Hgu [Heq _]]]]].
      exists gw, gu. rewrite !(MAD_EvaluateAll_nonempty _ _ Hne Hfit). auto.
  - intros responses weights Hne Hsmall Hlen Hall.
    destruct (unit_weights_f64 Hne Hsmall Hlen Hall) as [Hmse Hmad].
    destruct (fits_small Hsmall) as [Hfit _].
    destruct (whole_range Hne Hfit) as [_ [_ [_ Hlt]]].
    destruct (@Evaluate_returns float binary64 false responses weights 0
                (Size.n_elem responses - 1) Hlt ltac:(discriminate)) as [[g1 H1] [g2 H2]].
    rewrite <- (MSE_EvaluateAll_nonempty false weights Hne Hfit) in H1.
    rewrite <- (MAD_EvaluateAll_nonempty false weights Hne Hfit) in H2.
    split.
    + exists g1. rewrite Hmse. split; exact H1.
    + exists g2. rewrite Hmad. split; exact H2.
Qed.

Lemma constant_weights_match_witness :
  ((exists gw gu,
       MSEGain.EvaluateAll true [1; 2; 4] [3; 3; 3] = Some gw /\
       MSEGain.EvaluateAll false [1; 2; 4] [3; 3; 3] = Some gu /\ gw == gu) /\
   (exists gw gu,
       MADGain.EvaluateAll true [1; 2; 4] [3; 3; 3] = Some gw /\
       MADGain.EvaluateAll false [1; 2; 4] [3; 3; 3] = Some gu /\ gw == gu)) /\
  ((exists g,
       MSEGain.EvaluateAll (A := binary64) true
         [0x1.999999999999ap-4; 0x1.3333333333333p-2; 0x1.6666666666666p-1]%float
         [1; 1; 1]%float = Some g /\
       MSEGain.EvaluateAll (A := binary64) false
         [0x1.999999999999ap-4; 0x1.3333333333333p-2; 0x1.6666666666666p-1]%float
         [1; 1; 1]%float = Some g) /\
   (exists g,
       MADGain.EvaluateAll (A := binary64) true
         [0x1.999999999999ap-4; 0x1.3333333333333p-2; 0x1.6666666666666p-1]%float
         [1; 1; 1]%float = Some g /\
       MADGain.EvaluateAll (A := binary64) false
         [0x1.999999999999ap-4; 0x1.3333333333333p-2; 0x1.6666666666666p-1]%float
         [1; 1; 1]%float = Some g)).
Proof.
  split.
  - apply (proj1 constant_weights_match [1; 2; 4] [3; 3; 3] 3).
    + discriminate.
    + reflexivity.
    + reflexivity.
    + intros H. discriminate H.
    + repeat constructor.
  - apply (proj2 constant_weights_match
             [0x1.999999999999ap-4; 0x1.3333333333333p-2; 0x1.6666666666666p-1]%float
             [1; 1; 1]%float).
    + discriminate.
    + reflexivity.
    + reflexivity.
    + repeat constructor.
Defined.

(** C7, as stated, fails in binary64 for other constants.  On the responses
    1, 2, 4 with weights 3 the weighted and the unweighted MSE gain differ in
    the last place.  On the responses 1, 2 with weights [2 ^ 1023] the
    weight sum overflows and both weighted gains are not a number, while the
    unweighted gains are [-0.25] and [-0.5].  Even the weight 2 fails: on
    the responses [DBL_MAX], 0 the weighted mean overflows and the weighted
    MAD gain is minus infinity, the unweighted one is [-DBL_MAX / 2]. *)
Lemma constant_weights_differ :
  MSEGain.EvaluateAll (A := binary64) true [1; 2; 4]%float [3; 3; 3]%float
    = Some (-0x1.8e38e38e38e39p+0)%float /\
  MSEGain.EvaluateAll (A := binary64) false [1; 2; 4]%float [3; 3; 3]%float
    = Some (-0x1.8e38e38e38e38p+0)%float /\
  PrimFloat.eqb (-0x1.8e38e38e38e39p+0) (-0x1.8e38e38e38e38p+0) = false /\
  MSEGain.EvaluateAll (A := binary64) true [1; 2]%float [0x1p+1023; 0x1p+1023]%float
    = Some nan /\
  MSEGain.EvaluateAll (A := binary64) false [1; 2]%float [0x1p+1023; 0x1p+1023]%float
    = Some (-0x1p-2)%float /\
  MADGain.EvaluateAll (A := binary64) true [1; 2]%float [0x1p+1023; 0x1p+1023]%float
    = Some nan /\
  MADGain.EvaluateAll (A := binary64) false [1; 2]%float [0x1p+1023; 0x1p+1023]%float
    = Some (-0x1p-1)%float /\
  MADGain.EvaluateAll (A := binary64) true [0x1.fffffffffffffp+1023; 0]%float [2; 2]%float
    = Some neg_infinity /\
  MADGain.EvaluateAll (A := binary64) false [0x1.fffffffffffffp+1023; 0]%float [2; 2]%float
    = Some (-0x1.fffffffffffffp+1022)%float.
Proof.
  split; [vm_compute; reflexivity|].
  split; [vm_compute; reflexivity|].
  split; [vm_compute; reflexivity|].
  split; [vm_compute; reflexivity|].
  split; [vm_compute; reflexivity|].
  split; [vm_compute; reflexivity|].
  split; [vm_compute; reflexivity|].
  split; [vm_compute; reflexivity|].
  vm_compute; reflexivity.
Qed.

(** C4, as amended.  On every range inside the vectors:
    - in binary64 neither gain is ever greater than 0: the call returns, and
      what it returns is negative, a zero or not a number, for the
      unweighted variants on every input and for the weighted ones whenever
      no weight has its sign bit set;
    - in exact arithmetic, on a non-empty range, the unweighted MSE and MAD
      gains are at most 0, are 0 when all responses of the range are
      identical and are negative when they are not; the weighted gains are 0
      when all responses of the range are identical and, when no weight of
      the range is negative, are at most 0 and are negative as soon as two
      responses of positive weight differ. *)
Theorem gain_sign :
  (forall (UseWeights : bool) (predictors weights : list float) (start end_ : N),
     (end_ < Size.n_elem predictors)%N ->
     (UseWeights = true ->
      (end_ < Size.n_elem weights)%N /\ Forall (fun w => sign_clear w = true) weights) ->
     returns (MSEGain.Evaluate (A := binary64) UseWeights predictors weights start end_)
       (fun g => PrimFloat.ltb 0 g = false) /\
     returns (MADGain.Evaluate (A := binary64) UseWeights predictors weights start end_)
       (fun g => PrimFloat.ltb 0 g = false)) /\
  (forall (predictors weights : list Q) (start end_ : N),
     (start <= end_)%N -> (end_ < Size.n_elem predictors)%N -> Size.fits predictors ->
     (returns (MSEGain.Evaluate false predictors weights start end_)
        (fun g => g <= 0 /\
                  (all_same (slice predictors start end_) -> g == 0) /\
                  (~ all_same (slice predictors start end_) -> g < 0)) /\
      returns (MADGain.Evaluate false predictors weights start end_)
        (fun g => g <= 0 /\
                  (all_same (slice predictors start end_) -> g == 0) /\
                  (~ all_same (slice predictors start end_) -> g < 0))) /\
     ((end_ < Size.n_elem weights)%N ->
      returns (MSEGain.Evaluate true predictors weights start end_)
        (fun g => (all_same (slice predictors start end_) -> g == 0) /\
                  (nonneg_weights (weighted_slice predictors weights start end_) ->
                   g <= 0 /\
                   (impure (weighted_slice predictors weights start end_) -> g < 0))) /\
      returns (MADGain.Evaluate true predictors weights start end_)
        (fun g => (all_same (slice predictors start end_) -> g == 0) /\
                  (nonneg_weights (weighted_slice predictors weights start end_) ->
                   g <= 0 /\
                   (impure (weighted_slice predictors weights start end_) -> g < 0))))).
Proof.
  split.
  - intros UseWeights predictors weights start end_ Hp Hw.
    destruct (@Evaluate_returns float binary64 UseWeights predictors weights start end_ Hp
                (fun H => proj1 (Hw H))) as [[g1 H1] [g2 H2]].
    destruct (@binary64_gain_sign UseWeights predictors weights start end_
                (fun H => proj2 (Hw H))) as [S1 S2].
    split.
    + exists g1. split; [exact H1|exact (S1 g1 H1)].
    + exists g2. split; [exact H2|exact (S2 g2 H2)].
  - intros predictors weights start end_ Hse Hlt Hfit.
    destruct (gain_sign_of weights MSE_is_gain Hse Hlt Hfit) as [Hu1 Hw1].
    destruct (gain_sign_of weights MAD_is_gain Hse Hlt Hfit) as [Hu2 Hw2].
    split; [split; assumption|]. intros Hltw. split; auto.
Qed.

(** The gains are negative where the theorem says so: on the responses 1, 3
    of the range 1..2 of [5; 1; 3; 9], unweighted and with the positive
    weights 2, 1; and the binary64 gains of the same range are not above
    0. *)
Lemma gain_sign_witness :
  (returns (MSEGain.Evaluate (A := binary64) true [5; 1; 3; 9]%float [1; 2; 1; 4]%float 1 2)
     (fun g => PrimFloat.ltb 0 g = false) /\
   returns (MADGain.Evaluate (A := binary64) true [5; 1; 3; 9]%float [1; 2; 1; 4]%float 1 2)
     (fun g => PrimFloat.ltb 0 g = false)) /\
  (returns (MSEGain.Evaluate false [5; 1; 3; 9] [1; 2; 1; 4] 1 2) (fun g => g < 0) /\
   returns (MADGain.Evaluate false [5; 1; 3; 9] [1; 2; 1; 4] 1 2) (fun g => g < 0) /\
   returns (MSEGain.Evaluate true [5; 1; 3; 9] [1; 2; 1; 4] 1 2) (fun g => g < 0) /\
   returns (MADGain.Evaluate true [5; 1; 3; 9] [1; 2; 1; 4] 1 2) (fun g => g < 0)).
Proof.
  assert (Hdiff : ~ all_same (slice [5; 1; 3; 9] 1 2)).
  { intros Hall.
    specialize (Hall 1 3 (or_introl eq_refl) (or_intror (or_introl eq_refl))).
    discriminate Hall. }
  assert (Hnn : nonneg_weights (weighted_slice [5; 1; 3; 9] [1; 2; 1; 4] 1 2)).
  { repeat constructor; discriminate. }
  assert (Himp : impure (weighted_slice [5; 1; 3; 9] [1; 2; 1; 4] 1 2)).
  { exists 1, 2, 3, 1.
    split; [left; reflexivity|]. split; [right; left; reflexivity|].
    split; [reflexivity|]. split; [reflexivity|]. intros H. discriminate H. }
  split.
  - apply (proj1 gain_sign true [5; 1; 3; 9]%float [1; 2; 1; 4]%float 1%N 2%N).
    + reflexivity.
    + intros _. split; [reflexivity|repeat constructor].
  - destruct (proj2 gain_sign [5; 1; 3; 9] [1; 2; 1; 4] 1%N 2%N) as [[Hu1 Hu2] Hw].
    + discriminate.
    + reflexivity.
    + reflexivity.
    + destruct (Hw ltac:(reflexivity)) as [Hw1 Hw2].
      destruct Hu1 as [g1 [E1 [_ [_ N1]]]]. destruct Hu2 as [g2 [E2 [_ [_ N2]]]].
      destruct Hw1 as [g3 [E3 [_ N3]]]. destruct Hw2 as [g4 [E4 [_ N4]]].
      split; [exists g1; split; [exact E1|exact (N1 Hdiff)]|].
      split; [exists g2; split; [exact E2|exact (N2 Hdiff)]|].
      split; [exists g3; split; [exact E3|exact (proj2 (N3 Hnn) Himp)]|].
      exists g4; split; [exact E4|exact (proj2 (N4 Hnn) Himp)].
Defined.

(** C4, as stated, fails.
    In the weighted variant: on the responses 0 and 1 with weights 1 and 0
    the responses of the range differ, yet both gains are 0 (in binary64
    [-0.0], which is not below 0): a zero weight hides the impurity.  And on
    the responses -10, 0, 10 with weights -1, 3, -1 both gains are positive,
    in exact arithmetic and in binary64.
    In binary64, unweighted: three identical responses [0x1.999999999999ap+50]
    have a sum that rounds, a mean that differs from them, and the gains
    [-0.0625] and [-0.25], not 0.  And the two different responses 0 and
    [2 ^ -600] have a squared deviation that underflows and the MSE gain
    [-0.0], the two different responses 0 and [2 ^ -1074] the MAD gain
    [-0.0]: not below 0. *)
Lemma gain_sign_counterexample :
  ~ all_same (slice [0; 1] 0 1) /\
  returns (MSEGain.Evaluate (A := exactQ) true [0; 1] [1; 0] 0 1) (fun g => ~ g < 0) /\
  returns (MADGain.Evaluate (A := exactQ) true [0; 1] [1; 0] 0 1) (fun g => ~ g < 0) /\
  returns (MSEGain.Evaluate (A := binary64) true [0; 1]%float [1; 0]%float 0 1)
          (fun g => PrimFloat.ltb g 0 = false) /\
  returns (MADGain.Evaluate (A := binary64) true [0; 1]%float [1; 0]%float 0 1)
          (fun g => PrimFloat.ltb g 0 = false) /\
  returns (MSEGain.Evaluate (A := exactQ) true [-10; 0; 10] [-1; 3; -1] 0 2)
          (fun g => ~ g <= 0) /\
  returns (MADGain.Evaluate (A := exactQ) true [-10; 0; 10] [-1; 3; -1] 0 2)
          (fun g => ~ g <= 0) /\
  MSEGain.Evaluate (A := binary64) true [-10; 0; 10]%float [-1; 3; -1]%float 0 2
    = Some 200%float /\
  MADGain.Evaluate (A := binary64) true [-10; 0; 10]%float [-1; 3; -1]%float 0 2
    = Some 20%float /\
  MSEGain.Evaluate (A := binary64) false
    [0x1.999999999999ap+50; 0x1.999999999999ap+50; 0x1.999999999999ap+50]%float [] 0 2
    = Some (-0x1p-4)%float /\
  MADGain.Evaluate (A := binary64) false
    [0x1.999999999999ap+50; 0x1.999999999999ap+50; 0x1.999999999999ap+50]%float [] 0 2
    = Some (-0x1p-2)%float /\
  PrimFloat.eqb 0 0x1p-600 = false /\
  returns (MSEGain.Evaluate (A := binary64) false [0; 0x1p-600]%float [] 0 1)
          (fun g => PrimFloat.ltb g 0 = false) /\
  PrimFloat.eqb 0 0x1p-1074 = false /\
  returns (MADGain.Evaluate (A := binary64) false [0; 0x1p-1074]%float [] 0 1)
          (fun g => PrimFloat.ltb g 0 = false).
Proof.
  split.
  { intros Hall. specialize (Hall 0 1 (or_introl eq_refl) (or_intror (or_introl eq_refl))).
    discriminate Hall. }
  do 6 (split; [eexists; split; [vm_compute; reflexivity|vm_compute; congruence]|]).
  do 5 (split; [vm_compute; reflexivity|]).
  split; [eexists; split; [vm_compute; reflexivity|vm_compute; reflexivity]|].
  split; [vm_compute; reflexivity|].
  eexists; split; [vm_compute; reflexivity|vm_compute; reflexivity].
Qed.
